(** * juliet: the parameter-transform and likelihood-composition engine

    A shallow embedding of [juliet.py]: the prior transform ([transform_prior],
    [prior]), the white-noise likelihood ([gaussian_log_likelihood]) and the
    joint log-likelihood ([loglike]) with its feasibility gates, geometry
    reparametrization, eccentricity dispatch and GP-vector marshaling.

    Conventions of the embedding.
    - numpy/Python floats are idealised as real numbers ([R]); [np.sqrt],
      [np.log], [np.sin], [np.arccos] are [sqrt], [ln], [sin], [acos].
      Rounding, infinities and NaN are outside the model.
    - Python dictionaries are insertion-ordered association lists keyed by
      strings ([dict]); the order matters because [prior] and [loglike] walk
      [priors.keys()] to number the free parameters.
    - [loglike] mutates module-level objects ([priors], [lc_dictionary],
      [rv_dictionary], [radvel_params], [rvresiduals]); they form the [store]
      threaded through a small state monad whose outcomes distinguish falling
      through ([Next]), Python's [return] ([Return]) and an exception
      ([Raise]).
    - batman, radvel, george and celerite are external collaborators and
      enter as the [oracles] record. *)

From Stdlib Require Import Reals Lra Lia List String Ascii DecimalString Bool.
From Stdlib Require Import Sorted.
Import ListNotations.
Open Scope R_scope.

(* ================================================================= *)
(** * Scalars *)

Module Num.

(** Python comparisons on floats, as booleans. *)
Definition ltb (x y : R) : bool := if Rlt_dec x y then true else false.
Definition gtb (x y : R) : bool := ltb y x.
Definition geb (x y : R) : bool := negb (ltb x y).

(** [np.arctan2(y, x)]: the angle of the point (x, y), in (-pi, pi]. *)
Definition arctan2 (y x : R) : R :=
  if ltb 0 x then atan (y / x)
  else if ltb x 0 then
         (if ltb y 0 then atan (y / x) - PI else atan (y / x) + PI)
  else if ltb 0 y then PI / 2
  else if ltb y 0 then - (PI / 2)
  else 0.

(** [str(i)] for a non-negative integer. *)
Definition str (i : nat) : string := NilEmpty.string_of_uint (Nat.to_uint i).

End Num.

Notation "x <? y" := (Num.ltb x y) : R_scope.
Notation "x >? y" := (Num.gtb x y) : R_scope.
Notation "x >=? y" := (Num.geb x y) : R_scope.

(* ================================================================= *)
(** * Dictionaries and arrays *)

Module Dict.

(** A Python [dict] with string keys: insertion-ordered, keys unique. *)
Definition dict (V : Type) : Type := list (string * V).

Fixpoint get {V} (d : dict V) (k : string) : option V :=
  match d with
  | [] => None
  | (k', v) :: d' => if String.eqb k' k then Some v else get d' k
  end.

(** [d[k] = v]: overwrite in place, or append a new key at the end. *)
Fixpoint set {V} (d : dict V) (k : string) (v : V) : dict V :=
  match d with
  | [] => [(k, v)]
  | (k', v') :: d' =>
      if String.eqb k' k then (k', v) :: d' else (k', v') :: set d' k v
  end.

Definition mem {V} (d : dict V) (k : string) : bool :=
  match get d k with Some _ => true | None => false end.

End Dict.

Abbreviation dict := Dict.dict.

Module Array.

(** A one-dimensional numpy array of floats. *)
Definition array : Type := list R.

(** [np.sum]. *)
Definition sum (a : array) : R := fold_right Rplus 0 a.

(** An elementwise binary operation on two arrays of the same shape;
    a shape mismatch is numpy's [ValueError].  (numpy would broadcast an
    array of length one; the operands here are slices taken with the same
    index array, or arrays read together from one data file.) *)
Fixpoint zip_with (f : R -> R -> R) (a b : array) : option array :=
  match a, b with
  | [], [] => Some []
  | x :: a', y :: b' =>
      match zip_with f a' b' with
      | Some c => Some (f x y :: c)
      | None => None
      end
  | _, _ => None
  end.

(** [a[idx]] with an integer index array. *)
Fixpoint gather (idx : list nat) (a : array) : option array :=
  match idx with
  | [] => Some []
  | k :: idx' =>
      match nth_error a k, gather idx' a with
      | Some x, Some r => Some (x :: r)
      | _, _ => None
      end
  end.

(** Overwrite position [k]. *)
Fixpoint set_nth (k : nat) (x : R) (a : array) : option array :=
  match k, a with
  | _, [] => None
  | O, _ :: a' => Some (x :: a')
  | S k', y :: a' =>
      match set_nth k' x a' with
      | Some r => Some (y :: r)
      | None => None
      end
  end.

(** [a[idx] = vals] with an integer index array. *)
Fixpoint scatter (idx : list nat) (vals : array) (a : array) : option array :=
  match idx, vals with
  | [], [] => Some a
  | k :: idx', x :: vals' =>
      match set_nth k x a with
      | Some a' => scatter idx' vals' a'
      | None => None
      end
  | _, _ => None
  end.

End Array.

Abbreviation array := Array.array.

(* ================================================================= *)
(** * The white-noise likelihood (juliet.py, lines 614-618) *)

Definition log2pi : R := ln (2 * PI).

Definition gaussian_log_likelihood (residuals errors : array) (jitter : R)
  : option R :=
  let taus := map (fun e => 1 / (e ^ 2 + jitter ^ 2)) errors in
  match Array.zip_with Rmult taus (map (fun r => r ^ 2) residuals) with
  | None => None
  | Some weighted =>
      match Array.zip_with Rplus (map (fun t => ln (1 / t)) taus) weighted with
      | None => None
      | Some terms =>
          Some (-0.5 * (INR (List.length residuals) * log2pi + Array.sum terms))
      end
  end.

(** The closed form the specification gives for the same quantity,
    written from the specification's words:
    [-0.5 (N log(2 pi) + sum log(s_i^2+j^2) + sum r_i^2/(s_i^2+j^2))]. *)
Definition gaussian_closed_form (r sigma : array) (j : R) : R :=
  -0.5 * (INR (List.length r) * ln (2 * PI)
          + Array.sum (map (fun s => ln (s ^ 2 + j ^ 2)) sigma)
          + Array.sum (map (fun rs => fst rs ^ 2 / (snd rs ^ 2 + j ^ 2))
                           (combine r sigma))).

(* ================================================================= *)
(** * The data model *)

(** One entry of the [priors] dictionary built by [utils.readpriors]:
    [priors[name] = {'type': ..., 'value': ..., 'cvalue': ...}]. *)
Record pinfo : Type := mk_pinfo {
  ptype : string;
  value : list R;
  cvalue : R
}.

Definition with_cvalue (p : pinfo) (v : R) : pinfo :=
  {| ptype := ptype p; value := value p; cvalue := v |}.

(** The fields of a [batman.TransitParams] object that [loglike] writes. *)
Record TransitParams : Type := mk_params {
  tp_t0 : R;
  tp_per : R;
  tp_rp : R;
  tp_a : R;
  tp_inc : R;
  tp_ecc : R;
  tp_w : R;
  tp_u : list R
}.

Definition with_u (tp : TransitParams) (u : list R) : TransitParams :=
  {| tp_t0 := tp_t0 tp; tp_per := tp_per tp; tp_rp := tp_rp tp;
     tp_a := tp_a tp; tp_inc := tp_inc tp; tp_ecc := tp_ecc tp;
     tp_w := tp_w tp; tp_u := u |}.

(** Lines 724-730: the seven orbital attributes, [u] kept. *)
Definition with_orbit (tp : TransitParams) (t0 P p a inc ecc omega : R)
  : TransitParams :=
  {| tp_t0 := t0; tp_per := P; tp_rp := p; tp_a := a; tp_inc := inc;
     tp_ecc := ecc; tp_w := omega; tp_u := tp_u tp |}.

(** The kernel families detected at setup (lines 327-340, 444-457). *)
Inductive gp_kernel : Type :=
| SEKernel
| ExpSineSquaredSEKernel
| CeleriteQPKernel.

(** [lc_dictionary[instrument]].  [GP_group] holds the bindings
    ['GP_B'], ['GP_sigma'], ['GP_alpha0'], ... set at lines 366-415. *)
Record lc_entry : Type := mk_lc_entry {
  ldlaw : string;
  GPDetrend : bool;
  GPType : gp_kernel;
  nX : nat;
  GP_group : dict string;
  GPVector : array;
  params : TransitParams
}.

Definition with_params (e : lc_entry) (tp : TransitParams) : lc_entry :=
  {| ldlaw := ldlaw e; GPDetrend := GPDetrend e; GPType := GPType e;
     nX := nX e; GP_group := GP_group e; GPVector := GPVector e;
     params := tp |}.

Definition with_GPVector (e : lc_entry) (v : array) : lc_entry :=
  {| ldlaw := ldlaw e; GPDetrend := GPDetrend e; GPType := GPType e;
     nX := nX e; GP_group := GP_group e; GPVector := v;
     params := params e |}.

(** [rv_dictionary], the part [loglike] uses. *)
Record rv_entry : Type := mk_rv_entry {
  rv_GPType : gp_kernel;
  rv_GP_group : dict string;
  rv_GPVector : array
}.

Definition with_rv_GPVector (e : rv_entry) (v : array) : rv_entry :=
  {| rv_GPType := rv_GPType e; rv_GP_group := rv_GP_group e;
     rv_GPVector := v |}.

(** The module-level objects that [loglike] mutates. *)
Record store : Type := mk_store {
  priors : dict pinfo;
  lc_dictionary : dict lc_entry;
  rv_dictionary : rv_entry;
  radvel_params : dict R;
  rvresiduals : array;
  rvresiduals_err : array
}.

Definition with_priors (s : store) (p : dict pinfo) : store :=
  {| priors := p; lc_dictionary := lc_dictionary s;
     rv_dictionary := rv_dictionary s; radvel_params := radvel_params s;
     rvresiduals := rvresiduals s; rvresiduals_err := rvresiduals_err s |}.

Definition with_lc_dictionary (s : store) (d : dict lc_entry) : store :=
  {| priors := priors s; lc_dictionary := d;
     rv_dictionary := rv_dictionary s; radvel_params := radvel_params s;
     rvresiduals := rvresiduals s; rvresiduals_err := rvresiduals_err s |}.

Definition with_rv_dictionary (s : store) (e : rv_entry) : store :=
  {| priors := priors s; lc_dictionary := lc_dictionary s;
     rv_dictionary := e; radvel_params := radvel_params s;
     rvresiduals := rvresiduals s; rvresiduals_err := rvresiduals_err s |}.

Definition with_radvel_params (s : store) (d : dict R) : store :=
  {| priors := priors s; lc_dictionary := lc_dictionary s;
     rv_dictionary := rv_dictionary s; radvel_params := d;
     rvresiduals := rvresiduals s; rvresiduals_err := rvresiduals_err s |}.

Definition with_rvresiduals (s : store) (r : array) : store :=
  {| priors := priors s; lc_dictionary := lc_dictionary s;
     rv_dictionary := rv_dictionary s; radvel_params := radvel_params s;
     rvresiduals := r; rvresiduals_err := rvresiduals_err s |}.

Definition with_rvresiduals_err (s : store) (e : array) : store :=
  {| priors := priors s; lc_dictionary := lc_dictionary s;
     rv_dictionary := rv_dictionary s; radvel_params := radvel_params s;
     rvresiduals := rvresiduals s; rvresiduals_err := e |}.

(** The module-level names fixed before sampling starts.  [lcfilename],
    [rvfilename] and [rveparamfile] record whether the command-line value
    [is not None]; the arrays are those returned by [utils.readlc]. *)
Record config : Type := mk_config {
  use_dynesty : bool;
  lcfilename : bool;
  rvfilename : bool;
  rveparamfile : bool;
  numbering_transit : list nat;
  numbering_rv : list nat;
  inames_lc : list string;
  inames_rv : list string;
  instrument_indexes_lc : dict (list nat);
  instrument_indexes_rv : dict (list nat);
  f_lc : array;
  ferr_lc : array;
  lcones : array;
  t_rv : array;
  rv_rv : array;
  rverr_rv : array;
  efficient_bp : bool;
  pl : R;
  pu : R;
  fitrho : bool;
  stellar_density : bool;
  sd_mean : R;
  sd_sigma : R;
  fitrvline : bool;
  fitrvquad : bool;
  ecc_parametrization_transit : list (nat * nat);
  ecc_parametrization_rv : list (nat * nat)
}.

(** The external collaborators.  [None] is an exception raised by the
    library. *)
Record oracles : Type := mk_oracles {
  (** [lc_dictionary[instrument]['m'].light_curve(params)] *)
  light_curve : string -> TransitParams -> option array;
  (** [radvel.model.RVModel(radvel_params).__call__(t_rv)] *)
  RVModel : dict R -> array -> option array;
  (** [GPObject.set_parameter_vector(v)] then [GPObject.log_likelihood(r)]
      for the GP of a photometric instrument *)
  lc_gp_log_likelihood : string -> array -> array -> option R;
  (** [set_parameter_vector(v)], [compute(X, yerr)], [log_likelihood(r)]
      for the radial-velocity GP *)
  rv_gp_log_likelihood : array -> array -> array -> option R
}.

(** The transforms of [utils] that [transform_prior] dispatches to. *)
Record utils_transforms : Type := mk_utils {
  transform_uniform : R -> R -> R -> R;
  transform_normal : R -> R -> R -> R;
  transform_loguniform : R -> R -> R -> R;
  transform_beta : R -> R -> R -> R;
  transform_exponential : R -> R
}.

(* ================================================================= *)
(** * Control flow: fall through, [return], exception *)

Inductive outcome (A : Type) : Type :=
| Next (a : A)
| Return (v : R)
| Raise.

Arguments Next {A} a.
Arguments Return {A} v.
Arguments Raise {A}.

Definition M (A : Type) : Type := store -> outcome A * store.

Definition ret {A} (a : A) : M A := fun s => (Next a, s).

Definition bind {A B} (m : M A) (k : A -> M B) : M B :=
  fun s =>
    match m s with
    | (Next a, s') => k a s'
    | (Return v, s') => (Return v, s')
    | (Raise, s') => (Raise, s')
    end.

Definition return_ {A} (v : R) : M A := fun s => (Return v, s).

Definition raise {A} : M A := fun s => (Raise, s).

Definition get_store : M store := fun s => (Next s, s).

Definition modify (f : store -> store) : M unit := fun s => (Next tt, f s).

(** A lookup or library call that fails raises. *)
Definition of_option {A} (o : option A) : M A :=
  match o with Some a => ret a | None => raise end.

Notation "x <- m ;; k" := (bind m (fun x => k))
  (at level 61, m at next level, right associativity).
Notation "m ;;; k" := (bind m (fun _ => k))
  (at level 61, right associativity).

(** [for x in xs: acc = body(x, acc)], the loop's live locals in [acc]. *)
Fixpoint for_each {A B} (xs : list A) (acc : B) (body : A -> B -> M B)
  : M B :=
  match xs with
  | [] => ret acc
  | x :: xs' => acc' <- body x acc ;; for_each xs' acc' body
  end.

(** [for n in range(len(xs)): i = xs[n]; acc = body(n, i, acc)]. *)
Fixpoint for_range {B} (xs : list nat) (n : nat) (acc : B)
         (body : nat -> nat -> B -> M B) : M B :=
  match xs with
  | [] => ret acc
  | i :: xs' => acc' <- body n i acc ;; for_range xs' (S n) acc' body
  end.

(* ================================================================= *)
(** * The prior transform (juliet.py, lines 586-633) *)

(** What a Python call hands back: a float, [None] (the function fell off
    its end), or an exception. *)
Inductive pyresult : Type :=
| Value (x : R)
| NoneValue
| Exception.

Section Prior.

Variable utils : utils_transforms.

(** [pinfo['value'][0], pinfo['value'][1]] *)
Definition two_values (pi : pinfo) (f : R -> R -> R) : pyresult :=
  match nth_error (value pi) 0, nth_error (value pi) 1 with
  | Some v0, Some v1 => Value (f v0 v1)
  | _, _ => Exception
  end.

Definition transform_prior (val : R) (pi : pinfo) : pyresult :=
  if (ptype pi =? "uniform")%string then
    two_values pi (transform_uniform utils val)
  else if (ptype pi =? "normal")%string then
    two_values pi (transform_normal utils val)
  else if (ptype pi =? "jeffreys")%string then
    two_values pi (transform_loguniform utils val)
  else if (ptype pi =? "beta")%string then
    two_values pi (transform_beta utils val)
  else if (ptype pi =? "exponential")%string then
    Value (transform_exponential utils val)
  else NoneValue.

(** An array cell: a float, or the not-a-number numpy stores when [None]
    is assigned into a float array. *)
Definition cell : Type := option R.

Fixpoint write_cell (k : nat) (x : cell) (a : list cell) : option (list cell) :=
  match k, a with
  | _, [] => None
  | O, _ :: a' => Some (x :: a')
  | S k', y :: a' =>
      match write_cell k' x a' with
      | Some r => Some (y :: r)
      | None => None
      end
  end.

(** The loop of [prior] over [priors.keys()].  [out] is the array written:
    the module-level [transformed_priors] under dynesty, [cube] itself
    (a C array of doubles, which refuses [None]) under MultiNest. *)
Fixpoint prior_loop (dynesty : bool) (entries : dict pinfo) (pcounter : nat)
         (cube : list R) (out : list cell) : option (list cell) :=
  match entries with
  | [] => Some out
  | (_, pi) :: rest =>
      if negb (ptype pi =? "fixed")%string then
        match nth_error cube pcounter with
        | None => None
        | Some u =>
            match transform_prior u pi with
            | Exception => None
            | Value x =>
                match write_cell pcounter (Some x) out with
                | Some out' => prior_loop dynesty rest (S pcounter) cube out'
                | None => None
                end
            | NoneValue =>
                if dynesty then
                  match write_cell pcounter None out with
                  | Some out' => prior_loop dynesty rest (S pcounter) cube out'
                  | None => None
                  end
                else None
            end
        end
      else prior_loop dynesty rest pcounter cube out
  end.

Definition prior (cfg : config) (registry : dict pinfo) (cube : list R)
           (transformed_priors : list cell) : option (list cell) :=
  prior_loop (use_dynesty cfg) registry 0 cube
             (if use_dynesty cfg then transformed_priors else map Some cube).

End Prior.

(** Modelled from the spec: [utils.readpriors], which builds the registry, is
    not among the sources.  Section 4.1: "unsupported kind is a setup-time
    fatal configuration error"; section 3 lists the kinds.  Setup goes on
    to sampling only with a registry of supported kinds. *)
Definition supported_kind (t : string) : bool :=
  ((t =? "fixed") || (t =? "uniform") || (t =? "normal") || (t =? "jeffreys")
   || (t =? "beta") || (t =? "exponential"))%string.

(** Modelled from the spec: the check [utils.readpriors] makes before
    sampling starts; a registry it refuses aborts the run at setup. *)
Definition readpriors_accepts (registry : dict pinfo) : bool :=
  forallb (fun e => supported_kind (ptype (snd e))) registry.

(** The number of free parameters, [n_params]. *)
Definition count_free (registry : dict pinfo) : nat :=
  List.length (filter (fun e => negb (ptype (snd e) =? "fixed")%string) registry).

(* ================================================================= *)
(** * Constants and pure pieces of [loglike] *)

(** The value returned for an infeasible sample. *)
Definition floor_value : R := -1e101.

(** Line 640. *)
Definition G : R := 6.67408e-11.

(** Line 643. *)
Definition ecclim : R := 0.95.

(** Line 146. *)
Definition Ar (pl pu : R) : R := (pu - pl) / (2 + pl + pu).

(** [x**(1./3.)] for a float [x >= 0]. *)
Definition cube_root (x : R) : R :=
  if Req_dec_T x 0 then 0 else Rpower x (1 / 3).

(** Lines 691 and 707. *)
Definition a_from_rho (rho P : R) : R :=
  cube_root ((rho * G * ((P * 24 * 3600) ^ 2)) / (3 * PI)).

(** Lines 692-697: (r1, r2) to (b, p). *)
Definition bp_from_r (pl pu r1 r2 : R) : R * R :=
  if r1 >? Ar pl pu then
    ((1 + pl) * (1 + (r1 - 1) / (1 - Ar pl pu)),
     (1 - r2) * pl + r2 * pu)
  else
    ((1 + pl) + sqrt (r1 / Ar pl pu) * r2 * (pu - pl),
     pu + (pl - pu) * sqrt (r1 / Ar pl pu) * (1 - r2)).

(** Lines 532-544.  An unknown law leaves [coeff1] unbound: an exception. *)
Definition reverse_ld_coeffs (ld_law : string) (q1 q2 : R) : option (R * R) :=
  if (ld_law =? "quadratic")%string then
    Some (2 * sqrt q1 * q2, sqrt q1 * (1 - 2 * q2))
  else if (ld_law =? "squareroot")%string then
    Some (sqrt q1 * (1 - 2 * q2), 2 * sqrt q1 * q2)
  else if (ld_law =? "logarithmic")%string then
    Some (1 - sqrt q1 * q2, 1 - sqrt q1)
  else if (ld_law =? "linear")%string then
    Some (q1, q2)
  else None.

(** [np.zeros(n)] *)
Definition zeros (n : nat) : array := repeat 0 n.

(** Setup, lines 379, 402 and 430: the vector allocated for the GP of a
    photometric instrument with [nX] external parameters. *)
Definition lc_GPVector_init (kernel : gp_kernel) (nX : nat) : array :=
  match kernel with
  | CeleriteQPKernel => zeros 5
  | ExpSineSquaredSEKernel => zeros 5
  | SEKernel => zeros (nX + 2)
  end.

(** Setup, lines 464-524: the vector allocated for the radial-velocity GP;
    setup exits on [SEKernel]. *)
Definition rv_GPVector_init (kernel : gp_kernel) : option array :=
  match kernel with
  | SEKernel => None
  | CeleriteQPKernel => Some (zeros 5)
  | ExpSineSquaredSEKernel => Some (zeros 4)
  end.

(** A dictionary keyed by planet number. *)
Fixpoint get_nat {V} (d : list (nat * V)) (k : nat) : option V :=
  match d with
  | [] => None
  | (k', v) :: d' => if Nat.eqb k' k then Some v else get_nat d' k
  end.

(** Setup, lines 276-298: the tag of planet [i]. *)
Definition detect_ecc_parametrization (registry : dict pinfo) (i : nat) : nat :=
  if Dict.mem registry ("ecosomega_p" ++ Num.str i) then 1%nat
  else if Dict.mem registry ("secosomega_p" ++ Num.str i) then 2%nat
  else 0%nat.

(** The current value of a parameter, if it is registered. *)
Definition cvalue_in (s : store) (name : string) : option R :=
  option_map cvalue (Dict.get (priors s) name).

(** The locals of [loglike] that outlive the statement assigning them. *)
Record locals : Type := mk_locals {
  lcmodel : option array;
  loc_a : option R;
  loc_P : option R
}.

(* ================================================================= *)
(** * [loglike] (juliet.py, lines 645-888) *)

Section Loglike.

Variable cfg : config.
Variable orc : oracles.

(** [priors[name]['cvalue']] *)
Definition cvalue_of (name : string) : M R :=
  s <- get_store ;;
  of_option (cvalue_in s name).

(** [lc_dictionary[instrument]] *)
Definition lc_entry_of (instrument : string) : M lc_entry :=
  s <- get_store ;;
  of_option (Dict.get (lc_dictionary s) instrument).

Definition set_lc_entry (instrument : string) (e : lc_entry) : M unit :=
  modify (fun s =>
            with_lc_dictionary s (Dict.set (lc_dictionary s) instrument e)).

(** [radvel_params[key] = radvel.Parameter(value=v)] *)
Definition set_radvel (key : string) (v : R) : M unit :=
  modify (fun s => with_radvel_params s (Dict.set (radvel_params s) key v)).

(** Lines 647-651: walk [priors.keys()], the free ones take the cube's
    entries in order. *)
Fixpoint assign_loop (cube : list R) (pcounter : nat) (entries : dict pinfo)
  : outcome unit * dict pinfo :=
  match entries with
  | [] => (Next tt, [])
  | (pname, pi) :: rest =>
      if negb (ptype pi =? "fixed")%string then
        match nth_error cube pcounter with
        | None => (Raise, (pname, pi) :: rest)
        | Some v =>
            let (o, rest') := assign_loop cube (S pcounter) rest in
            (o, (pname, with_cvalue pi v) :: rest')
        end
      else
        let (o, rest') := assign_loop cube pcounter rest in
        (o, (pname, pi) :: rest')
  end.

Definition assign_cvalues (cube : list R) : M unit :=
  fun s =>
    let (o, p) := assign_loop cube 0 (priors s) in (o, with_priors s p).

(** Lines 657-667 and 792-802: the period-ordering loop, [cP] its local.
    [numbering] is [numbering_transit] or [numbering_rv], whose length is
    [n_transit] or [n_rv]. *)
Definition period_step (n i : nat) (cP : R) : M R :=
  P_i <- cvalue_of ("P_p" ++ Num.str i) ;;
  cP' <- (if Nat.eqb n 0 then ret P_i
          else if cP <? P_i then ret P_i
          else return_ floor_value) ;;
  if cP' <? 0 then return_ floor_value else ret cP'.

Definition period_gate (numbering : list nat) : M unit :=
  for_range numbering 0 0 period_step ;;; ret tt.

(** Lines 675-680: the limb-darkening coefficients of the instrument. *)
Definition set_limb_darkening (instrument : string) : M unit :=
  e <- lc_entry_of instrument ;;
  u <- (if negb (ldlaw e =? "linear")%string then
          q1 <- cvalue_of ("q1_" ++ instrument) ;;
          q2 <- cvalue_of ("q2_" ++ instrument) ;;
          c <- of_option (reverse_ld_coeffs (ldlaw e) q1 q2) ;;
          ret [fst c; snd c]
        else
          q1 <- cvalue_of ("q1_" ++ instrument) ;;
          ret [q1]) ;;
  set_lc_entry instrument (with_params e (with_u (params e) u)).

(** Lines 682-707: [(a, b, p, t0, P)] of planet [i]. *)
Definition planet_geometry (i : nat) : M (R * R * R * R * R) :=
  let sfx := Num.str i in
  if efficient_bp cfg then
    arP <- (if negb (fitrho cfg) then
              a <- cvalue_of ("a_p" ++ sfx) ;;
              r1 <- cvalue_of ("r1_p" ++ sfx) ;;
              r2 <- cvalue_of ("r2_p" ++ sfx) ;;
              t0 <- cvalue_of ("t0_p" ++ sfx) ;;
              P <- cvalue_of ("P_p" ++ sfx) ;;
              ret (a, r1, r2, t0, P)
            else
              rho <- cvalue_of "rho" ;;
              r1 <- cvalue_of ("r1_p" ++ sfx) ;;
              r2 <- cvalue_of ("r2_p" ++ sfx) ;;
              t0 <- cvalue_of ("t0_p" ++ sfx) ;;
              P <- cvalue_of ("P_p" ++ sfx) ;;
              ret (a_from_rho rho P, r1, r2, t0, P)) ;;
    let '(a, r1, r2, t0, P) := arP in
    let bp := bp_from_r (pl cfg) (pu cfg) r1 r2 in
    ret (a, fst bp, snd bp, t0, P)
  else
    if negb (fitrho cfg) then
      a <- cvalue_of ("a_p" ++ sfx) ;;
      b <- cvalue_of ("b_p" ++ sfx) ;;
      p <- cvalue_of ("p_p" ++ sfx) ;;
      t0 <- cvalue_of ("t0_p" ++ sfx) ;;
      P <- cvalue_of ("P_p" ++ sfx) ;;
      ret (a, b, p, t0, P)
    else
      rho <- cvalue_of "rho" ;;
      b <- cvalue_of ("b_p" ++ sfx) ;;
      p <- cvalue_of ("p_p" ++ sfx) ;;
      t0 <- cvalue_of ("t0_p" ++ sfx) ;;
      P <- cvalue_of ("P_p" ++ sfx) ;;
      ret (a_from_rho rho P, b, p, t0, P).

(** Lines 708-715: [(ecc, omega)] for the transit model, [omega] in degrees. *)
Definition resolve_ecc_transit (i : nat) : M (R * R) :=
  let sfx := Num.str i in
  tag <- of_option (get_nat (ecc_parametrization_transit cfg) i) ;;
  if Nat.eqb tag 0 then
    ecc <- cvalue_of ("ecc_p" ++ sfx) ;;
    omega <- cvalue_of ("omega_p" ++ sfx) ;;
    ret (ecc, omega)
  else if Nat.eqb tag 1 then
    ecosomega <- cvalue_of ("ecosomega_p" ++ sfx) ;;
    esinomega <- cvalue_of ("esinomega_p" ++ sfx) ;;
    ret (sqrt (ecosomega ^ 2 + esinomega ^ 2),
         Num.arctan2 esinomega ecosomega * 180 / PI)
  else
    secosomega <- cvalue_of ("secosomega_p" ++ sfx) ;;
    sesinomega <- cvalue_of ("sesinomega_p" ++ sfx) ;;
    ret (secosomega ^ 2 + sesinomega ^ 2,
         Num.arctan2 sesinomega secosomega * 180 / PI).

(** Lines 813-820: [(ecc, omega)] for radvel, [omega] in radians. *)
Definition resolve_ecc_rv (i : nat) : M (R * R) :=
  let sfx := Num.str i in
  tag <- of_option (get_nat (ecc_parametrization_rv cfg) i) ;;
  if Nat.eqb tag 0 then
    ecc <- cvalue_of ("ecc_p" ++ sfx) ;;
    omega <- cvalue_of ("omega_p" ++ sfx) ;;
    ret (ecc, omega * PI / 180)
  else if Nat.eqb tag 1 then
    ecosomega <- cvalue_of ("ecosomega_p" ++ sfx) ;;
    esinomega <- cvalue_of ("esinomega_p" ++ sfx) ;;
    ret (sqrt (ecosomega ^ 2 + esinomega ^ 2),
         Num.arctan2 esinomega ecosomega)
  else
    secosomega <- cvalue_of ("secosomega_p" ++ sfx) ;;
    sesinomega <- cvalue_of ("sesinomega_p" ++ sfx) ;;
    ret (secosomega ^ 2 + sesinomega ^ 2,
         Num.arctan2 sesinomega secosomega).

(** Line 731: multiply the instrument's slice of [lcmodel] by the light
    curve of the planet. *)
Definition multiply_lcmodel (instrument : string) (tp : TransitParams)
           (model : array) : M array :=
  idx <- of_option (Dict.get (instrument_indexes_lc cfg) instrument) ;;
  slice <- of_option (Array.gather idx model) ;;
  curve <- of_option (light_curve orc instrument tp) ;;
  prod <- of_option (Array.zip_with Rmult slice curve) ;;
  of_option (Array.scatter idx prod model).

(** Lines 720-734: the inclination, the geometric gate, and the call of
    the transit model.  For [a = 0] or [ecc ^ 2 = 1] the code divides by
    zero and goes on with an infinity or a not-a-number, which are outside
    the model; what is proved of the gate is stated for [a <> 0] and
    [ecc ^ 2 <> 1]. *)
Definition inclination_step (instrument : string)
           (a b p t0 P ecc omega : R) (model : array) : M array :=
  let ecc_factor := (1 + ecc * sin (omega * PI / 180)) / (1 - ecc ^ 2) in
  let inc_inv_factor := (b / a) * ecc_factor in
  if negb ((b >? 1 + p) || (inc_inv_factor >=? 1)) then
    let inc := acos inc_inv_factor * 180 / PI in
    e <- lc_entry_of instrument ;;
    let tp := with_orbit (params e) t0 P p a inc ecc omega in
    set_lc_entry instrument (with_params e tp) ;;;
    multiply_lcmodel instrument tp model
  else return_ floor_value.

(** Lines 717-719: the eccentricity gate of the transit model. *)
Definition transit_model_step (instrument : string)
           (a b p t0 P ecc omega : R) (model : array) : M array :=
  if ecc >? ecclim then return_ floor_value
  else inclination_step instrument a b p t0 P ecc omega model.

(** Lines 673-734: one planet of one instrument. *)
Definition transit_planet (instrument : string) (n i : nat) (loc : locals)
  : M locals :=
  set_limb_darkening instrument ;;;
  g <- planet_geometry i ;;
  let '(a, b, p, t0, P) := g in
  eo <- resolve_ecc_transit i ;;
  model <- of_option (lcmodel loc) ;;
  model' <- transit_model_step instrument a b p t0 P (fst eo) (snd eo) model ;;
  ret {| lcmodel := Some model'; loc_a := Some a; loc_P := Some P |}.

(** Lines 654-734. *)
Definition photometric_section (loc : locals) : M locals :=
  if lcfilename cfg then
    period_gate (numbering_transit cfg) ;;;
    for_each (inames_lc cfg)
             {| lcmodel := Some (lcones cfg);
                loc_a := loc_a loc; loc_P := loc_P loc |}
             (fun instrument loc1 =>
                for_range (numbering_transit cfg) 0 loc1
                          (transit_planet instrument))
  else ret loc.

(** [GPVector[k] = v] on the vector of a photometric instrument. *)
Definition set_lc_GPVector (instrument : string) (k : nat) (v : R) : M unit :=
  e <- lc_entry_of instrument ;;
  vec <- of_option (Array.set_nth k v (GPVector e)) ;;
  set_lc_entry instrument (with_GPVector e vec).

(** [priors[prefix + lc_dictionary[instrument][role]]['cvalue']] *)
Definition lc_hyper (instrument prefix role : string) : M R :=
  e <- lc_entry_of instrument ;;
  group <- of_option (Dict.get (GP_group e) role) ;;
  cvalue_of (prefix ++ group).

(** Lines 749-779: marshal the hyperparameters of a photometric GP. *)
Definition marshal_lc_GPVector (instrument : string) : M unit :=
  e <- lc_entry_of instrument ;;
  match GPType e with
  | SEKernel =>
      sigma_w <- cvalue_of ("sigma_w_" ++ instrument) ;;
      set_lc_GPVector instrument 0 (ln ((sigma_w * 1e-6) ^ 2)) ;;;
      GP_sigma <- lc_hyper instrument "GP_sigma_" "GP_sigma" ;;
      set_lc_GPVector instrument 1 (ln ((GP_sigma * 1e-6) ^ 2)) ;;;
      for_each (seq 0 (nX e)) tt
               (fun i _ =>
                  alpha <- lc_hyper instrument
                                    ("GP_alpha" ++ Num.str i ++ "_")
                                    ("GP_alpha" ++ Num.str i) ;;
                  set_lc_GPVector instrument (2 + i) (ln (1 / alpha)))
  | ExpSineSquaredSEKernel =>
      sigma_w <- cvalue_of ("sigma_w_" ++ instrument) ;;
      set_lc_GPVector instrument 0 (ln ((sigma_w * 1e-6) ^ 2)) ;;;
      GP_sigma <- lc_hyper instrument "GP_sigma_" "GP_sigma" ;;
      set_lc_GPVector instrument 1 (ln ((GP_sigma * 1e-6) ^ 2)) ;;;
      GP_alpha <- lc_hyper instrument "GP_alpha_" "GP_alpha" ;;
      set_lc_GPVector instrument 2 (ln (1 / GP_alpha)) ;;;
      GP_Gamma <- lc_hyper instrument "GP_Gamma_" "GP_Gamma" ;;
      set_lc_GPVector instrument 3 GP_Gamma ;;;
      GP_Prot <- lc_hyper instrument "GP_Prot_" "GP_Prot" ;;
      set_lc_GPVector instrument 4 (ln GP_Prot)
  | CeleriteQPKernel =>
      GP_B <- lc_hyper instrument "GP_B_" "GP_B" ;;
      set_lc_GPVector instrument 0 (ln GP_B) ;;;
      GP_L <- lc_hyper instrument "GP_L_" "GP_L" ;;
      set_lc_GPVector instrument 1 (ln GP_L) ;;;
      GP_Prot <- lc_hyper instrument "GP_Prot_" "GP_Prot" ;;
      set_lc_GPVector instrument 2 (ln GP_Prot) ;;;
      GP_C <- lc_hyper instrument "GP_C_" "GP_C" ;;
      set_lc_GPVector instrument 3 (ln GP_C) ;;;
      sigma_w <- cvalue_of ("sigma_w_" ++ instrument) ;;
      set_lc_GPVector instrument 4 (ln (sigma_w * 1e-6))
  end.

(** Lines 737-781: the contribution of one photometric instrument. *)
Definition lc_instrument_likelihood (loc : locals) (instrument : string)
           (log_likelihood : R) : M R :=
  idx <- of_option (Dict.get (instrument_indexes_lc cfg) instrument) ;;
  model <- of_option (lcmodel loc) ;;
  slice <- of_option (Array.gather idx model) ;;
  mdilution <- cvalue_of ("mdilution_" ++ instrument) ;;
  mflux <- cvalue_of ("mflux_" ++ instrument) ;;
  let inst_model := map (fun m => m * mdilution + mflux) slice in
  flux <- of_option (Array.gather idx (f_lc cfg)) ;;
  residuals <- of_option (Array.zip_with Rminus flux inst_model) ;;
  e <- lc_entry_of instrument ;;
  if negb (GPDetrend e) then
    errors <- of_option (Array.gather idx (ferr_lc cfg)) ;;
    sigma_w <- cvalue_of ("sigma_w_" ++ instrument) ;;
    ll <- of_option (gaussian_log_likelihood residuals errors
                                             (sigma_w * 1e-6)) ;;
    ret (log_likelihood + ll)
  else
    marshal_lc_GPVector instrument ;;;
    e' <- lc_entry_of instrument ;;
    ll <- of_option (lc_gp_log_likelihood orc instrument (GPVector e')
                                          residuals) ;;
    ret (log_likelihood + ll).

(** Lines 784-786: the stellar-density term. *)
Definition stellar_density_term (loc : locals) (log_likelihood : R) : M R :=
  if stellar_density cfg && negb (fitrho cfg) then
    P <- of_option (loc_P loc) ;;
    a <- of_option (loc_a loc) ;;
    let model := ((3 * PI) / (G * (P * (24 * 3600)) ^ 2)) * a ^ 3 in
    ret (log_likelihood
         + - 0.5 * (ln (2 * PI) + 2 * ln (sd_sigma cfg)
                    + ((model - sd_mean cfg) / sd_sigma cfg) ^ 2))
  else ret log_likelihood.

(** Lines 807-829: one planet of the radial-velocity model; [n] numbers
    the planet for radvel, [i] is its number in the prior file. *)
Definition rv_planet (n i : nat) (_ : unit) : M unit :=
  let sfx := Num.str i in
  K <- cvalue_of ("K_p" ++ sfx) ;;
  t0 <- cvalue_of ("t0_p" ++ sfx) ;;
  P <- cvalue_of ("P_p" ++ sfx) ;;
  eo <- resolve_ecc_rv i ;;
  let '(ecc, omega) := eo in
  if ecc >? 1 then return_ floor_value
  else
    let k := Num.str (n + 1) in
    set_radvel ("per" ++ k) P ;;;
    set_radvel ("tc" ++ k) t0 ;;;
    set_radvel ("w" ++ k) omega ;;;
    set_radvel ("e" ++ k) ecc ;;;
    set_radvel ("k" ++ k) K.

(** Lines 789-831. *)
Definition rv_section : M (option array) :=
  if rvfilename cfg then
    period_gate (numbering_rv cfg) ;;;
    for_range (numbering_rv cfg) 0 tt rv_planet ;;;
    s <- get_store ;;
    rvmodel <- of_option (RVModel orc (radvel_params s) (t_rv cfg)) ;;
    ret (Some rvmodel)
  else ret None.

(** Lines 834-846: the linear or quadratic trend. *)
Definition rv_trend (rvmodel : option array) : M (option array) :=
  rvmodel1 <- (if fitrvline cfg then
                 aline <- cvalue_of "rv_slope" ;;
                 rv_tzero <- cvalue_of "rv_tzero" ;;
                 let bline := - rv_tzero * aline in
                 m <- of_option rvmodel ;;
                 m' <- of_option
                         (Array.zip_with Rplus m
                            (map (fun t => aline * t + bline) (t_rv cfg))) ;;
                 ret (Some m')
               else ret rvmodel) ;;
  if fitrvquad cfg then
    qquad <- cvalue_of "rv_quad" ;;
    aline <- cvalue_of "rv_slope" ;;
    rv_tzero <- cvalue_of "rv_tzero" ;;
    let bline := - rv_tzero * aline - (rv_tzero ^ 2) * qquad in
    m <- of_option rvmodel1 ;;
    m' <- of_option
            (Array.zip_with Rplus m
               (map (fun t => qquad * (t ^ 2) + aline * t + bline)
                    (t_rv cfg))) ;;
    ret (Some m')
  else ret rvmodel1.

(** Lines 849-861: one radial-velocity instrument. *)
Definition rv_instrument_likelihood (rvmodel : option array)
           (instrument : string) (log_likelihood : R) : M R :=
  idx <- of_option (Dict.get (instrument_indexes_rv cfg) instrument) ;;
  data <- of_option (Array.gather idx (rv_rv cfg)) ;;
  m <- of_option rvmodel ;;
  slice <- of_option (Array.gather idx m) ;;
  mu <- cvalue_of ("mu_" ++ instrument) ;;
  residuals <- of_option
                 (Array.zip_with Rminus data (map (fun v => v + mu) slice)) ;;
  if negb (rveparamfile cfg) then
    errors <- of_option (Array.gather idx (rverr_rv cfg)) ;;
    sigma_w_rv <- cvalue_of ("sigma_w_rv_" ++ instrument) ;;
    ll <- of_option (gaussian_log_likelihood residuals errors sigma_w_rv) ;;
    ret (log_likelihood + ll)
  else
    s <- get_store ;;
    res <- of_option (Array.scatter idx residuals (rvresiduals s)) ;;
    modify (fun s => with_rvresiduals s res) ;;;
    errors <- of_option (Array.gather idx (rverr_rv cfg)) ;;
    sigma_w_rv <- cvalue_of ("sigma_w_rv_" ++ instrument) ;;
    s' <- get_store ;;
    err <- of_option
             (Array.scatter idx
                (map (fun e => sqrt (e ^ 2 + sigma_w_rv ^ 2)) errors)
                (rvresiduals_err s')) ;;
    modify (fun s => with_rvresiduals_err s err) ;;;
    ret log_likelihood.

(** [rv_dictionary['GPVector'][k] = v] *)
Definition set_rv_GPVector (k : nat) (v : R) : M unit :=
  s <- get_store ;;
  vec <- of_option (Array.set_nth k v (rv_GPVector (rv_dictionary s))) ;;
  modify (fun s => with_rv_dictionary s
                     (with_rv_GPVector (rv_dictionary s) vec)).

(** [priors[prefix + rv_dictionary[role]]['cvalue']] *)
Definition rv_hyper (prefix role : string) : M R :=
  s <- get_store ;;
  group <- of_option (Dict.get (rv_GP_group (rv_dictionary s)) role) ;;
  cvalue_of (prefix ++ group).

(** Lines 863-881: marshal the hyperparameters of the RV GP. *)
Definition marshal_rv_GPVector : M unit :=
  s <- get_store ;;
  match rv_GPType (rv_dictionary s) with
  | SEKernel => ret tt
  | ExpSineSquaredSEKernel =>
      GP_sigma <- rv_hyper "GP_sigma_" "GP_sigma" ;;
      set_rv_GPVector 0 (ln (GP_sigma ^ 2)) ;;;
      GP_alpha <- rv_hyper "GP_alpha_" "GP_alpha" ;;
      set_rv_GPVector 1 (ln (1 / GP_alpha)) ;;;
      GP_Gamma <- rv_hyper "GP_Gamma_" "GP_Gamma" ;;
      set_rv_GPVector 2 GP_Gamma ;;;
      GP_Prot <- rv_hyper "GP_Prot_" "GP_Prot" ;;
      set_rv_GPVector 3 (ln GP_Prot)
  | CeleriteQPKernel =>
      GP_B <- rv_hyper "GP_B_" "GP_B" ;;
      set_rv_GPVector 0 (ln GP_B) ;;;
      GP_L <- rv_hyper "GP_L_" "GP_L" ;;
      set_rv_GPVector 1 (ln GP_L) ;;;
      GP_Prot <- rv_hyper "GP_Prot_" "GP_Prot" ;;
      set_rv_GPVector 2 (ln GP_Prot) ;;;
      GP_C <- rv_hyper "GP_C_" "GP_C" ;;
      set_rv_GPVector 3 (ln GP_C)
  end.

(** Lines 862-885: the joint GP likelihood of the radial velocities. *)
Definition rv_gp_term (log_likelihood : R) : M R :=
  if rveparamfile cfg then
    marshal_rv_GPVector ;;;
    s <- get_store ;;
    ll <- of_option (rv_gp_log_likelihood orc
                       (rv_GPVector (rv_dictionary s))
                       (rvresiduals_err s) (rvresiduals s)) ;;
    ret (log_likelihood + ll)
  else ret log_likelihood.

(** Lines 647-786: the assignment of the sample and the photometric
    terms; the value is [log_likelihood] so far. *)
Definition photometric_part (cube : list R) : M R :=
  assign_cvalues cube ;;;
  loc <- photometric_section
           {| lcmodel := None; loc_a := None; loc_P := None |} ;;
  ll1 <- for_each (inames_lc cfg) 0 (lc_instrument_likelihood loc) ;;
  stellar_density_term loc ll1.

(** Lines 788-888: the radial-velocity terms and [return log_likelihood]. *)
Definition rv_part (log_likelihood : R) : M unit :=
  rvmodel <- rv_section ;;
  rvmodel' <- rv_trend rvmodel ;;
  ll3 <- for_each (inames_rv cfg) log_likelihood
                  (rv_instrument_likelihood rvmodel') ;;
  ll4 <- rv_gp_term ll3 ;;
  return_ ll4.

(** The body of [loglike]. *)
Definition loglike_body (cube : list R) : M unit :=
  ll2 <- photometric_part cube ;;
  rv_part ll2.

(** One call [loglike(cube)]: the float returned ([None] for an
    exception) and the module-level objects it leaves behind. *)
Definition loglike (cube : list R) (s : store) : option R * store :=
  match loglike_body cube s with
  | (Return v, s') => (Some v, s')
  | (_, s') => (None, s')
  end.

End Loglike.


(* ================================================================= *)
(** * Sample runs

    Small, fully concrete configurations on which the definitions above
    are evaluated.  The external models are replaced by the simplest
    data-independent answers: a flat out-of-transit light curve, a zero
    radial-velocity curve, a zero GP log-likelihood. *)

Module Sample.

Definition flat_oracles : oracles :=
  {| light_curve := fun _ _ => Some [1];
     RVModel := fun _ t => Some (map (fun _ => 0) t);
     lc_gp_log_likelihood := fun _ _ _ => Some 0;
     rv_gp_log_likelihood := fun _ _ _ => Some 0 |}.

(** Modelled from the spec: the transforms of [utils], which is not among
    the sources.  Section 4.1 gives uniform as [lo + u (hi - lo)],
    log-uniform as [exp(log lo + u (log hi - log lo))] and exponential as
    [- scale log(1 - u)], which [transform_prior] calls without a scale.
    The inverse distribution functions of the normal and beta kinds have
    no closed form and are arguments. *)
Definition spec_transforms (normal_ppf beta_ppf : R -> R -> R -> R)
  : utils_transforms :=
  {| transform_uniform := fun u lo hi => lo + u * (hi - lo);
     transform_normal := normal_ppf;
     transform_loguniform :=
       fun u lo hi => exp (ln lo + u * (ln hi - ln lo));
     transform_beta := beta_ppf;
     transform_exponential := fun u => - ln (1 - u) |}.

(** The samples register no normal or beta prior. *)
Definition utils : utils_transforms :=
  spec_transforms (fun u _ _ => u) (fun u _ _ => u).

Definition fixed (v : R) : pinfo :=
  {| ptype := "fixed"; value := [v]; cvalue := v |}.

Definition free (kind : string) (v0 v1 : R) : pinfo :=
  {| ptype := kind; value := [v0; v1]; cvalue := 0 |}.

Definition no_params : TransitParams :=
  {| tp_t0 := 0; tp_per := 1; tp_rp := 0.1; tp_a := 15; tp_inc := 87;
     tp_ecc := 0; tp_w := 90; tp_u := [0.1; 0.3] |}.

Definition no_rv : rv_entry :=
  {| rv_GPType := SEKernel; rv_GP_group := []; rv_GPVector := [] |}.

(** One transiting planet observed once by one instrument; the period and
    the eccentricity are the free parameters, in this order. *)
Definition transit_registry : dict pinfo :=
  [ ("P_p1", free "uniform" 0 10);
    ("t0_p1", fixed 2);
    ("a_p1", fixed 12);
    ("b_p1", fixed 0);
    ("p_p1", fixed 0.1);
    ("ecc_p1", free "uniform" 0 1);
    ("omega_p1", fixed 0);
    ("q1_TESS", fixed 0.25);
    ("q2_TESS", fixed 0.5);
    ("mdilution_TESS", fixed 1);
    ("mflux_TESS", fixed 0);
    ("sigma_w_TESS", fixed 0) ]%string.

Definition transit_store : store :=
  {| priors := transit_registry;
     lc_dictionary :=
       [ ("TESS"%string,
          {| ldlaw := "quadratic"; GPDetrend := false; GPType := SEKernel;
             nX := 0; GP_group := []; GPVector := [];
             params := no_params |}) ];
     rv_dictionary := no_rv;
     radvel_params := [];
     rvresiduals := [];
     rvresiduals_err := [] |}.

Definition transit_config : config :=
  {| use_dynesty := true;
     lcfilename := true; rvfilename := false; rveparamfile := false;
     numbering_transit := [1%nat]; numbering_rv := [];
     inames_lc := ["TESS"%string]; inames_rv := [];
     instrument_indexes_lc := [("TESS"%string, [0%nat])];
     instrument_indexes_rv := [];
     f_lc := [1]; ferr_lc := [0.001]; lcones := [1];
     t_rv := []; rv_rv := []; rverr_rv := [];
     efficient_bp := false; pl := 0; pu := 1;
     fitrho := false; stellar_density := false; sd_mean := 0; sd_sigma := 1;
     fitrvline := false; fitrvquad := false;
     ecc_parametrization_transit :=
       [(1%nat, detect_ecc_parametrization transit_registry 1)];
     ecc_parametrization_rv := [] |}.

(** Three transiting planets whose periods are the free parameters. *)
Definition three_planet_registry : dict pinfo :=
  [ ("P_p1", free "uniform" 0 20);
    ("P_p2", free "uniform" 0 20);
    ("P_p3", free "uniform" 0 20) ]%string.

Definition three_planet_store : store :=
  {| priors := three_planet_registry;
     lc_dictionary := [];
     rv_dictionary := no_rv;
     radvel_params := [];
     rvresiduals := [];
     rvresiduals_err := [] |}.

Definition three_planet_config : config :=
  {| use_dynesty := true;
     lcfilename := true; rvfilename := false; rveparamfile := false;
     numbering_transit := [1; 2; 3]%nat; numbering_rv := [];
     inames_lc := ["TESS"%string]; inames_rv := [];
     instrument_indexes_lc := [("TESS"%string, [0%nat])];
     instrument_indexes_rv := [];
     f_lc := [1]; ferr_lc := [0.001]; lcones := [1];
     t_rv := []; rv_rv := []; rverr_rv := [];
     efficient_bp := false; pl := 0; pu := 1;
     fitrho := false; stellar_density := false; sd_mean := 0; sd_sigma := 1;
     fitrvline := false; fitrvquad := false;
     ecc_parametrization_transit := [];
     ecc_parametrization_rv := [] |}.

(** A planet sampled in (r1, r2) with the (e cos w, e sin w)
    parametrization. *)
Definition efficient_registry : dict pinfo :=
  [ ("P_p1", fixed 3);
    ("t0_p1", fixed 2);
    ("a_p1", fixed 12);
    ("r1_p1", fixed 0.5);
    ("r2_p1", fixed 0.25);
    ("ecosomega_p1", fixed 0.3);
    ("esinomega_p1", fixed 0.4) ]%string.

Definition efficient_store : store :=
  {| priors := efficient_registry;
     lc_dictionary := [];
     rv_dictionary := no_rv;
     radvel_params := [];
     rvresiduals := [];
     rvresiduals_err := [] |}.

Definition efficient_config : config :=
  {| use_dynesty := true;
     lcfilename := true; rvfilename := true; rveparamfile := false;
     numbering_transit := [1%nat]; numbering_rv := [1%nat];
     inames_lc := []; inames_rv := [];
     instrument_indexes_lc := []; instrument_indexes_rv := [];
     f_lc := []; ferr_lc := []; lcones := [];
     t_rv := []; rv_rv := []; rverr_rv := [];
     efficient_bp := true; pl := 0; pu := 1;
     fitrho := false; stellar_density := false; sd_mean := 0; sd_sigma := 1;
     fitrvline := false; fitrvquad := false;
     ecc_parametrization_transit :=
       [(1%nat, detect_ecc_parametrization efficient_registry 1)];
     ecc_parametrization_rv :=
       [(1%nat, detect_ecc_parametrization efficient_registry 1)] |}.

(** A photometric instrument and the radial velocities, each with a
    celerite quasi-periodic GP: B = 2, L = 5, Prot = 3, C = 1, and a
    photometric jitter of 100 ppm. *)
Definition celerite_registry : dict pinfo :=
  [ ("GP_B_TESS", fixed 2);
    ("GP_L_TESS", fixed 5);
    ("GP_Prot_TESS", fixed 3);
    ("GP_C_TESS", fixed 1);
    ("sigma_w_TESS", fixed 100);
    ("GP_B_rv", fixed 2);
    ("GP_L_rv", fixed 5);
    ("GP_Prot_rv", fixed 3);
    ("GP_C_rv", fixed 1) ]%string.

Definition celerite_store : store :=
  {| priors := celerite_registry;
     lc_dictionary :=
       [ ("TESS"%string,
          {| ldlaw := "quadratic"; GPDetrend := true;
             GPType := CeleriteQPKernel; nX := 1;
             GP_group := [ ("GP_B", "TESS"); ("GP_C", "TESS");
                           ("GP_L", "TESS"); ("GP_Prot", "TESS") ]%string;
             GPVector := lc_GPVector_init CeleriteQPKernel 1;
             params := no_params |}) ];
     rv_dictionary :=
       {| rv_GPType := CeleriteQPKernel;
          rv_GP_group := [ ("GP_B", "rv"); ("GP_C", "rv");
                           ("GP_L", "rv"); ("GP_Prot", "rv") ]%string;
          rv_GPVector :=
            match rv_GPVector_init CeleriteQPKernel with
            | Some v => v
            | None => []
            end |};
     radvel_params := [];
     rvresiduals := [];
     rvresiduals_err := [] |}.

(** Two planets seen in radial velocity by one instrument; the periods and
    the eccentricities are the free parameters. *)
Definition rv_registry : dict pinfo :=
  [ ("K_p1", fixed 10);
    ("t0_p1", fixed 2);
    ("P_p1", free "uniform" 0 20);
    ("ecc_p1", free "uniform" 0 2);
    ("omega_p1", fixed 90);
    ("K_p2", fixed 20);
    ("t0_p2", fixed 4);
    ("P_p2", free "uniform" 0 20);
    ("ecc_p2", free "uniform" 0 2);
    ("omega_p2", fixed 90);
    ("mu_HARPS", fixed 0);
    ("sigma_w_rv_HARPS", fixed 1) ]%string.

Definition rv_store : store :=
  {| priors := rv_registry;
     lc_dictionary := [];
     rv_dictionary := no_rv;
     radvel_params := [];
     rvresiduals := [0];
     rvresiduals_err := [0] |}.

Definition rv_config : config :=
  {| use_dynesty := true;
     lcfilename := false; rvfilename := true; rveparamfile := false;
     numbering_transit := []; numbering_rv := [1; 2]%nat;
     inames_lc := []; inames_rv := ["HARPS"%string];
     instrument_indexes_lc := [];
     instrument_indexes_rv := [("HARPS"%string, [0%nat])];
     f_lc := []; ferr_lc := []; lcones := [];
     t_rv := [1]; rv_rv := [0]; rverr_rv := [1];
     efficient_bp := false; pl := 0; pu := 1;
     fitrho := false; stellar_density := false; sd_mean := 0; sd_sigma := 1;
     fitrvline := false; fitrvquad := false;
     ecc_parametrization_transit := [];
     ecc_parametrization_rv :=
       [(1%nat, detect_ecc_parametrization rv_registry 1);
        (2%nat, detect_ecc_parametrization rv_registry 2)] |}.

End Sample.

(* ================================================================= *)
(** * Notions used to state the properties *)

(** The periods [ps] that the store holds for the planets of [numbering]. *)
Definition periods_of (s : store) (numbering : list nat) (ps : list R) : Prop :=
  Forall2 (fun i P => cvalue_in s ("P_p" ++ Num.str i) = Some P) numbering ps.

(** What the period loop lets through: each period strictly above the
    previous one, none negative. *)
Definition ordered_periods (ps : list R) : Prop :=
  Sorted Rlt ps /\ Forall (fun P => 0 <= P) ps.

(** The reading of the specification: each period at least the previous
    one, every period positive. *)
Definition spec_ordered_periods (ps : list R) : Prop :=
  Sorted Rle ps /\ Forall (fun P => 0 < P) ps.

(** A computation that leaves the [priors] dictionary as it found it. *)
Definition keeps_priors {A} (m : M A) : Prop :=
  forall s o s', m s = (o, s') -> priors s' = priors s.

(** [transform_prior] took the branch of one of the five kinds. *)
Definition dispatched (utils : utils_transforms) (u : R) (pi : pinfo) : Prop :=
  (ptype pi = "uniform"%string
   /\ transform_prior utils u pi
      = two_values pi (transform_uniform utils u))
  \/ (ptype pi = "normal"%string
      /\ transform_prior utils u pi
         = two_values pi (transform_normal utils u))
  \/ (ptype pi = "jeffreys"%string
      /\ transform_prior utils u pi
         = two_values pi (transform_loguniform utils u))
  \/ (ptype pi = "beta"%string
      /\ transform_prior utils u pi
         = two_values pi (transform_beta utils u))
  \/ (ptype pi = "exponential"%string
      /\ transform_prior utils u pi
         = Value (transform_exponential utils u)).

(** The five entries lines 825-829 write for the [n]-th RV planet. *)
Definition written_planet (d : dict R) (n : nat) (P t0 omega ecc K : R)
  : dict R :=
  let k := Num.str (n + 1) in
  Dict.set (Dict.set (Dict.set (Dict.set (Dict.set d ("per" ++ k) P)
                                         ("tc" ++ k) t0)
                               ("w" ++ k) omega)
                     ("e" ++ k) ecc)
           ("k" ++ k) K.

(** The inverse of [bp_from_r].  juliet.py never maps (b, p) back; the
    function is written here to state invertibility. *)
Definition r_from_bp (pl pu b p : R) : R * R :=
  if b <? 1 + pl then
    (1 + (b / (1 + pl) - 1) * (1 - Ar pl pu), (p - pl) / (pu - pl))
  else
    let s := ((b - (1 + pl)) + (pu - p)) / (pu - pl) in
    (Ar pl pu * s ^ 2, (b - (1 + pl)) / (s * (pu - pl))).

(** The store after [loglike] has assigned the sample: the free entries of
    the registry hold the cube's values in registry order. *)
Fixpoint assigned (cube : list R) (pcounter : nat) (entries : dict pinfo)
  : dict pinfo :=
  match entries with
  | [] => []
  | (pname, pi) :: rest =>
      if negb (ptype pi =? "fixed")%string then
        (pname, with_cvalue pi (nth pcounter cube 0))
          :: assigned cube (S pcounter) rest
      else (pname, pi) :: assigned cube pcounter rest
  end.

(* ================================================================= *)
(** * More of juliet.py: the celerite term, setup, the transit helper *)

(** Lines 32-51: [class RotationTerm].  [params] is unpacked into
    [log_amp, log_timescale, log_period, log_factor]; any other length is
    a [ValueError]. *)
Module RotationTerm.

Definition get_real_coefficients (params : list R) : option (R * R) :=
  match params with
  | [log_amp; log_timescale; log_period; log_factor] =>
      let f := exp log_factor in
      Some (exp log_amp * (1 + f) / (2 + f), exp (- log_timescale))
  | _ => None
  end.

Definition get_complex_coefficients (params : list R)
  : option (R * R * R * R) :=
  match params with
  | [log_amp; log_timescale; log_period; log_factor] =>
      let f := exp log_factor in
      Some (exp log_amp / (2 + f), 0, exp (- log_timescale),
            2 * PI * exp (- log_period))
  | _ => None
  end.

End RotationTerm.

(** Lines 252-261: which trend the RV model gets, as
    [(fitrvline, fitrvquad)]. *)
Definition detect_rv_trend (registry : dict pinfo) : bool * bool :=
  if Dict.mem registry "rv_slope" then
    if Dict.mem registry "rv_quad" then (false, true) else (true, false)
  else (false, false).

(** Lines 546-567: the attributes [init_batman] gives the transit model
    of an instrument; the model object itself is external. *)
Definition init_batman (law : string) : TransitParams :=
  {| tp_t0 := 0; tp_per := 1; tp_rp := 0.1; tp_a := 15; tp_inc := 87;
     tp_ecc := 0; tp_w := 90;
     tp_u := if (law =? "linear")%string then [0.5] else [0.1; 0.3] |}.

(** Line 785: the stellar density implied by [a] and [P]. *)
Definition rho_from_a (a P : R) : R :=
  ((3 * PI) / (G * (P * (24 * 3600)) ^ 2)) * a ^ 3.

(** Two states of the registry with the same parameters: same names in
    the same order, same kinds and distribution parameters, same values
    for the fixed ones. *)
Definition same_schema (p p' : dict pinfo) : Prop :=
  Forall2 (fun e e' =>
             fst e' = fst e
             /\ ptype (snd e') = ptype (snd e)
             /\ value (snd e') = value (snd e)
             /\ ((ptype (snd e) =? "fixed")%string = true ->
                 cvalue (snd e') = cvalue (snd e)))
          p p'.

(** The floats of the array [prior] hands to the sampler. *)
Definition floats (out : list cell) : list R :=
  map (fun c => match c with Some x => x | None => 0 end) out.

(** The registry in which every free parameter holds the transform of the
    cube entry of its own rank under its own prior. *)
Fixpoint transformed (utils : utils_transforms) (cube : list R)
         (pcounter : nat) (entries : dict pinfo) : dict pinfo :=
  match entries with
  | [] => []
  | (pname, pi) :: rest =>
      if negb (ptype pi =? "fixed")%string then
        (pname,
         with_cvalue pi (match transform_prior utils (nth pcounter cube 0) pi
                         with
                         | Value x => x
                         | _ => 0
                         end))
          :: transformed utils cube (S pcounter) rest
      else (pname, pi) :: transformed utils cube pcounter rest
  end.

(** A computation whose only [return] is the floor. *)
Definition returns_only_floor {A} (m : M A) : Prop :=
  forall s v s', m s = (Return v, s') -> v = floor_value.

(** The store in which the GP vector of a photometric instrument, whose
    entry is [e], has been replaced by [v]. *)
Definition with_lc_vector (s : store) (instrument : string) (e : lc_entry)
           (v : array) : store :=
  with_lc_dictionary
    s (Dict.set (lc_dictionary s) instrument (with_GPVector e v)).

(** The store in which the GP vector of the radial velocities has been
    replaced by [v]. *)
Definition with_rv_vector (s : store) (v : array) : store :=
  with_rv_dictionary s (with_rv_GPVector (rv_dictionary s) v).

(* ================================================================= *)
(** * Setup of the Gaussian processes (lines 319-526) *)

(** The methods of Python's [str] that the setup applies to the names of
    the priors.  Names are taken to be ASCII. *)
Module Str.

(** [s.split(sep)]: the fields between the occurrences of [sep]; never
    empty. *)
Fixpoint split (sep : ascii) (s : string) : list string :=
  match s with
  | EmptyString => [EmptyString]
  | String c rest =>
      if Ascii.eqb c sep then EmptyString :: split sep rest
      else match split sep rest with
           | w :: ws => String c w :: ws
           | [] => [String c EmptyString]
           end
  end.

(** [sep.join(parts)]. *)
Fixpoint join (sep : string) (parts : list string) : string :=
  match parts with
  | [] => EmptyString
  | [w] => w
  | w :: ws => (w ++ sep ++ join sep ws)%string
  end.

(** [p in s] on two strings: [p] occurs in [s]. *)
Fixpoint contains (p s : string) : bool :=
  String.prefix p s
  || match s with
     | EmptyString => false
     | String _ rest => contains p rest
     end.

(** [x in vec] on a list of strings. *)
Definition mem (x : string) (vec : list string) : bool :=
  existsb (String.eqb x) vec.

(** [s.lower()]. *)
Definition lower_char (c : ascii) : ascii :=
  let n := nat_of_ascii c in
  if ((65 <=? n) && (n <=? 90))%nat then ascii_of_nat (n + 32) else c.

Fixpoint lower (s : string) : string :=
  match s with
  | EmptyString => EmptyString
  | String c rest => String (lower_char c) (lower rest)
  end.

End Str.

(** [(instrument in vec)], the test of the photometric setup on the
    fields of a name. *)
Definition lc_group (instrument : string) (vec : list string) : bool :=
  Str.mem instrument vec.

(** [('rv' in vec[-1].lower())], the test of the radial-velocity setup. *)
Definition rv_group (vec : list string) : bool :=
  Str.contains "rv" (Str.lower (last vec EmptyString)).

(** [(vec[0] == 'GP') and (GPvariable in vec[1]) and <in_group>] on the
    fields of one name.  [and] evaluates from the left: a name without
    underscore is rejected on its first field, the name [GP] alone is the
    [IndexError] of [vec[1]] ([None]). *)
Definition gp_name_matches (in_group : list string -> bool)
           (GPvariable : string) (vec : list string) : option bool :=
  match vec with
  | v0 :: tail =>
      if (v0 =? "GP")%string then
        match tail with
        | v1 :: _ => Some (Str.contains GPvariable v1 && in_group vec)
        | [] => None
        end
      else Some false
  | [] => Some false
  end.

(** Lines 327-340 and 444-456: the kernel is that of the first name, in
    the order of the priors, that passes one of the three tests.  The
    outer [None] is an exception, the inner one a loop that ends without
    [break]. *)
Fixpoint detect_GPType (in_group : list string -> bool) (keys : list string)
  : option (option gp_kernel) :=
  match keys with
  | [] => Some None
  | pnames :: rest =>
      let vec := Str.split "_" pnames in
      match gp_name_matches in_group "alpha0" vec with
      | None => None
      | Some true => Some (Some SEKernel)
      | Some false =>
          match gp_name_matches in_group "Gamma" vec with
          | None => None
          | Some true => Some (Some ExpSineSquaredSEKernel)
          | Some false =>
              match gp_name_matches in_group "B" vec with
              | None => None
              | Some true => Some (Some CeleriteQPKernel)
              | Some false => detect_GPType in_group rest
              end
          end
      end
  end.

(** Lines 367-370 (and 384-387, 412-415, 483-486, 503-506): the inner loop
    over the names for one [GPvariable]; every matching name rebinds
    ['GP_' + GPvariable] to ['_'.join(vec[2:])]. *)
Fixpoint bind_GP_variable (in_group : list string -> bool)
         (GPvariable : string) (keys : list string) (group : dict string)
  : option (dict string) :=
  match keys with
  | [] => Some group
  | pnames :: rest =>
      let vec := Str.split "_" pnames in
      match gp_name_matches in_group GPvariable vec with
      | None => None
      | Some true =>
          bind_GP_variable in_group GPvariable rest
                           (Dict.set group ("GP_" ++ GPvariable)
                                     (Str.join "_" (skipn 2 vec)))
      | Some false => bind_GP_variable in_group GPvariable rest group
      end
  end.

(** The outer loop over the variables of the kernel. *)
Fixpoint bind_GP_variables (in_group : list string -> bool)
         (GPvariables : list string) (keys : list string)
         (group : dict string) : option (dict string) :=
  match GPvariables with
  | [] => Some group
  | GPvariable :: rest =>
      match bind_GP_variable in_group GPvariable keys group with
      | Some group' => bind_GP_variables in_group rest keys group'
      | None => None
      end
  end.

(** Lines 366, 383 and 408-410: the variables of each kernel. *)
Definition GPvariables_of (kernel : gp_kernel) (nX : nat) : list string :=
  match kernel with
  | CeleriteQPKernel => ["B"; "C"; "L"; "Prot"]%string
  | ExpSineSquaredSEKernel => ["sigma"; "alpha"; "Gamma"; "Prot"]%string
  | SEKernel =>
      "sigma"%string
        :: map (fun ialpha => ("alpha" ++ Num.str ialpha)%string) (seq 0 nX)
  end.

(** Lines 323-430 for one instrument of the external-parameter file, with
    [nX] columns: the kernel, the bindings and the vector.  The entry had
    no ['GPType'] before, so a registry without a characteristic name
    fails at line 341. *)
Definition setup_lc_GP (keys : list string) (instrument : string) (nX_ : nat)
           (e : lc_entry) : option lc_entry :=
  match detect_GPType (lc_group instrument) keys with
  | Some (Some kernel) =>
      match bind_GP_variables (lc_group instrument)
                              (GPvariables_of kernel nX_) keys (GP_group e)
      with
      | Some group =>
          Some {| ldlaw := ldlaw e; GPDetrend := true; GPType := kernel;
                  nX := nX_; GP_group := group;
                  GPVector := lc_GPVector_init kernel nX_;
                  params := params e |}
      | None => None
      end
  | _ => None
  end.

(** Lines 436-526: the same for the radial velocities; the squared
    exponential kernel ends the program (line 471) before any binding. *)
Definition setup_rv_GP (keys : list string) : option rv_entry :=
  match detect_GPType rv_group keys with
  | Some (Some kernel) =>
      match rv_GPVector_init kernel with
      | Some v =>
          match bind_GP_variables rv_group (GPvariables_of kernel 0) keys []
          with
          | Some group =>
              Some {| rv_GPType := kernel; rv_GP_group := group;
                      rv_GPVector := v |}
          | None => None
          end
      | None => None
      end
  | _ => None
  end.

(** Every name that passes the test for [GPvariable] has [GPvariable]
    itself as its second field, and a third field. *)
Definition exactly_named (in_group : list string -> bool)
           (GPvariable : string) (keys : list string) : bool :=
  forallb (fun pnames =>
             match Str.split "_" pnames with
             | v0 :: v1 :: rest =>
                 implb ((v0 =? "GP")%string
                        && Str.contains GPvariable v1
                        && in_group (v0 :: v1 :: rest))
                       ((v1 =? GPvariable)%string
                        && negb (match rest with [] => true | _ => false end))
             | _ => true
             end)
          keys.

(** Some name passes the test for [GPvariable]. *)
Definition some_name_matches (in_group : list string -> bool)
           (GPvariable : string) (keys : list string) : bool :=
  existsb (fun pnames =>
             match gp_name_matches in_group GPvariable
                                   (Str.split "_" pnames) with
             | Some true => true
             | _ => false
             end)
          keys.

(* ================================================================= *)
(** * Two stores that come from the same setup

    [loglike] leaves its intermediate results in the module-level objects:
    the sample in [priors], the attributes of the transit models, the GP
    vectors, the radvel parameters, the residuals.  The relations below
    relate two stores that may differ in what an evaluation overwrites
    before reading it, and in nothing else. *)

(** Two arrays of one length that agree outside the [pending] positions. *)
Definition agree_except (pending : nat -> Prop) (v1 v2 : array) : Prop :=
  List.length v1 = List.length v2
  /\ forall j, pending j \/ nth_error v1 j = nth_error v2 j.

Definition opt_rel {A} (r : A -> A -> Prop) (o1 o2 : option A) : Prop :=
  match o1, o2 with
  | Some a, Some b => r a b
  | None, None => True
  | _, _ => False
  end.

(** The number of leading entries of the GP vector that an evaluation
    writes (lines 749-779 and 863-881). *)
Definition lc_written (kernel : gp_kernel) (nX_ : nat) : nat :=
  match kernel with
  | SEKernel => nX_ + 2
  | ExpSineSquaredSEKernel => 5
  | CeleriteQPKernel => 5
  end.

Definition rv_written (kernel : gp_kernel) : nat :=
  match kernel with
  | SEKernel => 0
  | ExpSineSquaredSEKernel => 4
  | CeleriteQPKernel => 4
  end.

(** Two entries of [lc_dictionary] with the same setup: the attributes of
    the transit model are free, the GP vectors may differ at the
    positions from [k] on that an evaluation writes. *)
Definition entry_sim (k : nat) (e1 e2 : lc_entry) : Prop :=
  ldlaw e1 = ldlaw e2
  /\ GPDetrend e1 = GPDetrend e2
  /\ GPType e1 = GPType e2
  /\ nX e1 = nX e2
  /\ GP_group e1 = GP_group e2
  /\ agree_except
       (fun j => (k <= j < lc_written (GPType e1) (nX e1))%nat)
       (GPVector e1) (GPVector e2).

(** The five radvel keys of the [n]-th planet (lines 825-829). *)
Definition planet_keys (n : nat) : list string :=
  let k := Num.str (n + 1) in
  [("per" ++ k)%string; ("tc" ++ k)%string; ("w" ++ k)%string;
   ("e" ++ k)%string; ("k" ++ k)%string].

(** A key that the planets numbered from [lo] to [hi - 1] write. *)
Definition pending_planet (lo hi : nat) (key : string) : Prop :=
  exists n, (lo <= n < hi)%nat /\ In key (planet_keys n).

(** Two dictionaries with the same keys in the same order, whose values
    agree outside the [pending] keys. *)
Definition dict_agree (pending : string -> Prop) (d1 d2 : dict R) : Prop :=
  NoDup (map fst d1)
  /\ Forall2 (fun a b => fst a = fst b /\ (pending (fst a) \/ snd a = snd b))
             d1 d2.

(** A data point of one of the [instruments]. *)
Definition pending_points (cfg : config) (instruments : list string)
           (j : nat) : Prop :=
  exists instrument idx,
    In instrument instruments
    /\ Dict.get (instrument_indexes_rv cfg) instrument = Some idx
    /\ In j idx.

Record similar (cfg : config) (s1 s2 : store) : Prop := mk_similar {
  sim_priors : same_schema (priors s1) (priors s2);
  sim_lc : forall instrument,
      opt_rel (entry_sim 0) (Dict.get (lc_dictionary s1) instrument)
              (Dict.get (lc_dictionary s2) instrument);
  sim_rv_type : rv_GPType (rv_dictionary s1) = rv_GPType (rv_dictionary s2);
  sim_rv_group :
    rv_GP_group (rv_dictionary s1) = rv_GP_group (rv_dictionary s2);
  sim_rv_vector :
    agree_except (fun j => (0 <= j < rv_written (rv_GPType (rv_dictionary s1)))%nat)
                 (rv_GPVector (rv_dictionary s1))
                 (rv_GPVector (rv_dictionary s2));
  sim_radvel :
    dict_agree (pending_planet 0 (List.length (numbering_rv cfg)))
               (radvel_params s1) (radvel_params s2);
  sim_res :
    agree_except (pending_points cfg (inames_rv cfg))
                 (rvresiduals s1) (rvresiduals s2);
  sim_err :
    agree_except (pending_points cfg (inames_rv cfg))
                 (rvresiduals_err s1) (rvresiduals_err s2)
}.

(** Two similar stores that hold the same sample. *)
Definition aligned (cfg : config) (s1 s2 : store) : Prop :=
  priors s1 = priors s2 /\ similar cfg s1 s2.

(** The two runs of one computation from two related stores end alike:
    both fall through with one value and stores in [Q], or both return
    one value, or both raise, with stores in [E]. *)
Definition outcome_rel {A} (Q : A -> store -> store -> Prop)
           (E : store -> store -> Prop) (r1 r2 : outcome A * store) : Prop :=
  match fst r1, fst r2 with
  | Next a1, Next a2 => a1 = a2 /\ Q a1 (snd r1) (snd r2)
  | Return v1, Return v2 => v1 = v2 /\ E (snd r1) (snd r2)
  | Raise, Raise => E (snd r1) (snd r2)
  | _, _ => False
  end.

Definition related {A} (cfg : config) (P : store -> store -> Prop) (m : M A)
           (Q : A -> store -> store -> Prop) : Prop :=
  forall s1 s2, P s1 s2 -> outcome_rel Q (aligned cfg) (m s1) (m s2).

(** A computation that leaves the store alone and whose outcome is the
    same from two aligned stores. *)
Definition reads {A} (cfg : config) (m : M A) : Prop :=
  (forall s, snd (m s) = s)
  /\ (forall s1 s2, aligned cfg s1 s2 -> fst (m s1) = fst (m s2)).

(** What the two runs have brought into line so far, on top of
    [aligned]: the limb-darkening coefficients of an instrument; the
    first [k] entries of its GP vector, the entry being of the given
    kernel; its whole GP vector; the first [k] entries of the RV vector;
    the radvel keys of the first [n] planets; the residuals, and their
    errors, of all but the [remaining] instruments. *)
Definition u_focus (instrument : string) (s1 s2 : store) : Prop :=
  opt_rel (fun e1 e2 => tp_u (params e1) = tp_u (params e2))
          (Dict.get (lc_dictionary s1) instrument)
          (Dict.get (lc_dictionary s2) instrument).

Definition vector_focus (instrument : string) (kernel : gp_kernel)
           (nX_ k : nat) (s1 s2 : store) : Prop :=
  opt_rel (fun e1 e2 =>
             entry_sim k e1 e2 /\ GPType e1 = kernel /\ nX e1 = nX_)
          (Dict.get (lc_dictionary s1) instrument)
          (Dict.get (lc_dictionary s2) instrument).

Definition vector_eq (instrument : string) (s1 s2 : store) : Prop :=
  opt_rel (fun e1 e2 => GPVector e1 = GPVector e2)
          (Dict.get (lc_dictionary s1) instrument)
          (Dict.get (lc_dictionary s2) instrument).

Definition rv_vector_focus (kernel : gp_kernel) (k : nat) (s1 s2 : store)
  : Prop :=
  rv_GPType (rv_dictionary s1) = kernel
  /\ agree_except (fun j => (k <= j < rv_written kernel)%nat)
                  (rv_GPVector (rv_dictionary s1))
                  (rv_GPVector (rv_dictionary s2)).

Definition radvel_focus (cfg : config) (n : nat) (s1 s2 : store) : Prop :=
  dict_agree (pending_planet n (List.length (numbering_rv cfg)))
             (radvel_params s1) (radvel_params s2).

Definition residuals_focus (cfg : config) (remaining : list string)
           (s1 s2 : store) : Prop :=
  agree_except (pending_points cfg remaining)
               (rvresiduals s1) (rvresiduals s2).

Definition errors_focus (cfg : config) (remaining : list string)
           (s1 s2 : store) : Prop :=
  agree_except (pending_points cfg remaining)
               (rvresiduals_err s1) (rvresiduals_err s2).

(** A store in which radvel holds a value for every key of every planet,
    as after [radvel_params = init_radvel(n_rv)] (lines 583-584). *)
Definition settled (cfg : config) (s : store) : Prop :=
  NoDup (map fst (radvel_params s))
  /\ forall key,
      pending_planet 0 (List.length (numbering_rv cfg)) key ->
      Dict.mem (radvel_params s) key = true.

(** The entry of [instrument] is of the given kernel. *)
Definition kernel_is (instrument : string) (kernel : gp_kernel) (nX_ : nat)
           (s : store) : Prop :=
  exists e,
    Dict.get (lc_dictionary s) instrument = Some e
    /\ GPType e = kernel /\ nX e = nX_.

(** A computation that, from a store in [I], ends in a store similar to
    the one it started from, and in [I]. *)
Definition stays {A} (cfg : config) (I : store -> Prop) (m : M A) : Prop :=
  forall s o s', I s -> m s = (o, s') -> similar cfg s s' /\ I s'.

(** The store after a sequence of evaluations. *)
Definition after_evaluations (cfg : config) (orc : oracles)
           (cubes : list (list R)) (s : store) : store :=
  fold_left (fun s cube => snd (loglike cfg orc cube s)) cubes s.

(** Further sample configurations. *)
Module More.

(** The one-planet sample with a limb-darkening law [reverse_ld_coeffs]
    does not know. *)
Definition cubic_entry : lc_entry :=
  {| ldlaw := "cubic"; GPDetrend := false; GPType := SEKernel;
     nX := 0; GP_group := []; GPVector := [];
     params := Sample.no_params |}.

Definition cubic_store : store :=
  {| priors := Sample.transit_registry;
     lc_dictionary := [ ("TESS"%string, cubic_entry) ];
     rv_dictionary := Sample.no_rv;
     radvel_params := [];
     rvresiduals := [];
     rvresiduals_err := [] |}.

(** The radial-velocity sample with a stellar-density constraint and no
    light curve. *)
Definition density_only_config : config :=
  {| use_dynesty := true;
     lcfilename := false; rvfilename := true; rveparamfile := false;
     numbering_transit := []; numbering_rv := [1; 2]%nat;
     inames_lc := []; inames_rv := ["HARPS"%string];
     instrument_indexes_lc := [];
     instrument_indexes_rv := [("HARPS"%string, [0%nat])];
     f_lc := []; ferr_lc := []; lcones := [];
     t_rv := [1]; rv_rv := [0]; rverr_rv := [1];
     efficient_bp := false; pl := 0; pu := 1;
     fitrho := false; stellar_density := true; sd_mean := 1410;
     sd_sigma := 100;
     fitrvline := false; fitrvquad := false;
     ecc_parametrization_transit := [];
     ecc_parametrization_rv :=
       [(1%nat, detect_ecc_parametrization Sample.rv_registry 1);
        (2%nat, detect_ecc_parametrization Sample.rv_registry 2)] |}.

(** Radial velocities at times 1 and 3 with a linear trend of slope 2
    anchored at time 1. *)
Definition trend_registry : dict pinfo :=
  [ ("rv_slope", Sample.fixed 2);
    ("rv_tzero", Sample.fixed 1) ]%string.

Definition trend_store : store :=
  {| priors := trend_registry;
     lc_dictionary := [];
     rv_dictionary := Sample.no_rv;
     radvel_params := [];
     rvresiduals := [];
     rvresiduals_err := [] |}.

Definition trend_config : config :=
  {| use_dynesty := true;
     lcfilename := false; rvfilename := true; rveparamfile := false;
     numbering_transit := []; numbering_rv := [];
     inames_lc := []; inames_rv := [];
     instrument_indexes_lc := []; instrument_indexes_rv := [];
     f_lc := []; ferr_lc := []; lcones := [];
     t_rv := [1; 3]; rv_rv := [0; 0]; rverr_rv := [1; 1];
     efficient_bp := false; pl := 0; pu := 1;
     fitrho := false; stellar_density := false; sd_mean := 0; sd_sigma := 1;
     fitrvline := fst (detect_rv_trend trend_registry);
     fitrvquad := snd (detect_rv_trend trend_registry);
     ecc_parametrization_transit := [];
     ecc_parametrization_rv := [] |}.

(** A planet sampled in (sqrt(e) cos w, sqrt(e) sin w). *)
Definition sqrt_registry : dict pinfo :=
  [ ("K_p1", Sample.fixed 10);
    ("t0_p1", Sample.fixed 2);
    ("P_p1", Sample.fixed 3);
    ("secosomega_p1", Sample.fixed 0.3);
    ("sesinomega_p1", Sample.fixed 0.4) ]%string.

Definition sqrt_store : store :=
  {| priors := sqrt_registry;
     lc_dictionary := [];
     rv_dictionary := Sample.no_rv;
     radvel_params := [];
     rvresiduals := [];
     rvresiduals_err := [] |}.

Definition sqrt_config : config :=
  {| use_dynesty := true;
     lcfilename := false; rvfilename := true; rveparamfile := false;
     numbering_transit := []; numbering_rv := [1%nat];
     inames_lc := []; inames_rv := [];
     instrument_indexes_lc := []; instrument_indexes_rv := [];
     f_lc := []; ferr_lc := []; lcones := [];
     t_rv := []; rv_rv := []; rverr_rv := [];
     efficient_bp := false; pl := 0; pu := 1;
     fitrho := false; stellar_density := false; sd_mean := 0; sd_sigma := 1;
     fitrvline := false; fitrvquad := false;
     ecc_parametrization_transit := [];
     ecc_parametrization_rv :=
       [(1%nat, detect_ecc_parametrization sqrt_registry 1)] |}.

(** Two transiting planets on circular orbits seen by one instrument,
    with a stellar-density constraint. *)
Definition two_planet_registry : dict pinfo :=
  [ ("P_p1", Sample.fixed 3);
    ("t0_p1", Sample.fixed 2);
    ("a_p1", Sample.fixed 12);
    ("b_p1", Sample.fixed 0);
    ("p_p1", Sample.fixed 0.1);
    ("ecc_p1", Sample.fixed 0);
    ("omega_p1", Sample.fixed 0);
    ("P_p2", Sample.fixed 7);
    ("t0_p2", Sample.fixed 4);
    ("a_p2", Sample.fixed 20);
    ("b_p2", Sample.fixed 0);
    ("p_p2", Sample.fixed 0.05);
    ("ecc_p2", Sample.fixed 0);
    ("omega_p2", Sample.fixed 0);
    ("q1_TESS", Sample.fixed 0.25);
    ("q2_TESS", Sample.fixed 0.5);
    ("mdilution_TESS", Sample.fixed 1);
    ("mflux_TESS", Sample.fixed 0);
    ("sigma_w_TESS", Sample.fixed 0) ]%string.

Definition two_planet_store : store :=
  {| priors := two_planet_registry;
     lc_dictionary := lc_dictionary Sample.transit_store;
     rv_dictionary := Sample.no_rv;
     radvel_params := [];
     rvresiduals := [];
     rvresiduals_err := [] |}.

Definition two_planet_config : config :=
  {| use_dynesty := true;
     lcfilename := true; rvfilename := false; rveparamfile := false;
     numbering_transit := [1; 2]%nat; numbering_rv := [];
     inames_lc := ["TESS"%string]; inames_rv := [];
     instrument_indexes_lc := [("TESS"%string, [0%nat])];
     instrument_indexes_rv := [];
     f_lc := [1]; ferr_lc := [0.001]; lcones := [1];
     t_rv := []; rv_rv := []; rverr_rv := [];
     efficient_bp := false; pl := 0; pu := 1;
     fitrho := false; stellar_density := true; sd_mean := 1410;
     sd_sigma := 100;
     fitrvline := false; fitrvquad := false;
     ecc_parametrization_transit :=
       [(1%nat, detect_ecc_parametrization two_planet_registry 1);
        (2%nat, detect_ecc_parametrization two_planet_registry 2)];
     ecc_parametrization_rv := [] |}.

(** The one-planet sample as an earlier evaluation may have left it:
    another sample in the free parameters, other attributes in the
    transit model. *)
Definition stale_registry : dict pinfo :=
  [ ("P_p1", {| ptype := "uniform"; value := [0; 10]; cvalue := 7 |});
    ("t0_p1", Sample.fixed 2);
    ("a_p1", Sample.fixed 12);
    ("b_p1", Sample.fixed 0);
    ("p_p1", Sample.fixed 0.1);
    ("ecc_p1", {| ptype := "uniform"; value := [0; 1]; cvalue := 0.5 |});
    ("omega_p1", Sample.fixed 0);
    ("q1_TESS", Sample.fixed 0.25);
    ("q2_TESS", Sample.fixed 0.5);
    ("mdilution_TESS", Sample.fixed 1);
    ("mflux_TESS", Sample.fixed 0);
    ("sigma_w_TESS", Sample.fixed 0) ]%string.

Definition stale_store : store :=
  {| priors := stale_registry;
     lc_dictionary :=
       [ ("TESS"%string,
          {| ldlaw := "quadratic"; GPDetrend := false; GPType := SEKernel;
             nX := 0; GP_group := []; GPVector := [];
             params :=
               {| tp_t0 := 2; tp_per := 7; tp_rp := 0.1; tp_a := 12;
                  tp_inc := 90; tp_ecc := 0.5; tp_w := 0;
                  tp_u := [0.5; 0] |} |}) ];
     rv_dictionary := Sample.no_rv;
     radvel_params := [];
     rvresiduals := [];
     rvresiduals_err := [] |}.

(** The radial-velocity sample with the radvel parameters of two planets
    in place. *)
Definition rv_ready_store : store :=
  {| priors := Sample.rv_registry;
     lc_dictionary := [];
     rv_dictionary := Sample.no_rv;
     radvel_params :=
       [ ("per1", 1); ("tc1", 0); ("e1", 0); ("w1", 0); ("k1", 0);
         ("per2", 1); ("tc2", 0); ("e2", 0); ("w2", 0); ("k2", 0) ]%string;
     rvresiduals := [0];
     rvresiduals_err := [0] |}.

(** The entry of an instrument before the GP setup. *)
Definition plain_entry : lc_entry :=
  {| ldlaw := "quadratic"; GPDetrend := false; GPType := SEKernel;
     nX := 0; GP_group := []; GPVector := [];
     params := Sample.no_params |}.

(** The photometric entry of [Sample.celerite_store]. *)
Definition celerite_entry : lc_entry :=
  {| ldlaw := "quadratic"; GPDetrend := true;
     GPType := CeleriteQPKernel; nX := 1;
     GP_group := [ ("GP_B", "TESS"); ("GP_C", "TESS");
                   ("GP_L", "TESS"); ("GP_Prot", "TESS") ]%string;
     GPVector := lc_GPVector_init CeleriteQPKernel 1;
     params := Sample.no_params |}.

End More.
(* ================================================================= *)
(** * Basic facts: comparisons, arrays, control flow *)

Lemma ltb_true (x y : R) : x < y -> (x <? y) = true.
Proof. intros H. unfold Num.ltb. destruct (Rlt_dec x y); [reflexivity | contradiction]. Qed.

Lemma ltb_false (x y : R) : y <= x -> (x <? y) = false.
Proof. intros H. unfold Num.ltb. destruct (Rlt_dec x y); [lra | reflexivity]. Qed.

Lemma ltb_spec (x y : R) : (x <? y) = true <-> x < y.
Proof.
  unfold Num.ltb. destruct (Rlt_dec x y); split; intros; try assumption;
    try reflexivity; try discriminate; contradiction.
Qed.

Lemma gtb_true (x y : R) : x > y -> (x >? y) = true.
Proof. intros H. unfold Num.gtb. apply ltb_true. lra. Qed.

Lemma gtb_false (x y : R) : x <= y -> (x >? y) = false.
Proof. intros H. unfold Num.gtb. apply ltb_false. lra. Qed.

Lemma geb_true (x y : R) : x >= y -> (x >=? y) = true.
Proof. intros H. unfold Num.geb. rewrite ltb_false by lra. reflexivity. Qed.

Lemma geb_false (x y : R) : x < y -> (x >=? y) = false.
Proof. intros H. unfold Num.geb. rewrite ltb_true by lra. reflexivity. Qed.

(** Decide the comparisons of the goal that linear arithmetic settles. *)
Ltac cmp :=
  repeat match goal with
    | |- context [Num.ltb ?x ?y] =>
        first [ rewrite (ltb_true x y) by lra
              | rewrite (ltb_false x y) by lra ]
    | |- context [Num.gtb ?x ?y] =>
        first [ rewrite (gtb_true x y) by lra
              | rewrite (gtb_false x y) by lra ]
    | |- context [Num.geb ?x ?y] =>
        first [ rewrite (geb_true x y) by lra
              | rewrite (geb_false x y) by lra ]
    end.

(** Evaluate the embedding on a concrete configuration: unfold the
    program, the dictionaries and the strings, and leave the real numbers
    alone. *)
Ltac run :=
  cbv beta iota zeta delta
    [ loglike loglike_body photometric_part rv_part assign_cvalues
      assign_loop photometric_section period_gate period_step for_range
      for_each transit_planet set_limb_darkening planet_geometry
      resolve_ecc_transit resolve_ecc_rv transit_model_step inclination_step
      multiply_lcmodel lc_instrument_likelihood marshal_lc_GPVector
      set_lc_GPVector lc_hyper stellar_density_term rv_planet rv_section
      rv_trend rv_instrument_likelihood set_rv_GPVector rv_hyper
      marshal_rv_GPVector rv_gp_term
      cvalue_of cvalue_in lc_entry_of set_lc_entry set_radvel
      bind ret return_ raise get_store modify of_option
      Dict.get Dict.set Dict.mem get_nat detect_ecc_parametrization
      reverse_ld_coeffs bp_from_r ecclim zeros lc_GPVector_init
      rv_GPVector_init repeat
      Array.gather Array.scatter Array.set_nth Array.zip_with
      gaussian_log_likelihood
      transform_prior two_values prior prior_loop write_cell
      supported_kind readpriors_accepts count_free forallb filter assigned
      with_cvalue with_u with_orbit with_params with_GPVector
      with_rv_GPVector with_priors with_lc_dictionary with_rv_dictionary
      with_radvel_params with_rvresiduals with_rvresiduals_err
      ptype value cvalue tp_t0 tp_per tp_rp tp_a tp_inc tp_ecc tp_w tp_u
      ldlaw GPDetrend GPType nX GP_group GPVector params
      rv_GPType rv_GP_group rv_GPVector
      priors lc_dictionary rv_dictionary radvel_params rvresiduals
      rvresiduals_err
      use_dynesty lcfilename rvfilename rveparamfile numbering_transit
      numbering_rv inames_lc inames_rv instrument_indexes_lc
      instrument_indexes_rv f_lc ferr_lc lcones t_rv rv_rv rverr_rv
      efficient_bp pl pu fitrho stellar_density sd_mean sd_sigma fitrvline
      fitrvquad ecc_parametrization_transit ecc_parametrization_rv
      light_curve RVModel lc_gp_log_likelihood rv_gp_log_likelihood
      lcmodel loc_a loc_P
      Sample.flat_oracles Sample.fixed Sample.free Sample.no_params
      Sample.no_rv Sample.transit_registry Sample.transit_store
      Sample.transit_config Sample.three_planet_registry
      Sample.three_planet_store Sample.three_planet_config
      Sample.efficient_registry Sample.efficient_store
      Sample.efficient_config Sample.celerite_registry
      Sample.celerite_store Sample.rv_registry Sample.rv_store
      Sample.rv_config
      String.eqb Ascii.eqb Bool.eqb String.append nth_error nth map
      option_map negb orb andb Nat.eqb fst snd List.length seq Nat.add
      Num.str NilEmpty.string_of_uint Nat.to_uint Nat.to_little_uint
      Decimal.rev Decimal.revapp Decimal.Little.succ ].

Lemma bind_next {A B} (m : M A) (k : A -> M B) (s s' : store) (a : A) :
  m s = (Next a, s') -> bind m k s = k a s'.
Proof. intros H. unfold bind. rewrite H. reflexivity. Qed.

Lemma bind_ret {A B} (a : A) (k : A -> M B) (s : store) :
  bind (ret a) k s = k a s.
Proof. reflexivity. Qed.

Lemma bind_return {A B} (m : M A) (k : A -> M B) (s s' : store) (v : R) :
  m s = (Return v, s') -> bind m k s = (Return v, s').
Proof. intros H. unfold bind. rewrite H. reflexivity. Qed.

Lemma bind_raise {A B} (m : M A) (k : A -> M B) (s s' : store) :
  m s = (Raise, s') -> bind m k s = (Raise, s').
Proof. intros H. unfold bind. rewrite H. reflexivity. Qed.

Lemma for_range_cons {B} (i : nat) (xs : list nat) (n : nat) (acc : B)
      (body : nat -> nat -> B -> M B) (s : store) :
  for_range (i :: xs) n acc body s
  = match body n i acc s with
    | (Next acc', s') => for_range xs (S n) acc' body s'
    | (Return v, s') => (Return v, s')
    | (Raise, s') => (Raise, s')
    end.
Proof. reflexivity. Qed.

Lemma for_each_cons {A B} (x : A) (xs : list A) (acc : B)
      (body : A -> B -> M B) (s : store) :
  for_each (x :: xs) acc body s
  = match body x acc s with
    | (Next acc', s') => for_each xs acc' body s'
    | (Return v, s') => (Return v, s')
    | (Raise, s') => (Raise, s')
    end.
Proof. reflexivity. Qed.

Lemma cvalue_of_some (name : string) (s : store) (v : R) :
  cvalue_in s name = Some v -> cvalue_of name s = (Next v, s).
Proof. intros H. unfold cvalue_of, bind, get_store. rewrite H. reflexivity. Qed.

Lemma lc_entry_of_some (instrument : string) (s : store) (e : lc_entry) :
  Dict.get (lc_dictionary s) instrument = Some e ->
  lc_entry_of instrument s = (Next e, s).
Proof.
  intros H. unfold lc_entry_of, bind, get_store. rewrite H. reflexivity.
Qed.

Lemma cvalue_of_pure (name : string) (s s' : store) (o : outcome R) :
  cvalue_of name s = (o, s') -> s' = s.
Proof.
  unfold cvalue_of, bind, get_store.
  destruct (cvalue_in s name); cbn; intros H; inversion H; reflexivity.
Qed.

(* ----------------------------------------------------------------- *)
(** ** The white-noise likelihood *)

Lemma sum_map_plus {A} (f g : A -> R) (l : list A) :
  Array.sum (map (fun x => f x + g x) l)
  = Array.sum (map f l) + Array.sum (map g l).
Proof.
  induction l as [| x l IH]; cbn.
  - lra.
  - unfold Array.sum in IH. rewrite IH. lra.
Qed.

Lemma white_noise_terms (j : R) :
  forall r sigma : array,
    List.length r = List.length sigma ->
    match Array.zip_with Rmult (map (fun e => 1 / (e ^ 2 + j ^ 2)) sigma)
                         (map (fun x => x ^ 2) r) with
    | None => None
    | Some weighted =>
        match Array.zip_with Rplus
                (map (fun t => ln (1 / t))
                     (map (fun e => 1 / (e ^ 2 + j ^ 2)) sigma)) weighted with
        | None => None
        | Some terms => Some (Array.sum terms)
        end
    end
    = Some (Array.sum (map (fun s => ln (s ^ 2 + j ^ 2)) sigma)
            + Array.sum (map (fun rs => fst rs ^ 2 / (snd rs ^ 2 + j ^ 2))
                             (combine r sigma))).
Proof.
  induction r as [| x r IH]; intros [| e sigma] Hlen; cbn in Hlen;
    try discriminate.
  - cbn. f_equal. lra.
  - specialize (IH sigma ltac:(lia)).
    cbn [map Array.zip_with combine].
    destruct (Array.zip_with Rmult _ (map (fun x0 => x0 ^ 2) r)) as [w |];
      [| discriminate].
    destruct (Array.zip_with Rplus _ w) as [terms |]; [| discriminate].
    injection IH as IH. f_equal. cbn [Array.sum fold_right fst snd].
    fold (Array.sum terms).
    fold (Array.sum (map (fun s => ln (s ^ 2 + j ^ 2)) sigma)).
    fold (Array.sum (map (fun rs : R * R => fst rs ^ 2 / (snd rs ^ 2 + j ^ 2))
                         (combine r sigma))).
    rewrite IH.
    replace (1 / (1 / (e ^ 2 + j ^ 2))) with (e ^ 2 + j ^ 2)
      by (unfold Rdiv; rewrite !Rmult_1_l, Rinv_inv; reflexivity).
    cbn [pow].
    unfold Rdiv. ring.
Qed.

(** C2. For residuals [r] and per-point errors [sigma] of the same length
    and any jitter [j], [gaussian_log_likelihood] returns the closed form
    [-0.5 (N log(2 pi) + sum log(sigma_i^2+j^2) + sum r_i^2/(sigma_i^2+j^2))]. *)
Theorem gaussian_log_likelihood_closed_form (r sigma : array) (j : R) :
  List.length r = List.length sigma ->
  gaussian_log_likelihood r sigma j = Some (gaussian_closed_form r sigma j).
Proof.
  intros Hlen. pose proof (white_noise_terms j r sigma Hlen) as H.
  unfold gaussian_log_likelihood, gaussian_closed_form.
  destruct (Array.zip_with Rmult _ _) as [w |]; [| discriminate].
  destruct (Array.zip_with Rplus _ w) as [terms |]; [| discriminate].
  injection H as H. rewrite H. unfold log2pi. f_equal. cbn [pow]. ring.
Qed.

(** The instance of the specification: residuals [0.1, -0.2, 0.05, 0, 0.15],
    uniform error 0.1, jitter 0. *)
Lemma gaussian_log_likelihood_closed_form_witness :
  gaussian_log_likelihood [0.1; -0.2; 0.05; 0; 0.15]
                          [0.1; 0.1; 0.1; 0.1; 0.1] 0
  = Some (gaussian_closed_form [0.1; -0.2; 0.05; 0; 0.15]
                               [0.1; 0.1; 0.1; 0.1; 0.1] 0).
Proof. apply gaussian_log_likelihood_closed_form. reflexivity. Defined.

(* ----------------------------------------------------------------- *)
(** ** The period-ordering gate *)

Lemma ln_lt_id (x : R) : 0 < x -> ln x < x.
Proof.
  intros Hx. destruct (Req_dec (ln x) 0) as [H0 | H0].
  - rewrite H0. exact Hx.
  - pose proof (exp_ineq1 (ln x) H0) as H. rewrite exp_ln in H by exact Hx. lra.
Qed.

Lemma period_step_first (i : nat) (cP P : R) (s : store) :
  cvalue_in s ("P_p" ++ Num.str i) = Some P ->
  period_step 0 i cP s
  = if P <? 0 then (Return floor_value, s) else (Next P, s).
Proof.
  intros HP. unfold period_step.
  rewrite (bind_next _ _ s s P) by (apply cvalue_of_some; exact HP).
  cbn [Nat.eqb]. unfold bind at 1, ret at 1.
  destruct (P <? 0); reflexivity.
Qed.

Lemma period_step_later (n i : nat) (cP P : R) (s : store) :
  cvalue_in s ("P_p" ++ Num.str i) = Some P ->
  0 <= cP ->
  period_step (S n) i cP s
  = if cP <? P then (Next P, s) else (Return floor_value, s).
Proof.
  intros HP HcP. unfold period_step.
  rewrite (bind_next _ _ s s P) by (apply cvalue_of_some; exact HP).
  cbn [Nat.eqb]. unfold bind at 1.
  destruct (Rlt_dec cP P) as [Hlt | Hge].
  - rewrite ltb_true by exact Hlt. unfold ret at 1.
    rewrite ltb_false by lra. reflexivity.
  - rewrite ltb_false by lra. reflexivity.
Qed.

(** Past the first planet the loop goes on exactly along a strictly
    increasing chain that starts at the running maximum [cP]. *)
Lemma period_loop_later (s : store) :
  forall (numbering : list nat) (ps : list R) (n : nat) (cP : R),
    periods_of s numbering ps ->
    0 <= cP ->
    (Sorted Rlt (cP :: ps) ->
     exists cP', for_range numbering (S n) cP period_step s = (Next cP', s))
    /\ (~ Sorted Rlt (cP :: ps) ->
        for_range numbering (S n) cP period_step s = (Return floor_value, s)).
Proof.
  intros numbering ps n cP Hps. revert n cP.
  induction Hps as [| i P numbering ps HP Hrest IH]; intros n cP HcP.
  - split.
    + intros _. exists cP. reflexivity.
    + intros Hn. exfalso. apply Hn. repeat constructor.
  - rewrite !for_range_cons.
    rewrite (period_step_later n i cP P s HP HcP).
    destruct (Rlt_dec cP P) as [Hlt | Hge].
    + rewrite ltb_true by exact Hlt.
      destruct (IH (S n) P ltac:(lra)) as [IHok IHko].
      split.
      * intros Hs. inversion Hs as [| ? ? Hs' Hhd]; subst.
        exact (IHok Hs').
      * intros Hn. apply IHko. intros Hs'. apply Hn.
        constructor; [exact Hs' | constructor; exact Hlt].
    + rewrite ltb_false by lra. split.
      * intros Hs. exfalso. inversion Hs as [| ? ? Hs' Hhd]; subst.
        inversion Hhd; subst. contradiction.
      * intros _. reflexivity.
Qed.

Lemma sorted_lower_bound (x : R) (ps : list R) :
  Sorted Rlt (x :: ps) -> Forall (fun P => x <= P) (x :: ps).
Proof.
  intros Hs. apply Sorted_StronglySorted in Hs.
  - inversion Hs as [| ? ? _ Hall]; subst. constructor; [lra |].
    eapply Forall_impl; [| exact Hall]. cbn. intros; lra.
  - intros a b c; apply Rlt_trans.
Qed.

(** The gate lets the evaluation through exactly on ordered periods, and
    touches nothing. *)
Lemma period_gate_spec (numbering : list nat) (ps : list R) (s : store) :
  periods_of s numbering ps ->
  (ordered_periods ps -> period_gate numbering s = (Next tt, s))
  /\ (~ ordered_periods ps ->
      period_gate numbering s = (Return floor_value, s)).
Proof.
  intros Hps. unfold period_gate.
  destruct Hps as [| i P numbering ps HP Hrest].
  - split.
    + intros _. reflexivity.
    + intros Hn. exfalso. apply Hn. split; constructor.
  - unfold bind. rewrite !for_range_cons.
    rewrite (period_step_first i 0 P s HP).
    destruct (Rlt_dec P 0) as [Hneg | Hpos].
    + rewrite ltb_true by exact Hneg. split.
      * intros [_ Hall]. inversion Hall; subst. lra.
      * intros _. reflexivity.
    + rewrite ltb_false by lra.
      destruct (period_loop_later s numbering ps 0 P Hrest ltac:(lra))
        as [Hok Hko].
      split.
      * intros [Hs _]. destruct (Hok Hs) as [cP' HcP'].
        rewrite HcP'. reflexivity.
      * intros Hn. rewrite Hko; [reflexivity |].
        intros Hs. apply Hn. split; [exact Hs |].
        eapply Forall_impl; [| exact (sorted_lower_bound P ps Hs)].
        cbn. intros; lra.
Qed.

(* ----------------------------------------------------------------- *)
(** ** The assignment of the sample *)

Lemma assign_loop_total (cube : list R) :
  forall (entries : dict pinfo) (pcounter : nat),
    (pcounter + count_free entries <= List.length cube)%nat ->
    assign_loop cube pcounter entries
    = (Next tt, assigned cube pcounter entries).
Proof.
  induction entries as [| [pname pi] rest IH]; intros pcounter Hlen.
  - reflexivity.
  - cbn [assign_loop assigned]. unfold count_free in Hlen. cbn [filter snd] in Hlen.
    destruct (negb (ptype pi =? "fixed")%string) eqn:Hfree.
    + cbn [List.length] in Hlen. fold (count_free rest) in Hlen.
      destruct (nth_error cube pcounter) as [v |] eqn:Hnth.
      * rewrite (IH (S pcounter)) by lia.
        rewrite (nth_error_nth _ _ 0 Hnth). reflexivity.
      * apply nth_error_None in Hnth. lia.
    + fold (count_free rest) in Hlen. rewrite (IH pcounter) by lia. reflexivity.
Qed.

(** The loop leaves the sample in the registry whatever happens later:
    on success the registry is [assigned]. *)
Lemma assign_loop_next (cube : list R) :
  forall (entries : dict pinfo) (pcounter : nat) (p' : dict pinfo),
    assign_loop cube pcounter entries = (Next tt, p') ->
    p' = assigned cube pcounter entries.
Proof.
  induction entries as [| [pname pi] rest IH]; intros pcounter p' H.
  - cbn in H. inversion H. reflexivity.
  - cbn [assign_loop assigned] in *.
    destruct (negb (ptype pi =? "fixed")%string).
    + destruct (nth_error cube pcounter) as [v |] eqn:Hnth; [| discriminate].
      destruct (assign_loop cube (S pcounter) rest) as [o rest'] eqn:Hrest.
      inversion H; subst. rewrite (IH _ _ Hrest).
      rewrite (nth_error_nth _ _ 0 Hnth). reflexivity.
    + destruct (assign_loop cube pcounter rest) as [o rest'] eqn:Hrest.
      inversion H; subst. rewrite (IH _ _ Hrest). reflexivity.
Qed.

Lemma assign_loop_no_return (cube : list R) :
  forall (entries : dict pinfo) (pcounter : nat) (v : R) (p' : dict pinfo),
    assign_loop cube pcounter entries <> (Return v, p').
Proof.
  induction entries as [| [pname pi] rest IH]; intros pcounter v p' H.
  - cbn in H. discriminate.
  - cbn [assign_loop] in H.
    destruct (negb (ptype pi =? "fixed")%string).
    + destruct (nth_error cube pcounter); [| discriminate].
      destruct (assign_loop cube (S pcounter) rest) as [o rest'] eqn:Hrest.
      inversion H; subst. exact (IH _ _ _ Hrest).
    + destruct (assign_loop cube pcounter rest) as [o rest'] eqn:Hrest.
      inversion H; subst. exact (IH _ _ _ Hrest).
Qed.

(** A later sample overwrites every value an earlier one left. *)
Lemma assigned_overwrites (cube cube' : list R) :
  forall (entries : dict pinfo) (n m : nat),
    assigned cube n (assigned cube' m entries) = assigned cube n entries.
Proof.
  induction entries as [| [pname pi] rest IH]; intros n m.
  - reflexivity.
  - cbn [assigned].
    destruct (negb (ptype pi =? "fixed")%string) eqn:Hfree;
      cbn [assigned with_cvalue ptype]; rewrite Hfree, IH; reflexivity.
Qed.

Lemma assign_cvalues_total (cube : list R) (s : store) :
  (count_free (priors s) <= List.length cube)%nat ->
  assign_cvalues cube s
  = (Next tt, with_priors s (assigned cube 0 (priors s))).
Proof.
  intros Hlen. unfold assign_cvalues.
  rewrite assign_loop_total by (cbn; exact Hlen). reflexivity.
Qed.

(* ----------------------------------------------------------------- *)
(** ** The gate inside [loglike] *)

Lemma loglike_transit_gate (cfg : config) (orc : oracles) (cube : list R)
      (s : store) (ps : list R) :
  (count_free (priors s) <= List.length cube)%nat ->
  lcfilename cfg = true ->
  periods_of (with_priors s (assigned cube 0 (priors s)))
             (numbering_transit cfg) ps ->
  ~ ordered_periods ps ->
  loglike cfg orc cube s
  = (Some floor_value, with_priors s (assigned cube 0 (priors s))).
Proof.
  intros Hlen Hlc Hps Hbad.
  destruct (period_gate_spec _ _ _ Hps) as [_ Hko]. specialize (Hko Hbad).
  unfold loglike, loglike_body, photometric_part.
  unfold bind at 1 2 3.
  rewrite (assign_cvalues_total cube s Hlen).
  unfold photometric_section. rewrite Hlc.
  unfold bind at 1 2. rewrite Hko. reflexivity.
Qed.

Lemma loglike_rv_gate (cfg : config) (orc : oracles) (cube : list R)
      (s s1 : store) (ll : R) (ps : list R) :
  photometric_part cfg orc cube s = (Next ll, s1) ->
  rvfilename cfg = true ->
  periods_of s1 (numbering_rv cfg) ps ->
  ~ ordered_periods ps ->
  loglike cfg orc cube s = (Some floor_value, s1).
Proof.
  intros Hphot Hrv Hps Hbad.
  destruct (period_gate_spec _ _ _ Hps) as [_ Hko]. specialize (Hko Hbad).
  unfold loglike, loglike_body. unfold bind at 1. rewrite Hphot.
  unfold rv_part, rv_section. rewrite Hrv.
  unfold bind at 1 2 3. rewrite Hko. reflexivity.
Qed.

(** C1 (as amended). In each context the period loop lets the evaluation
    go on exactly when the periods are strictly increasing in numbering
    order and none is negative.  Otherwise [loglike] returns [-1e101] on
    the spot: in the transit context with nothing but the sample written to
    the registry, in the RV context with the store as the photometric terms
    left it. *)
Theorem period_ordering_gate (cfg : config) (orc : oracles) (cube : list R)
        (s : store) :
  (forall numbering ps s0,
      periods_of s0 numbering ps -> ordered_periods ps ->
      period_gate numbering s0 = (Next tt, s0))
  /\ (forall ps,
         (count_free (priors s) <= List.length cube)%nat ->
         lcfilename cfg = true ->
         periods_of (with_priors s (assigned cube 0 (priors s)))
                    (numbering_transit cfg) ps ->
         ~ ordered_periods ps ->
         loglike cfg orc cube s
         = (Some floor_value, with_priors s (assigned cube 0 (priors s))))
  /\ (forall ps ll s1,
         photometric_part cfg orc cube s = (Next ll, s1) ->
         rvfilename cfg = true ->
         periods_of s1 (numbering_rv cfg) ps ->
         ~ ordered_periods ps ->
         loglike cfg orc cube s = (Some floor_value, s1)).
Proof.
  split; [| split].
  - intros numbering ps s0 Hps Hord.
    exact (proj1 (period_gate_spec numbering ps s0 Hps) Hord).
  - intros ps. apply loglike_transit_gate.
  - intros ps ll s1. apply loglike_rv_gate.
Qed.

(** Periods (3, 5, 10) pass the gate. *)
Example ascending_periods_pass :
  period_gate [1; 2; 3]%nat
              (with_priors Sample.three_planet_store
                           (assigned [3; 5; 10] 0 Sample.three_planet_registry))
  = (Next tt,
     with_priors Sample.three_planet_store
                 (assigned [3; 5; 10] 0 Sample.three_planet_registry)).
Proof.
  assert (Hps : periods_of
                  (with_priors Sample.three_planet_store
                     (assigned [3; 5; 10] 0 Sample.three_planet_registry))
                  [1; 2; 3]%nat [3; 5; 10])
    by (repeat constructor).
  apply (proj1 (period_gate_spec _ _ _ Hps)).
  split.
  - repeat constructor; lra.
  - repeat constructor; lra.
Qed.

(** Periods (5, 3, 10): the sample is floored. *)
Lemma period_ordering_gate_witness :
  loglike Sample.three_planet_config Sample.flat_oracles [5; 3; 10]
          Sample.three_planet_store
  = (Some floor_value,
     with_priors Sample.three_planet_store
                 (assigned [5; 3; 10] 0 (priors Sample.three_planet_store))).
Proof.
  apply (proj1 (proj2 (period_ordering_gate
                         Sample.three_planet_config Sample.flat_oracles
                         [5; 3; 10] Sample.three_planet_store))
               [5; 3; 10]).
  - cbn. lia.
  - reflexivity.
  - repeat constructor.
  - intros [Hs _]. inversion Hs as [| ? ? _ Hhd]; subst.
    inversion Hhd; subst. lra.
Defined.

(** The sample run on which the gates are tried: one planet, one
    out-of-transit point.  Any non-negative period and any eccentricity up
    to 0.95 give a likelihood well above the floor. *)
Lemma transit_sample_run (P ecc : R) :
  0 <= P -> ecc <= 0.95 ->
  exists v s',
    loglike Sample.transit_config Sample.flat_oracles [P; ecc]
            Sample.transit_store = (Some v, s')
    /\ v <> floor_value
    /\ cvalue_in s' "P_p1" = Some P
    /\ cvalue_in s' "ecc_p1" = Some ecc
    /\ option_map (fun e => tp_inc (params e))
                  (Dict.get (lc_dictionary s') "TESS")
       = Some (acos (0 / 12 * ((1 + ecc * sin (0 * PI / 180)) / (1 - ecc ^ 2)))
               * 180 / PI).
Proof.
  intros HP He. eexists. eexists. split; [| split; [| split; [| split]]].
  - run. cmp. run. cmp. run. reflexivity.
  - change (INR 1) with 1. cbn [Array.sum fold_right].
    replace (1 / (1 / (0.001 ^ 2 + (0 * 1e-6) ^ 2))) with 1e-6
      by (unfold Rdiv; rewrite !Rmult_1_l, Rinv_inv; lra).
    pose proof (ln_lt_id 1e-6 ltac:(lra)) as H1.
    pose proof (ln_lt_id (2 * PI) ltac:(pose proof PI_RGT_0; lra)) as H2.
    pose proof PI_4 as H4. unfold log2pi, floor_value. lra.
  - reflexivity.
  - reflexivity.
  - reflexivity.
Qed.

(** C1, the claim as stated, fails: a period of 0 is not positive, yet the
    gate lets it through and [loglike] returns an ordinary likelihood. *)
Lemma period_zero_not_floored :
  ~ spec_ordered_periods [0]
  /\ exists v s',
      loglike Sample.transit_config Sample.flat_oracles [0; 0]
              Sample.transit_store = (Some v, s')
      /\ periods_of s' (numbering_transit Sample.transit_config) [0]
      /\ v <> floor_value.
Proof.
  split.
  - intros [_ Hpos]. inversion Hpos; subst. lra.
  - destruct (transit_sample_run 0 0 ltac:(lra) ltac:(lra))
      as (v & s' & Hrun & Hv & HP & _).
    exists v, s'. split; [exact Hrun | split; [| exact Hv]].
    repeat constructor. exact HP.
Qed.

(* ----------------------------------------------------------------- *)
(** ** The eccentricity gates *)

Lemma transit_model_step_floor (cfg : config) (orc : oracles)
      (instrument : string) (a b p t0 P ecc omega : R) (model : array)
      (s : store) :
  ecc > 0.95 ->
  transit_model_step cfg orc instrument a b p t0 P ecc omega model s
  = (Return floor_value, s).
Proof.
  intros He. unfold transit_model_step, ecclim.
  rewrite gtb_true by lra. reflexivity.
Qed.

Lemma transit_model_step_pass (cfg : config) (orc : oracles)
      (instrument : string) (a b p t0 P ecc omega : R) (model : array)
      (s : store) :
  ecc <= 0.95 ->
  transit_model_step cfg orc instrument a b p t0 P ecc omega model s
  = inclination_step cfg orc instrument a b p t0 P ecc omega model s.
Proof.
  intros He. unfold transit_model_step, ecclim.
  rewrite gtb_false by lra. reflexivity.
Qed.

Lemma rv_planet_spec (cfg : config) (n i : nat) (s : store)
      (K t0 P ecc omega : R) :
  cvalue_in s ("K_p" ++ Num.str i) = Some K ->
  cvalue_in s ("t0_p" ++ Num.str i) = Some t0 ->
  cvalue_in s ("P_p" ++ Num.str i) = Some P ->
  resolve_ecc_rv cfg i s = (Next (ecc, omega), s) ->
  (ecc > 1 -> rv_planet cfg n i tt s = (Return floor_value, s))
  /\ (ecc <= 1 ->
      rv_planet cfg n i tt s
      = (Next tt,
         with_radvel_params
           s (written_planet (radvel_params s) n P t0 omega ecc K))).
Proof.
  intros HK Ht0 HP He. unfold rv_planet.
  rewrite (bind_next _ _ s s K) by (apply cvalue_of_some; exact HK).
  rewrite (bind_next _ _ s s t0) by (apply cvalue_of_some; exact Ht0).
  rewrite (bind_next _ _ s s P) by (apply cvalue_of_some; exact HP).
  rewrite (bind_next _ _ s s (ecc, omega)) by exact He.
  split; intros Hcmp.
  - rewrite gtb_true by lra. reflexivity.
  - rewrite gtb_false by lra. reflexivity.
Qed.

(** C6 (as amended). The transit gate floors the evaluation exactly when
    the eccentricity is above 0.95, the RV gate exactly when it is above 1;
    0.95 and 1 themselves, and negative values, pass the gates.  On the
    sample run, 0.96 is floored and 0.94 is not. *)
Theorem eccentricity_gates (cfg : config) (orc : oracles) :
  (forall instrument a b p t0 P ecc omega model s,
      (ecc > 0.95 ->
       transit_model_step cfg orc instrument a b p t0 P ecc omega model s
       = (Return floor_value, s))
      /\ (ecc <= 0.95 ->
          transit_model_step cfg orc instrument a b p t0 P ecc omega model s
          = inclination_step cfg orc instrument a b p t0 P ecc omega model s))
  /\ (forall n i s K t0 P ecc omega,
         cvalue_in s ("K_p" ++ Num.str i) = Some K ->
         cvalue_in s ("t0_p" ++ Num.str i) = Some t0 ->
         cvalue_in s ("P_p" ++ Num.str i) = Some P ->
         resolve_ecc_rv cfg i s = (Next (ecc, omega), s) ->
         (ecc > 1 -> rv_planet cfg n i tt s = (Return floor_value, s))
         /\ (ecc <= 1 ->
             rv_planet cfg n i tt s
             = (Next tt,
                with_radvel_params
                  s (written_planet (radvel_params s) n P t0 omega ecc K))))
  /\ (exists s',
         loglike Sample.transit_config Sample.flat_oracles [3; 0.96]
                 Sample.transit_store = (Some floor_value, s'))
  /\ (exists v s',
         loglike Sample.transit_config Sample.flat_oracles [3; 0.94]
                 Sample.transit_store = (Some v, s')
         /\ v <> floor_value).
Proof.
  split; [| split; [| split]].
  - intros. split; intros He.
    + apply transit_model_step_floor; exact He.
    + apply transit_model_step_pass; exact He.
  - intros n i s K t0 P ecc omega. apply rv_planet_spec.
  - eexists. run. cmp. run. cmp. run. reflexivity.
  - destruct (transit_sample_run 3 0.94 ltac:(lra) ltac:(lra))
      as (v & s' & Hrun & Hv & _).
    exists v, s'. split; assumption.
Qed.

(** An eccentricity of 0.96 stops the transit model of the sample. *)
Lemma eccentricity_gates_witness :
  transit_model_step Sample.transit_config Sample.flat_oracles "TESS"
                     12 0 0.1 2 3 0.96 0 [1] Sample.transit_store
  = (Return floor_value, Sample.transit_store).
Proof.
  apply (proj1 (proj1 (eccentricity_gates Sample.transit_config
                                          Sample.flat_oracles)
                      "TESS"%string 12 0 0.1 2 3 0.96 0 [1]
                      Sample.transit_store)).
  lra.
Defined.

(** C6, the claim as stated, fails: 0.95 lies outside [0, 0.95), yet the
    evaluation is not floored. *)
Lemma eccentricity_at_limit_not_floored :
  ~ (0 <= 0.95 < 0.95)
  /\ exists v s',
      loglike Sample.transit_config Sample.flat_oracles [3; 0.95]
              Sample.transit_store = (Some v, s')
      /\ cvalue_in s' "ecc_p1" = Some 0.95
      /\ v <> floor_value.
Proof.
  split; [lra |].
  destruct (transit_sample_run 3 0.95 ltac:(lra) ltac:(lra))
    as (v & s' & Hrun & Hv & _ & He & _).
  exists v, s'. repeat split; assumption.
Qed.

(* ----------------------------------------------------------------- *)
(** ** The inclination and the geometric gate *)

(** C3 (as amended). With [omega] in degrees,
    [ecc_factor = (1 + e sin(omega pi/180)) / (1 - e^2)] and
    [inc_inv = (b/a) ecc_factor]; if [b > 1 + p] or [inc_inv >= 1] the
    evaluation returns [-1e101]; otherwise the transit model is called
    with the inclination [arccos(inc_inv) 180/pi], in degrees, stored
    in the instrument's parameters together with the rest of the orbit.
    The quotients are those of the code where it divides by a non-zero
    number, [a <> 0] and [e^2 <> 1], and the arc cosine is the code's on
    [-1 <= inc_inv]. *)
Theorem inclination_step_spec (cfg : config) (orc : oracles)
        (instrument : string) (a b p t0 P ecc omega : R) (model : array)
        (s : store) :
  a <> 0 -> ecc ^ 2 <> 1 ->
  let ecc_factor := (1 + ecc * sin (omega * PI / 180)) / (1 - ecc ^ 2) in
  let inc_inv := (b / a) * ecc_factor in
  (b > 1 + p \/ inc_inv >= 1 ->
   inclination_step cfg orc instrument a b p t0 P ecc omega model s
   = (Return floor_value, s))
  /\ (forall e,
         b <= 1 + p -> -1 <= inc_inv < 1 ->
         Dict.get (lc_dictionary s) instrument = Some e ->
         let tp := with_orbit (params e) t0 P p a
                              (acos inc_inv * 180 / PI) ecc omega in
         inclination_step cfg orc instrument a b p t0 P ecc omega model s
         = multiply_lcmodel cfg orc instrument tp model
             (with_lc_dictionary
                s (Dict.set (lc_dictionary s) instrument (with_params e tp)))).
Proof.
  intros _ _ ecc_factor inc_inv. split.
  - intros Hbad. unfold inclination_step.
    fold ecc_factor. fold inc_inv.
    destruct (Rgt_dec b (1 + p)) as [Hb | Hb].
    + rewrite gtb_true by exact Hb. reflexivity.
    + rewrite gtb_false by lra.
      destruct Hbad as [Hbad | Hbad]; [contradiction |].
      rewrite geb_true by exact Hbad. reflexivity.
  - intros e Hb [_ Hinc] He tp. unfold inclination_step.
    fold ecc_factor. fold inc_inv.
    rewrite gtb_false by exact Hb. rewrite geb_false by exact Hinc.
    cbn [orb negb].
    rewrite (bind_next _ _ s s e) by (apply lc_entry_of_some; exact He).
    reflexivity.
Qed.

(** An impact parameter of 2 with a radius ratio of 0.1: no transit, the
    sample is floored. *)
Lemma inclination_step_spec_witness :
  inclination_step Sample.transit_config Sample.flat_oracles "TESS"
                   12 2 0.1 2 3 0 0 [1] Sample.transit_store
  = (Return floor_value, Sample.transit_store).
Proof.
  apply (proj1 (inclination_step_spec
                  Sample.transit_config Sample.flat_oracles "TESS"%string
                  12 2 0.1 2 3 0 0 [1] Sample.transit_store
                  ltac:(lra) ltac:(lra))).
  left. lra.
Defined.

(** C3, the claim as stated, fails: for a central transit ([b = 0]) the
    code hands the transit model an inclination of 90 (degrees), not
    [arccos(inc_inv)], which is pi/2. *)
Lemma inclination_fed_in_degrees :
  exists v s',
    loglike Sample.transit_config Sample.flat_oracles [3; 0]
            Sample.transit_store = (Some v, s')
    /\ option_map (fun e => tp_inc (params e))
                  (Dict.get (lc_dictionary s') "TESS") = Some 90
    /\ 90 <> acos (0 / 12 * ((1 + 0 * sin 0) / (1 - 0 ^ 2))).
Proof.
  destruct (transit_sample_run 3 0 ltac:(lra) ltac:(lra))
    as (v & s' & Hrun & _ & _ & _ & Hinc).
  exists v, s'. split; [exact Hrun | split].
  - rewrite Hinc. f_equal.
    replace (0 / 12 * ((1 + 0 * sin (0 * PI / 180)) / (1 - 0 ^ 2))) with 0
      by lra.
    rewrite acos_0. pose proof PI_RGT_0. field. lra.
  - replace (0 / 12 * ((1 + 0 * sin 0) / (1 - 0 ^ 2))) with 0 by lra.
    rewrite acos_0. pose proof PI_4. lra.
Qed.

(* ----------------------------------------------------------------- *)
(** ** The (r1, r2) sampling of (b, p) *)

Lemma planet_geometry_efficient (cfg : config) (i : nat) (s : store)
      (a0 r1 r2 t0 P : R) :
  efficient_bp cfg = true ->
  cvalue_in s (if fitrho cfg then "rho" else "a_p" ++ Num.str i) = Some a0 ->
  cvalue_in s ("r1_p" ++ Num.str i) = Some r1 ->
  cvalue_in s ("r2_p" ++ Num.str i) = Some r2 ->
  cvalue_in s ("t0_p" ++ Num.str i) = Some t0 ->
  cvalue_in s ("P_p" ++ Num.str i) = Some P ->
  planet_geometry cfg i s
  = (Next (if fitrho cfg then a_from_rho a0 P else a0,
           fst (bp_from_r (pl cfg) (pu cfg) r1 r2),
           snd (bp_from_r (pl cfg) (pu cfg) r1 r2), t0, P), s).
Proof.
  intros Heff Ha Hr1 Hr2 Ht0 HP. unfold planet_geometry. rewrite Heff.
  destruct (fitrho cfg); cbn [negb];
    unfold bind at 1;
    rewrite (bind_next _ _ s s a0) by (apply cvalue_of_some; exact Ha);
    rewrite (bind_next _ _ s s r1) by (apply cvalue_of_some; exact Hr1);
    rewrite (bind_next _ _ s s r2) by (apply cvalue_of_some; exact Hr2);
    rewrite (bind_next _ _ s s t0) by (apply cvalue_of_some; exact Ht0);
    rewrite (bind_next _ _ s s P) by (apply cvalue_of_some; exact HP);
    reflexivity.
Qed.

(** C4. Under the efficient sampling, with [Ar = (pu-pl)/(2+pl+pu)], the
    geometry of a planet is computed from its (r1, r2) as
    [b = (1+pl)(1+(r1-1)/(1-Ar))], [p = (1-r2) pl + r2 pu] when [r1 > Ar],
    and as [b = (1+pl) + sqrt(r1/Ar) r2 (pu-pl)],
    [p = pu + (pl-pu) sqrt(r1/Ar) (1-r2)] when [r1 <= Ar]. *)
Theorem efficient_bp_sampling (cfg : config) (i : nat) (s : store)
        (a0 r1 r2 t0 P : R) :
  efficient_bp cfg = true ->
  cvalue_in s (if fitrho cfg then "rho" else "a_p" ++ Num.str i) = Some a0 ->
  cvalue_in s ("r1_p" ++ Num.str i) = Some r1 ->
  cvalue_in s ("r2_p" ++ Num.str i) = Some r2 ->
  cvalue_in s ("t0_p" ++ Num.str i) = Some t0 ->
  cvalue_in s ("P_p" ++ Num.str i) = Some P ->
  let pl := pl cfg in
  let pu := pu cfg in
  let A := (pu - pl) / (2 + pl + pu) in
  let a := if fitrho cfg then a_from_rho a0 P else a0 in
  (r1 > A ->
   planet_geometry cfg i s
   = (Next (a, (1 + pl) * (1 + (r1 - 1) / (1 - A)),
            (1 - r2) * pl + r2 * pu, t0, P), s))
  /\ (r1 <= A ->
      planet_geometry cfg i s
      = (Next (a, (1 + pl) + sqrt (r1 / A) * r2 * (pu - pl),
               pu + (pl - pu) * sqrt (r1 / A) * (1 - r2), t0, P), s)).
Proof.
  intros Heff Ha Hr1 Hr2 Ht0 HP pl0 pu0 A a.
  rewrite (planet_geometry_efficient cfg i s a0 r1 r2 t0 P) by assumption.
  unfold bp_from_r, Ar. fold pl0 pu0. fold A. fold a.
  split; intros Hcmp.
  - rewrite gtb_true by exact Hcmp. reflexivity.
  - rewrite gtb_false by exact Hcmp. reflexivity.
Qed.

(** With pl = 0 and pu = 1, Ar = 1/3; the sample planet has
    (r1, r2) = (0.5, 0.25), on the [r1 > Ar] side. *)
Lemma efficient_bp_sampling_witness :
  planet_geometry Sample.efficient_config 1 Sample.efficient_store
  = (Next (12, (1 + 0) * (1 + (0.5 - 1) / (1 - (1 - 0) / (2 + 0 + 1))),
           (1 - 0.25) * 0 + 0.25 * 1, 2, 3), Sample.efficient_store).
Proof.
  apply (proj1 (efficient_bp_sampling
                  Sample.efficient_config 1 Sample.efficient_store
                  12 0.5 0.25 2 3 eq_refl eq_refl eq_refl eq_refl eq_refl
                  eq_refl)).
  cbn. lra.
Defined.

Lemma Rabs_le_between (x b : R) : Rabs x <= b -> - b <= x <= b.
Proof.
  intros H. pose proof (Rle_abs x) as H1. pose proof (Rle_abs (- x)) as H2.
  rewrite Rabs_Ropp in H2. lra.
Qed.

(** C5, the claim as stated, fails: with pl = 0 and pu = 1 the points
    (r1, r2) = (0, 0) and (0, 1) of the unit square have the same image
    (b, p) = (1, 1), so no inverse recovers both within 1e-9. *)
Lemma bp_from_r_not_injective :
  bp_from_r 0 1 0 0 = bp_from_r 0 1 0 1
  /\ ~ exists inverse : R * R -> R * R,
        forall r1 r2, 0 <= r1 <= 1 -> 0 <= r2 <= 1 ->
          Rabs (fst (inverse (bp_from_r 0 1 r1 r2)) - r1) <= 1e-9
          /\ Rabs (snd (inverse (bp_from_r 0 1 r1 r2)) - r2) <= 1e-9.
Proof.
  assert (Heq : bp_from_r 0 1 0 0 = bp_from_r 0 1 0 1).
  { unfold bp_from_r, Ar. rewrite gtb_false by lra.
    replace (0 / ((1 - 0) / (2 + 0 + 1))) with 0 by lra.
    rewrite sqrt_0. f_equal; lra. }
  split; [exact Heq |].
  intros [inverse Hinv].
  destruct (Hinv 0 0 ltac:(lra) ltac:(lra)) as [_ H0].
  destruct (Hinv 0 1 ltac:(lra) ltac:(lra)) as [_ H1].
  rewrite <- Heq in H1.
  apply Rabs_le_between in H0. apply Rabs_le_between in H1. lra.
Qed.

(** At [r1 = 0] the whole edge of the unit square has one image: every
    [r2] is mapped to (b, p) = (1, 1). *)
Lemma bp_from_r_at_zero (r2 : R) : bp_from_r 0 1 0 r2 = (1, 1).
Proof.
  unfold bp_from_r, Ar. rewrite gtb_false by lra.
  replace (0 / ((1 - 0) / (2 + 0 + 1))) with 0 by lra.
  rewrite sqrt_0. f_equal; lra.
Qed.

(** C5 (as amended). With pl = 0 and pu = 1, for every (r1, r2) of the
    unit square with 0 < r1 < 1, on either side of [Ar], mapping to (b, p)
    and applying the inverse recovers (r1, r2). *)
Theorem bp_from_r_invertible (r1 r2 : R) :
  0 < r1 < 1 -> 0 <= r2 <= 1 ->
  let bp := bp_from_r 0 1 r1 r2 in
  r_from_bp 0 1 (fst bp) (snd bp) = (r1, r2).
Proof.
  intros Hr1 Hr2 bp. unfold bp, bp_from_r, r_from_bp, Ar.
  replace ((1 - 0) / (2 + 0 + 1)) with (/ 3) by lra.
  destruct (Rgt_dec r1 (/ 3)) as [Hhi | Hlo].
  - rewrite gtb_true by exact Hhi. cbn [fst snd].
    rewrite ltb_true by lra. f_equal; field.
  - rewrite gtb_false by lra. cbn [fst snd].
    assert (Hpos : 0 < r1 / / 3) by (unfold Rdiv; rewrite Rinv_inv; lra).
    pose proof (sqrt_lt_R0 _ Hpos) as Hs.
    pose proof (sqrt_sqrt (r1 / / 3) ltac:(lra)) as Hss.
    set (q := sqrt (r1 / / 3)) in *.
    assert (Hq : q * r2 >= 0) by nra.
    rewrite ltb_false by lra.
    f_equal.
    + replace ((1 + 0 + q * r2 * (1 - 0) - (1 + 0)
                + (1 - (1 + (0 - 1) * q * (1 - r2)))) / (1 - 0)) with q
        by (field; lra).
      replace (q ^ 2) with (q * q) by ring. rewrite Hss.
      unfold Rdiv. rewrite Rinv_inv. field.
    + replace ((1 + 0 + q * r2 * (1 - 0) - (1 + 0)
                + (1 - (1 + (0 - 1) * q * (1 - r2)))) / (1 - 0) * (1 - 0))
        with q by (field; lra).
      field. lra.
Qed.

(** One point on each side of Ar = 1/3. *)
Lemma bp_from_r_invertible_witness :
  r_from_bp 0 1 (fst (bp_from_r 0 1 0.5 0.25)) (snd (bp_from_r 0 1 0.5 0.25))
  = (0.5, 0.25)
  /\ r_from_bp 0 1 (fst (bp_from_r 0 1 0.25 0.5)) (snd (bp_from_r 0 1 0.25 0.5))
     = (0.25, 0.5).
Proof.
  split.
  - apply (bp_from_r_invertible 0.5 0.25); lra.
  - apply (bp_from_r_invertible 0.25 0.5); lra.
Defined.

(* ----------------------------------------------------------------- *)
(** ** The eccentricity parametrizations *)

(** C7. A planet tagged 1 (e cos w, e sin w) resolves to
    [e = sqrt(ecosomega^2 + esinomega^2)], [w = atan2(esinomega, ecosomega)];
    a planet tagged 2 (sqrt(e) cos w, sqrt(e) sin w) to
    [e = secosomega^2 + sesinomega^2], [w = atan2(sesinomega, secosomega)];
    the angle is scaled by 180/pi for the transit model and left in
    radians for the radial-velocity model. *)
Theorem eccentricity_resolver (cfg : config) (i : nat) (s : store) :
  (forall x y,
      cvalue_in s ("ecosomega_p" ++ Num.str i) = Some x ->
      cvalue_in s ("esinomega_p" ++ Num.str i) = Some y ->
      (get_nat (ecc_parametrization_transit cfg) i = Some 1%nat ->
       resolve_ecc_transit cfg i s
       = (Next (sqrt (x ^ 2 + y ^ 2), Num.arctan2 y x * 180 / PI), s))
      /\ (get_nat (ecc_parametrization_rv cfg) i = Some 1%nat ->
          resolve_ecc_rv cfg i s
          = (Next (sqrt (x ^ 2 + y ^ 2), Num.arctan2 y x), s)))
  /\ (forall x y,
         cvalue_in s ("secosomega_p" ++ Num.str i) = Some x ->
         cvalue_in s ("sesinomega_p" ++ Num.str i) = Some y ->
         (get_nat (ecc_parametrization_transit cfg) i = Some 2%nat ->
          resolve_ecc_transit cfg i s
          = (Next (x ^ 2 + y ^ 2, Num.arctan2 y x * 180 / PI), s))
         /\ (get_nat (ecc_parametrization_rv cfg) i = Some 2%nat ->
             resolve_ecc_rv cfg i s
             = (Next (x ^ 2 + y ^ 2, Num.arctan2 y x), s))).
Proof.
  split; intros x y Hx Hy; split; intros Htag;
    unfold resolve_ecc_transit, resolve_ecc_rv;
    rewrite Htag; unfold of_option;
    rewrite bind_ret; cbn [Nat.eqb];
    rewrite (bind_next _ _ s s x) by (apply cvalue_of_some; exact Hx);
    rewrite (bind_next _ _ s s y) by (apply cvalue_of_some; exact Hy);
    reflexivity.
Qed.

(** The sample planet has (e cos w, e sin w) = (0.3, 0.4). *)
Lemma eccentricity_resolver_witness :
  resolve_ecc_transit Sample.efficient_config 1 Sample.efficient_store
  = (Next (sqrt (0.3 ^ 2 + 0.4 ^ 2), Num.arctan2 0.4 0.3 * 180 / PI),
     Sample.efficient_store)
  /\ resolve_ecc_rv Sample.efficient_config 1 Sample.efficient_store
     = (Next (sqrt (0.3 ^ 2 + 0.4 ^ 2), Num.arctan2 0.4 0.3),
        Sample.efficient_store).
Proof.
  split.
  - apply (proj1 (proj1 (eccentricity_resolver
                           Sample.efficient_config 1 Sample.efficient_store)
                        0.3 0.4 eq_refl eq_refl)).
    reflexivity.
  - apply (proj2 (proj1 (eccentricity_resolver
                           Sample.efficient_config 1 Sample.efficient_store)
                        0.3 0.4 eq_refl eq_refl)).
    reflexivity.
Defined.

(* ----------------------------------------------------------------- *)
(** ** The GP vector of the celerite quasi-periodic kernel *)

(** C8, evaluated on the code. For B = 2, L = 5, Prot = 3, C = 1 and a
    jitter of 100 ppm the photometric vector is
    [log 2, log 5, log 3, log 1, log 100e-6], of length 5.  The vector of
    the radial-velocity GP, allocated by [np.zeros(5)] at line 499, is
    [log 2, log 5, log 3, log 1, 0]: its length is 5, not 4, and its last
    entry is never written. *)
Theorem celerite_vector_layout :
  (exists s',
      marshal_lc_GPVector "TESS" Sample.celerite_store = (Next tt, s')
      /\ option_map GPVector (Dict.get (lc_dictionary s') "TESS")
         = Some [ln 2; ln 5; ln 3; ln 1; ln 100e-6])
  /\ (exists s',
         marshal_rv_GPVector Sample.celerite_store = (Next tt, s')
         /\ rv_GPVector (rv_dictionary s') = [ln 2; ln 5; ln 3; ln 1; 0]
         /\ List.length (rv_GPVector (rv_dictionary s')) = 5%nat).
Proof.
  split.
  - eexists. split.
    + run. reflexivity.
    + run. replace (100 * 1e-6) with 100e-6 by lra. reflexivity.
  - eexists. split; [| split].
    + run. reflexivity.
    + reflexivity.
    + reflexivity.
Qed.

(* ----------------------------------------------------------------- *)
(** ** The prior transform *)

Lemma transform_prior_dispatched (utils : utils_transforms) (u : R)
      (pi : pinfo) :
  supported_kind (ptype pi) = true ->
  (ptype pi =? "fixed")%string = false ->
  dispatched utils u pi.
Proof.
  intros Hsup Hfree. unfold supported_kind in Hsup. rewrite Hfree in Hsup.
  cbn [orb] in Hsup. unfold dispatched, transform_prior.
  destruct (ptype pi =? "uniform")%string eqn:H1.
  { left. split; [apply String.eqb_eq; exact H1 | reflexivity]. }
  destruct (ptype pi =? "normal")%string eqn:H2.
  { right; left. split; [apply String.eqb_eq; exact H2 | reflexivity]. }
  destruct (ptype pi =? "jeffreys")%string eqn:H3.
  { right; right; left.
    split; [apply String.eqb_eq; exact H3 | reflexivity]. }
  destruct (ptype pi =? "beta")%string eqn:H4.
  { right; right; right; left.
    split; [apply String.eqb_eq; exact H4 | reflexivity]. }
  destruct (ptype pi =? "exponential")%string eqn:H5.
  { right; right; right; right.
    split; [apply String.eqb_eq; exact H5 | reflexivity]. }
  cbn in Hsup. discriminate.
Qed.

Lemma dispatched_defined (utils : utils_transforms) (u : R) (pi : pinfo) :
  dispatched utils u pi -> transform_prior utils u pi <> NoneValue.
Proof.
  unfold dispatched, two_values.
  intros [[_ H] | [[_ H] | [[_ H] | [[_ H] | [_ H]]]]]; rewrite H;
    try discriminate;
    destruct (nth_error (value pi) 0), (nth_error (value pi) 1);
    discriminate.
Qed.

(** Outside the supported kinds [transform_prior] falls off its end. *)
Lemma transform_prior_unsupported (utils : utils_transforms) (u : R)
      (pi : pinfo) :
  supported_kind (ptype pi) = false ->
  transform_prior utils u pi = NoneValue.
Proof.
  unfold supported_kind, transform_prior. intros H.
  repeat (apply orb_false_elim in H; destruct H as [H ?]).
  repeat match goal with Heq : (_ =? _)%string = false |- _ =>
                           rewrite Heq; clear Heq end.
  reflexivity.
Qed.

Lemma write_cell_same (x : cell) :
  forall (a : list cell) (k : nat) (a' : list cell),
    write_cell k x a = Some a' -> nth_error a' k = Some x.
Proof.
  induction a as [| y a IH]; intros [| k] a' H; cbn in H; try discriminate.
  - inversion H. reflexivity.
  - destruct (write_cell k x a) as [r |] eqn:Hr; [| discriminate].
    inversion H. cbn. exact (IH _ _ Hr).
Qed.

Lemma write_cell_other (x : cell) :
  forall (a : list cell) (k : nat) (a' : list cell) (j : nat),
    write_cell k x a = Some a' -> j <> k ->
    nth_error a' j = nth_error a j.
Proof.
  induction a as [| y a IH]; intros [| k] a' j H Hj; cbn in H;
    try discriminate.
  - inversion H. destruct j; [contradiction | reflexivity].
  - destruct (write_cell k x a) as [r |] eqn:Hr; [| discriminate].
    inversion H. destruct j; [reflexivity |].
    cbn. apply (IH _ _ _ Hr). lia.
Qed.

Lemma write_cell_length (x : cell) :
  forall (a : list cell) (k : nat),
    (k < List.length a)%nat ->
    exists a', write_cell k x a = Some a'
               /\ List.length a' = List.length a.
Proof.
  induction a as [| y a IH]; intros [| k] Hk; cbn in Hk; try lia.
  - eexists. split; reflexivity.
  - destruct (IH k ltac:(lia)) as (r & Hr & Hlen).
    exists (y :: r). cbn. rewrite Hr. split; [reflexivity | cbn; lia].
Qed.

Lemma count_free_cons (pname : string) (pi : pinfo) (rest : dict pinfo) :
  count_free ((pname, pi) :: rest)
  = if negb (ptype pi =? "fixed")%string
    then S (count_free rest) else count_free rest.
Proof.
  unfold count_free. cbn [filter snd].
  destruct (negb (ptype pi =? "fixed")%string); reflexivity.
Qed.

(** Every cell the loop writes holds a float, and the cells below the
    counter are not touched. *)
Lemma prior_loop_defined (utils : utils_transforms) (dynesty : bool)
      (cube : list R) :
  forall (entries : dict pinfo) (pcounter : nat) (out out' : list cell),
    readpriors_accepts entries = true ->
    prior_loop utils dynesty entries pcounter cube out = Some out' ->
    (forall k, (pcounter <= k < pcounter + count_free entries)%nat ->
               exists x, nth_error out' k = Some (Some x))
    /\ (forall k, (k < pcounter)%nat -> nth_error out' k = nth_error out k).
Proof.
  induction entries as [| [pname pi] rest IH]; intros pcounter out out' Hacc H.
  - cbn in H. inversion H; subst. split; [cbn; intros; lia | reflexivity].
  - cbn [readpriors_accepts forallb snd] in Hacc.
    apply andb_prop in Hacc. destruct Hacc as [Hsup Hacc].
    fold (readpriors_accepts rest) in Hacc.
    rewrite count_free_cons. cbn [prior_loop] in H.
    destruct (ptype pi =? "fixed")%string eqn:Hfix; cbn [negb] in *.
    + exact (IH _ _ _ Hacc H).
    + destruct (nth_error cube pcounter) as [u |]; [| discriminate].
      pose proof (dispatched_defined utils u pi
                    (transform_prior_dispatched utils u pi Hsup Hfix)) as Hdef.
      destruct (transform_prior utils u pi) as [x | |];
        [| contradiction | discriminate].
      destruct (write_cell pcounter (Some x) out) as [out1 |] eqn:Hw;
        [| discriminate].
      destruct (IH _ _ _ Hacc H) as [IHnew IHold].
      split.
      * intros k Hk. destruct (Nat.eq_dec k pcounter) as [-> | Hne].
        -- exists x. rewrite IHold by lia. exact (write_cell_same _ _ _ _ Hw).
        -- apply IHnew. lia.
      * intros k Hk. rewrite IHold by lia.
        apply (write_cell_other _ _ _ _ _ Hw). lia.
Qed.

Lemma prior_loop_total (utils : utils_transforms) (dynesty : bool)
      (cube : list R) :
  forall (entries : dict pinfo) (pcounter : nat) (out : list cell),
    readpriors_accepts entries = true ->
    (forall pname pi, In (pname, pi) entries ->
                      (ptype pi =? "fixed")%string = false ->
                      (2 <= List.length (value pi))%nat) ->
    (pcounter + count_free entries <= List.length cube)%nat ->
    (pcounter + count_free entries <= List.length out)%nat ->
    exists out', prior_loop utils dynesty entries pcounter cube out = Some out'.
Proof.
  induction entries as [| [pname pi] rest IH];
    intros pcounter out Hacc Hval Hcube Hout.
  - eexists. reflexivity.
  - cbn [readpriors_accepts forallb snd] in Hacc.
    apply andb_prop in Hacc. destruct Hacc as [Hsup Hacc].
    fold (readpriors_accepts rest) in Hacc.
    rewrite count_free_cons in Hcube, Hout. cbn [prior_loop].
    assert (Hval' : forall pname0 pi0, In (pname0, pi0) rest ->
                      (ptype pi0 =? "fixed")%string = false ->
                      (2 <= List.length (value pi0))%nat)
      by (intros; eapply Hval; [right; eassumption | assumption]).
    destruct (ptype pi =? "fixed")%string eqn:Hfix; cbn [negb] in *.
    + apply IH; assumption.
    + destruct (nth_error cube pcounter) as [u |] eqn:Hu;
        [| apply nth_error_None in Hu; lia].
      specialize (Hval pname pi (or_introl eq_refl) Hfix).
      assert (Hv : exists x, transform_prior utils u pi = Value x).
      { destruct (value pi) as [| v0 [| v1 vs]] eqn:Hvs; cbn in Hval; try lia.
        destruct (transform_prior_dispatched utils u pi Hsup Hfix)
          as [[_ H] | [[_ H] | [[_ H] | [[_ H] | [_ H]]]]];
          rewrite H; unfold two_values; rewrite ?Hvs; cbn; eexists;
          reflexivity. }
      destruct Hv as [x Hx]. rewrite Hx.
      destruct (write_cell_length (Some x) out pcounter ltac:(lia))
        as (out1 & Hw & Hlen).
      rewrite Hw. apply IH; try assumption; lia.
Qed.

(** C9. Once setup has accepted the registry (every kind supported), the
    prior transform of a free parameter always takes the branch of one of
    the five kinds and never hands back [None]; whatever [prior] returns
    holds a float for every free parameter; and on a well-formed call
    [prior] does return. *)
Theorem prior_never_undefined (utils : utils_transforms)
        (registry : dict pinfo) :
  readpriors_accepts registry = true ->
  (forall pname pi u,
      In (pname, pi) registry -> (ptype pi =? "fixed")%string = false ->
      dispatched utils u pi /\ transform_prior utils u pi <> NoneValue)
  /\ (forall cfg cube transformed_priors out,
         prior utils cfg registry cube transformed_priors = Some out ->
         forall k, (k < count_free registry)%nat ->
                   exists x, nth_error out k = Some (Some x))
  /\ (forall cfg cube transformed_priors,
         (forall pname pi, In (pname, pi) registry ->
                           (ptype pi =? "fixed")%string = false ->
                           (2 <= List.length (value pi))%nat) ->
         (count_free registry <= List.length cube)%nat ->
         (count_free registry <= List.length transformed_priors)%nat ->
         exists out,
           prior utils cfg registry cube transformed_priors = Some out).
Proof.
  intros Hacc. split; [| split].
  - intros pname pi u Hin Hfree.
    assert (Hsup : supported_kind (ptype pi) = true).
    { unfold readpriors_accepts in Hacc. rewrite forallb_forall in Hacc.
      exact (Hacc (pname, pi) Hin). }
    pose proof (transform_prior_dispatched utils u pi Hsup Hfree) as Hd.
    split; [exact Hd | exact (dispatched_defined utils u pi Hd)].
  - intros cfg cube tp out H k Hk. unfold prior in H.
    destruct (prior_loop_defined utils (use_dynesty cfg) cube registry 0 _
                                 out Hacc H) as [Hnew _].
    apply Hnew. lia.
  - intros cfg cube tp Hval Hcube Htp. unfold prior.
    apply prior_loop_total; try assumption; cbn [Nat.add]; try assumption.
    destruct (use_dynesty cfg); [assumption | rewrite length_map; assumption].
Qed.

(** The sample registry, whose two free parameters are uniform. *)
Lemma prior_never_undefined_witness :
  exists out,
    prior Sample.utils Sample.transit_config Sample.transit_registry
          [0.5; 0.5] [Some 0; Some 0]
    = Some out.
Proof.
  apply (proj2 (proj2 (prior_never_undefined
                         Sample.utils Sample.transit_registry eq_refl))).
  - intros pname pi Hin Hfree. cbn in Hin.
    repeat (destruct Hin as [Hin | Hin];
            [inversion Hin; subst; cbn in *; try discriminate; lia |]).
    contradiction.
  - cbn. lia.
  - cbn. lia.
Defined.

(* ----------------------------------------------------------------- *)
(** ** What [loglike] leaves behind *)

Lemma kp_ret {A} (a : A) : keeps_priors (ret a).
Proof. intros s o s' H. inversion H. reflexivity. Qed.

Lemma kp_return {A} (v : R) : keeps_priors (@return_ A v).
Proof. intros s o s' H. inversion H. reflexivity. Qed.

Lemma kp_raise {A} : keeps_priors (@raise A).
Proof. intros s o s' H. inversion H. reflexivity. Qed.

Lemma kp_of_option {A} (x : option A) : keeps_priors (of_option x).
Proof. destruct x; [apply kp_ret | apply kp_raise]. Qed.

Lemma kp_get_store : keeps_priors get_store.
Proof. intros s o s' H. inversion H. reflexivity. Qed.

Lemma kp_modify (f : store -> store) :
  (forall s, priors (f s) = priors s) -> keeps_priors (modify f).
Proof. intros Hf s o s' H. inversion H. apply Hf. Qed.

Lemma kp_bind {A B} (m : M A) (k : A -> M B) :
  keeps_priors m -> (forall a, keeps_priors (k a)) -> keeps_priors (bind m k).
Proof.
  intros Hm Hk s o s' H. unfold bind in H.
  destruct (m s) as [[a | v |] s1] eqn:Hms.
  - rewrite (Hk a s1 o s' H). exact (Hm _ _ _ Hms).
  - inversion H; subst. exact (Hm _ _ _ Hms).
  - inversion H; subst. exact (Hm _ _ _ Hms).
Qed.

Lemma kp_for_each {A B} (body : A -> B -> M B) :
  (forall x acc, keeps_priors (body x acc)) ->
  forall xs acc, keeps_priors (for_each xs acc body).
Proof.
  intros Hbody. induction xs as [| x xs IH]; intros acc; cbn [for_each].
  - apply kp_ret.
  - apply kp_bind; [apply Hbody | intros a; apply IH].
Qed.

Lemma kp_for_range {B} (body : nat -> nat -> B -> M B) :
  (forall n i acc, keeps_priors (body n i acc)) ->
  forall xs n acc, keeps_priors (for_range xs n acc body).
Proof.
  intros Hbody. induction xs as [| x xs IH]; intros n acc; cbn [for_range].
  - apply kp_ret.
  - apply kp_bind; [apply Hbody | intros a; apply IH].
Qed.

Create HintDb frame.

#[local] Hint Resolve kp_ret kp_return kp_raise kp_of_option kp_get_store
  : frame.

(** Walk through a computation: every step either leaves the store alone
    or rewrites a field other than [priors]. *)
Ltac frame :=
  repeat first
    [ progress intros
    | solve [auto with frame]
    | apply kp_bind
    | apply kp_for_each
    | apply kp_for_range
    | apply kp_modify; intros; reflexivity
    | match goal with
      | |- keeps_priors (if ?b then _ else _) => destruct b
      | |- keeps_priors (match ?x with _ => _ end) => destruct x
      end ].

Lemma kp_cvalue_of (name : string) : keeps_priors (cvalue_of name).
Proof. unfold cvalue_of. frame. Qed.

Lemma kp_lc_entry_of (name : string) : keeps_priors (lc_entry_of name).
Proof. unfold lc_entry_of. frame. Qed.

Lemma kp_set_lc_entry (name : string) (e : lc_entry) :
  keeps_priors (set_lc_entry name e).
Proof. unfold set_lc_entry. frame. Qed.

Lemma kp_set_radvel (key : string) (v : R) : keeps_priors (set_radvel key v).
Proof. unfold set_radvel. frame. Qed.

#[local] Hint Resolve kp_cvalue_of kp_lc_entry_of kp_set_lc_entry
  kp_set_radvel : frame.

Lemma kp_period_gate (numbering : list nat) :
  keeps_priors (period_gate numbering).
Proof. unfold period_gate, period_step. frame. Qed.

Lemma kp_set_limb_darkening (instrument : string) :
  keeps_priors (set_limb_darkening instrument).
Proof. unfold set_limb_darkening. frame. Qed.

Lemma kp_planet_geometry (cfg : config) (i : nat) :
  keeps_priors (planet_geometry cfg i).
Proof. unfold planet_geometry. frame. Qed.

Lemma kp_resolve_ecc_transit (cfg : config) (i : nat) :
  keeps_priors (resolve_ecc_transit cfg i).
Proof. unfold resolve_ecc_transit. frame. Qed.

Lemma kp_resolve_ecc_rv (cfg : config) (i : nat) :
  keeps_priors (resolve_ecc_rv cfg i).
Proof. unfold resolve_ecc_rv. frame. Qed.

#[local] Hint Resolve kp_period_gate kp_set_limb_darkening kp_planet_geometry
  kp_resolve_ecc_transit kp_resolve_ecc_rv : frame.

Lemma kp_transit_model_step (cfg : config) (orc : oracles)
      (instrument : string) (a b p t0 P ecc omega : R) (model : array) :
  keeps_priors
    (transit_model_step cfg orc instrument a b p t0 P ecc omega model).
Proof.
  unfold transit_model_step, inclination_step, multiply_lcmodel. frame.
Qed.

#[local] Hint Resolve kp_transit_model_step : frame.

Lemma kp_photometric_section (cfg : config) (orc : oracles) (loc : locals) :
  keeps_priors (photometric_section cfg orc loc).
Proof. unfold photometric_section, transit_planet. frame. Qed.

Lemma kp_marshal_lc_GPVector (instrument : string) :
  keeps_priors (marshal_lc_GPVector instrument).
Proof. unfold marshal_lc_GPVector, set_lc_GPVector, lc_hyper. frame. Qed.

#[local] Hint Resolve kp_photometric_section kp_marshal_lc_GPVector : frame.

Lemma kp_lc_instrument_likelihood (cfg : config) (orc : oracles)
      (loc : locals) (instrument : string) (ll : R) :
  keeps_priors (lc_instrument_likelihood cfg orc loc instrument ll).
Proof. unfold lc_instrument_likelihood. frame. Qed.

Lemma kp_stellar_density_term (cfg : config) (loc : locals) (ll : R) :
  keeps_priors (stellar_density_term cfg loc ll).
Proof. unfold stellar_density_term. frame. Qed.

Lemma kp_rv_planet (cfg : config) (n i : nat) (u : unit) :
  keeps_priors (rv_planet cfg n i u).
Proof. unfold rv_planet. frame. Qed.

#[local] Hint Resolve kp_lc_instrument_likelihood kp_stellar_density_term
  kp_rv_planet : frame.

Lemma kp_rv_part (cfg : config) (orc : oracles) (ll : R) :
  keeps_priors (rv_part cfg orc ll).
Proof.
  unfold rv_part, rv_section, rv_trend, rv_instrument_likelihood, rv_gp_term,
    marshal_rv_GPVector, set_rv_GPVector, rv_hyper.
  frame.
Qed.

#[local] Hint Resolve kp_rv_part : frame.

(** Everything [loglike] does after it has assigned the sample. *)
Lemma kp_after_assignment (cfg : config) (orc : oracles) :
  keeps_priors
    (ll2 <- (loc <- photometric_section cfg orc
                      {| lcmodel := None; loc_a := None; loc_P := None |} ;;
             ll1 <- for_each (inames_lc cfg) 0
                             (lc_instrument_likelihood cfg orc loc) ;;
             stellar_density_term cfg loc ll1) ;;
     rv_part cfg orc ll2).
Proof. frame. Qed.

Lemma loglike_body_split (cfg : config) (orc : oracles) (cube : list R)
      (s : store) :
  loglike_body cfg orc cube s
  = (assign_cvalues cube ;;;
     ll2 <- (loc <- photometric_section cfg orc
                      {| lcmodel := None; loc_a := None; loc_P := None |} ;;
             ll1 <- for_each (inames_lc cfg) 0
                             (lc_instrument_likelihood cfg orc loc) ;;
             stellar_density_term cfg loc ll1) ;;
     rv_part cfg orc ll2) s.
Proof.
  unfold loglike_body, photometric_part. unfold bind at 1 2 5.
  destruct (assign_cvalues cube s) as [[[] | v |] s1]; reflexivity.
Qed.

Lemma loglike_keeps_sample (cfg : config) (orc : oracles) (cube : list R)
      (s s' : store) (v : R) :
  loglike cfg orc cube s = (Some v, s') ->
  priors s' = assigned cube 0 (priors s).
Proof.
  unfold loglike. rewrite loglike_body_split. unfold bind at 1.
  unfold assign_cvalues.
  destruct (assign_loop cube 0 (priors s)) as [[[] | v1 |] p'] eqn:Hassign.
  - intros H. rewrite <- (assign_loop_next _ _ _ _ Hassign).
    match type of H with
    | context [?m (with_priors s p')] =>
        destruct (m (with_priors s p')) as [o s2] eqn:Hrest
    end.
    pose proof (kp_after_assignment cfg orc _ _ _ Hrest) as Hkeep.
    destruct o; inversion H; subst; exact Hkeep.
  - exfalso. exact (assign_loop_no_return _ _ _ _ _ Hassign).
  - discriminate.
Qed.

Lemma cvalue_of_cases (name : string) (s : store) :
  (exists v, cvalue_in s name = Some v /\ cvalue_of name s = (Next v, s))
  \/ cvalue_of name s = (Raise, s).
Proof.
  unfold cvalue_of, bind, get_store, of_option.
  destruct (cvalue_in s name) as [v |].
  - left. exists v. split; reflexivity.
  - right. reflexivity.
Qed.

Lemma resolve_ecc_rv_cases (cfg : config) (i : nat) (s : store) :
  (exists ecc omega, resolve_ecc_rv cfg i s = (Next (ecc, omega), s))
  \/ resolve_ecc_rv cfg i s = (Raise, s).
Proof.
  unfold resolve_ecc_rv.
  destruct (get_nat (ecc_parametrization_rv cfg) i) as [tag |];
    [| right; reflexivity].
  cbn [of_option]. rewrite bind_ret.
  destruct (Nat.eqb tag 0); [| destruct (Nat.eqb tag 1)];
    match goal with
    | |- context [bind (cvalue_of ?k1) _] =>
        destruct (cvalue_of_cases k1 s) as [(x & _ & Hx) | Hx];
        [ rewrite (bind_next _ _ _ _ _ Hx)
        | rewrite (bind_raise _ _ _ _ Hx); right; reflexivity ]
    end;
    match goal with
    | |- context [bind (cvalue_of ?k2) _] =>
        destruct (cvalue_of_cases k2 s) as [(y & _ & Hy) | Hy];
        [ rewrite (bind_next _ _ _ _ _ Hy)
        | rewrite (bind_raise _ _ _ _ Hy); right; reflexivity ]
    end;
    left; eexists; eexists; reflexivity.
Qed.

(** One planet of the RV loop: it either raises before writing anything,
    or is stopped by the gate before writing anything, or writes its five
    radvel parameters from the values the registry holds. *)
Lemma rv_planet_cases (cfg : config) (n i : nat) (s : store) :
  rv_planet cfg n i tt s = (Raise, s)
  \/ (exists ecc omega,
         resolve_ecc_rv cfg i s = (Next (ecc, omega), s) /\ ecc > 1
         /\ rv_planet cfg n i tt s = (Return floor_value, s))
  \/ (exists K t0 P ecc omega,
         cvalue_in s ("K_p" ++ Num.str i) = Some K
         /\ cvalue_in s ("t0_p" ++ Num.str i) = Some t0
         /\ cvalue_in s ("P_p" ++ Num.str i) = Some P
         /\ resolve_ecc_rv cfg i s = (Next (ecc, omega), s) /\ ecc <= 1
         /\ rv_planet cfg n i tt s
            = (Next tt,
               with_radvel_params
                 s (written_planet (radvel_params s) n P t0 omega ecc K))).
Proof.
  destruct (cvalue_of_cases ("K_p" ++ Num.str i) s) as [(K & HK & HK') | HK];
    [| left; unfold rv_planet; rewrite (bind_raise _ _ _ _ HK); reflexivity].
  destruct (cvalue_of_cases ("t0_p" ++ Num.str i) s) as [(t0 & Ht & Ht') | Ht];
    [| left; unfold rv_planet; rewrite (bind_next _ _ _ _ _ HK'),
                                (bind_raise _ _ _ _ Ht); reflexivity].
  destruct (cvalue_of_cases ("P_p" ++ Num.str i) s) as [(P & HP & HP') | HP];
    [| left; unfold rv_planet;
       rewrite (bind_next _ _ _ _ _ HK'), (bind_next _ _ _ _ _ Ht'),
         (bind_raise _ _ _ _ HP); reflexivity].
  destruct (resolve_ecc_rv_cases cfg i s) as [(ecc & omega & He) | He];
    [| left; unfold rv_planet;
       rewrite (bind_next _ _ _ _ _ HK'), (bind_next _ _ _ _ _ Ht'),
         (bind_next _ _ _ _ _ HP'), (bind_raise _ _ _ _ He); reflexivity].
  destruct (rv_planet_spec cfg n i s K t0 P ecc omega HK Ht HP He)
    as [Hfloor Hpass].
  right. destruct (Rgt_dec ecc 1) as [Hgt | Hle].
  - left. exists ecc, omega. repeat split; auto.
  - right. exists K, t0, P, ecc, omega.
    repeat split; auto; try lra. apply Hpass. lra.
Qed.

Lemma for_range_return {B} (body : nat -> nat -> B -> M B) :
  forall (xs : list nat) (n : nat) (acc : B) (s s' : store) (v : R),
    for_range xs n acc body s = (Return v, s') ->
    exists pre i post acc1 s1,
      xs = pre ++ i :: post
      /\ for_range pre n acc body s = (Next acc1, s1)
      /\ body (n + List.length pre)%nat i acc1 s1 = (Return v, s').
Proof.
  induction xs as [| x xs IH]; intros n acc s s' v H.
  - cbn in H. discriminate.
  - rewrite for_range_cons in H.
    destruct (body n x acc s) as [[acc1 | v1 |] s1] eqn:Hbody.
    + destruct (IH _ _ _ _ _ H) as (pre & i & post & acc2 & s2 & Hxs & Hpre & Hi).
      exists (x :: pre), i, post, acc2, s2. split; [| split].
      * rewrite Hxs. reflexivity.
      * rewrite for_range_cons, Hbody. exact Hpre.
      * cbn [List.length]. replace (n + S (List.length pre))%nat
          with (S n + List.length pre)%nat by lia. exact Hi.
    + inversion H; subst. exists [], x, xs, acc, s. split; [| split].
      * reflexivity.
      * reflexivity.
      * cbn [List.length]. rewrite Nat.add_0_r. exact Hbody.
    + discriminate.
Qed.

(** C10. A sample that [loglike] rejects stays in the shared objects.
    Whatever [loglike] returns, the floor included, the registry holds the
    cube's values in the [cvalue] of every free parameter, and only the
    next sample replaces them.  When the RV loop is stopped by the
    eccentricity gate at some planet, the store is the one the planets
    before it left, with the five radvel parameters each of them wrote
    from the sample; nothing is put back. *)
Theorem rejection_keeps_sample (cfg : config) (orc : oracles) :
  (forall cube s v s',
      loglike cfg orc cube s = (Some v, s') ->
      priors s' = assigned cube 0 (priors s))
  /\ (forall cube cube' registry,
         assigned cube' 0 (assigned cube 0 registry)
         = assigned cube' 0 registry)
  /\ (forall numbering n s0 v s',
         for_range numbering n tt (rv_planet cfg) s0 = (Return v, s') ->
         v = floor_value
         /\ exists pre i post,
             numbering = pre ++ i :: post
             /\ for_range pre n tt (rv_planet cfg) s0 = (Next tt, s')
             /\ rv_planet cfg (n + List.length pre) i tt s'
                = (Return floor_value, s'))
  /\ (forall n i s s',
         rv_planet cfg n i tt s = (Next tt, s') ->
         exists K t0 P ecc omega,
           cvalue_in s ("K_p" ++ Num.str i) = Some K
           /\ cvalue_in s ("t0_p" ++ Num.str i) = Some t0
           /\ cvalue_in s ("P_p" ++ Num.str i) = Some P
           /\ resolve_ecc_rv cfg i s = (Next (ecc, omega), s)
           /\ s' = with_radvel_params
                     s (written_planet (radvel_params s) n P t0 omega ecc K)).
Proof.
  split; [| split; [| split]].
  - intros cube s v s'. apply loglike_keeps_sample.
  - intros cube cube' registry. apply assigned_overwrites.
  - intros numbering n s0 v s' H.
    destruct (for_range_return _ _ _ _ _ _ _ H)
      as (pre & i & post & [] & s1 & Hxs & Hpre & Hi).
    destruct (rv_planet_cases cfg (n + List.length pre) i s1)
      as [Hr | [(ecc & omega & _ & _ & Hr) | (K & t0 & P & ecc & omega & Hr)]].
    + rewrite Hr in Hi. discriminate.
    + rewrite Hr in Hi. inversion Hi; subst.
      split; [reflexivity |]. exists pre, i, post. repeat split; assumption.
    + destruct Hr as (_ & _ & _ & _ & _ & Hr). rewrite Hr in Hi. discriminate.
  - intros n i s s' H.
    destruct (rv_planet_cases cfg n i s)
      as [Hr | [(ecc & omega & _ & _ & Hr) | (K & t0 & P & ecc & omega & Hr)]].
    + rewrite Hr in H. discriminate.
    + rewrite Hr in H. discriminate.
    + destruct Hr as (HK & Ht & HP & He & _ & Hr). rewrite Hr in H.
      inversion H; subst. exists K, t0, P, ecc, omega. repeat split; assumption.
Qed.

(** Two RV planets; the second is drawn with an eccentricity of 1.5.  The
    call returns the floor, and afterwards the registry holds the
    rejected sample and radvel holds the first planet's parameters. *)
Lemma rejection_keeps_sample_witness :
  exists s',
    loglike Sample.rv_config Sample.flat_oracles [3; 0.1; 5; 1.5]
            Sample.rv_store = (Some floor_value, s')
    /\ priors s' = assigned [3; 0.1; 5; 1.5] 0 (priors Sample.rv_store)
    /\ cvalue_in s' "ecc_p2" = Some 1.5
    /\ Dict.get (radvel_params s') "per1" = Some 3
    /\ Dict.get (radvel_params s') "e1" = Some 0.1.
Proof.
  eexists. split; [| split; [| split; [| split]]].
  - run. cmp. run. cmp. run. cmp. run. reflexivity.
  - apply (proj1 (rejection_keeps_sample Sample.rv_config Sample.flat_oracles)
                 [3; 0.1; 5; 1.5] Sample.rv_store floor_value).
    run. cmp. run. cmp. run. cmp. run. reflexivity.
  - reflexivity.
  - reflexivity.
  - reflexivity.
Defined.

(* ================================================================= *)
(** * Further properties of the code *)

(* ----------------------------------------------------------------- *)
(** ** Limb darkening *)

(** Evaluation of the further samples. *)
Ltac run_more :=
  cbv beta iota zeta delta
    [ More.cubic_entry More.cubic_store More.density_only_config
      More.trend_registry More.trend_store More.trend_config
      More.sqrt_registry More.sqrt_store More.sqrt_config
      More.two_planet_registry More.two_planet_store
      More.two_planet_config More.celerite_entry More.plain_entry
      detect_rv_trend floats transformed with_lc_vector with_rv_vector
      Sample.utils Sample.spec_transforms
      transform_uniform transform_normal transform_loguniform
      transform_beta transform_exponential fst snd ];
  run.

(** X1. For (q1, q2) in the unit square the quadratic law gets
    coefficients of a physical profile: [u1 >= 0], [u1 + u2 <= 1],
    [u1 + 2 u2 >= 0]; and (q1, q2) is read back from them as
    [q1 = (u1 + u2)^2], [q2 = u1 / (2 (u1 + u2))]. *)
Theorem reverse_ld_coeffs_quadratic (q1 q2 : R) :
  0 <= q1 <= 1 -> 0 <= q2 <= 1 ->
  exists u1 u2,
    reverse_ld_coeffs "quadratic" q1 q2 = Some (u1, u2)
    /\ 0 <= u1 /\ u1 + u2 <= 1 /\ 0 <= u1 + 2 * u2
    /\ (u1 + u2) ^ 2 = q1
    /\ (0 < q1 -> u1 / (2 * (u1 + u2)) = q2).
Proof.
  intros Hq1 Hq2. eexists. eexists. split; [reflexivity |].
  pose proof (sqrt_pos q1) as Hs0.
  assert (Hs1 : sqrt q1 <= 1).
  { rewrite <- sqrt_1. apply sqrt_le_1; lra. }
  pose proof (sqrt_sqrt q1 ltac:(lra)) as Hss.
  set (s := sqrt q1) in *.
  repeat split.
  - nra.
  - nra.
  - nra.
  - replace ((2 * s * q2 + s * (1 - 2 * q2)) ^ 2) with (s * s) by ring.
    exact Hss.
  - intros Hpos. assert (Hs : 0 < s) by (apply sqrt_lt_R0; exact Hpos).
    field. nra.
Qed.

Lemma reverse_ld_coeffs_quadratic_witness :
  exists u1 u2,
    reverse_ld_coeffs "quadratic" 0.25 0.5 = Some (u1, u2)
    /\ 0 <= u1 /\ u1 + u2 <= 1 /\ 0 <= u1 + 2 * u2
    /\ (u1 + u2) ^ 2 = 0.25
    /\ (0 < 0.25 -> u1 / (2 * (u1 + u2)) = 0.5).
Proof. apply (reverse_ld_coeffs_quadratic 0.25 0.5); lra. Defined.

(** X2. A limb-darkening law outside the four known ones makes the transit
    step raise (the coefficients are never bound) before anything is
    written; it is neither floored nor evaluated. *)
Theorem unknown_ld_law_raises (cfg : config) (orc : oracles)
        (instrument : string) (n i : nat) (loc : locals) (s : store)
        (e : lc_entry) (q1 q2 : R) :
  Dict.get (lc_dictionary s) instrument = Some e ->
  cvalue_in s ("q1_" ++ instrument) = Some q1 ->
  cvalue_in s ("q2_" ++ instrument) = Some q2 ->
  (ldlaw e =? "quadratic")%string = false ->
  (ldlaw e =? "squareroot")%string = false ->
  (ldlaw e =? "logarithmic")%string = false ->
  (ldlaw e =? "linear")%string = false ->
  transit_planet cfg orc instrument n i loc s = (Raise, s).
Proof.
  intros He Hq1 Hq2 H1 H2 H3 H4.
  unfold transit_planet, set_limb_darkening.
  unfold bind at 1 2.
  rewrite (lc_entry_of_some _ _ _ He). rewrite H4. cbn [negb].
  unfold bind at 1.
  rewrite (bind_next _ _ s s q1) by (apply cvalue_of_some; exact Hq1).
  rewrite (bind_next _ _ s s q2) by (apply cvalue_of_some; exact Hq2).
  unfold reverse_ld_coeffs. rewrite H1, H2, H3, H4. reflexivity.
Qed.

Lemma unknown_ld_law_raises_witness :
  transit_planet Sample.transit_config Sample.flat_oracles "TESS" 0 1
                 (mk_locals (Some [1]) None None) More.cubic_store
  = (Raise, More.cubic_store).
Proof.
  apply (unknown_ld_law_raises Sample.transit_config Sample.flat_oracles
                               "TESS" 0 1 (mk_locals (Some [1]) None None)
                               More.cubic_store More.cubic_entry 0.25 0.5);
    reflexivity.
Defined.

(* ----------------------------------------------------------------- *)
(** ** The celerite rotation term *)

(** X3. With the vector marshaled for the quasi-periodic kernel,
    [log B, log L, log Prot, log C] with positive hyperparameters, the
    real term has amplitude [B (1+C)/(2+C)] and the complex term
    [B/(2+C)]: both positive, summing to [B]; both decay at rate [1/L];
    the complex term oscillates at [2 pi / Prot] and has no sine part. *)
Theorem rotation_term_coefficients (B L Prot C : R) :
  0 < B -> 0 < L -> 0 < Prot -> 0 < C ->
  RotationTerm.get_real_coefficients [ln B; ln L; ln Prot; ln C]
  = Some (B * (1 + C) / (2 + C), / L)
  /\ RotationTerm.get_complex_coefficients [ln B; ln L; ln Prot; ln C]
     = Some (B / (2 + C), 0, / L, 2 * PI * / Prot)
  /\ 0 < B / (2 + C) < B * (1 + C) / (2 + C)
  /\ B * (1 + C) / (2 + C) + B / (2 + C) = B.
Proof.
  intros HB HL HP HC.
  unfold RotationTerm.get_real_coefficients,
    RotationTerm.get_complex_coefficients.
  rewrite !exp_Ropp, !exp_ln by assumption.
  split; [reflexivity | split; [reflexivity | split]].
  - assert (H2 : 0 < / (2 + C)) by (apply Rinv_0_lt_compat; lra).
    unfold Rdiv. set (t := / (2 + C)) in *.
    assert (HBt : 0 < B * t) by (apply Rmult_lt_0_compat; assumption).
    split; [exact HBt |].
    assert (HCBt : 0 < C * (B * t)) by (apply Rmult_lt_0_compat; assumption).
    lra.
  - field. lra.
Qed.

Lemma rotation_term_coefficients_witness :
  RotationTerm.get_real_coefficients [ln 2; ln 5; ln 3; ln 1]
  = Some (2 * (1 + 1) / (2 + 1), / 5)
  /\ RotationTerm.get_complex_coefficients [ln 2; ln 5; ln 3; ln 1]
     = Some (2 / (2 + 1), 0, / 5, 2 * PI * / 3)
  /\ 0 < 2 / (2 + 1) < 2 * (1 + 1) / (2 + 1)
  /\ 2 * (1 + 1) / (2 + 1) + 2 / (2 + 1) = 2.
Proof. apply (rotation_term_coefficients 2 5 3 1); lra. Defined.

(* ----------------------------------------------------------------- *)
(** ** The (r1, r2) sampling keeps the geometry inside its bounds *)

Lemma Ar_bounds (pl pu : R) :
  0 <= pl -> pl < pu -> 0 < Ar pl pu < 1.
Proof.
  intros Hpl Hpu. unfold Ar.
  assert (Hd : 0 < 2 + pl + pu) by lra.
  split.
  - apply Rdiv_lt_0_compat; lra.
  - apply (Rmult_lt_reg_r (2 + pl + pu)); [exact Hd |].
    unfold Rdiv. rewrite Rmult_assoc, Rinv_l by lra. lra.
Qed.

(** X4. Over the reals, for [0 <= pl < pu] and (r1, r2) in the unit
    square the sampled geometry satisfies [pl <= p <= pu] and
    [0 <= b <= 1 + p].  The distance [1 + p - b] to the geometric gate is
    [(pu - pl) (1 - sqrt(r1 / Ar))] on the branch [r1 <= Ar] and
    [(1 + pl) (1 - r1) / (1 - Ar) + r2 (pu - pl)] on the other; it
    vanishes, [b = 1 + p], exactly on the line [r1 = Ar] and at
    (r1, r2) = (1, 0). *)
Theorem bp_from_r_feasible (pl pu r1 r2 : R) :
  0 <= pl -> pl < pu -> 0 <= r1 <= 1 -> 0 <= r2 <= 1 ->
  let b := fst (bp_from_r pl pu r1 r2) in
  let p := snd (bp_from_r pl pu r1 r2) in
  pl <= p <= pu
  /\ 0 <= b <= 1 + p
  /\ (r1 <= Ar pl pu ->
      1 + p - b = (pu - pl) * (1 - sqrt (r1 / Ar pl pu)))
  /\ (Ar pl pu < r1 ->
      1 + p - b
      = (1 + pl) * ((1 - r1) / (1 - Ar pl pu)) + r2 * (pu - pl))
  /\ (b = 1 + p <-> r1 = Ar pl pu \/ (r1 = 1 /\ r2 = 0)).
Proof.
  intros Hpl Hpu Hr1 Hr2 b p.
  pose proof (Ar_bounds pl pu Hpl Hpu) as HA.
  unfold b, p, bp_from_r. set (A := Ar pl pu) in *.
  destruct (Rgt_dec r1 A) as [Hhi | Hlo].
  - rewrite gtb_true by exact Hhi. cbn [fst snd].
    assert (Hq : 0 <= (1 - r1) / (1 - A) < 1).
    { split.
      - apply Rmult_le_pos; [lra |]. left. apply Rinv_0_lt_compat. lra.
      - apply (Rmult_lt_reg_r (1 - A)); [lra |].
        unfold Rdiv. rewrite Rmult_assoc, Rinv_l by lra. lra. }
    assert (Hq0 : (1 - r1) / (1 - A) = 0 -> r1 = 1).
    { intros H0. apply (f_equal (fun x => x * (1 - A))) in H0.
      unfold Rdiv in H0. rewrite Rmult_assoc, Rinv_l in H0 by lra. lra. }
    replace ((r1 - 1) / (1 - A)) with (- ((1 - r1) / (1 - A)))
      by (field; lra).
    assert (Hq1 : r1 = 1 -> (1 - r1) / (1 - A) = 0).
    { intros ->. unfold Rdiv. lra. }
    set (q := (1 - r1) / (1 - A)) in *.
    split; [nra |]. split; [nra |]. split; [intros H; lra |].
    split; [intros _; ring |]. split.
    + intros Heq. right.
      assert (Hsum : (1 + pl) * q + r2 * (pu - pl) = 0) by lra.
      assert (H1 : 0 <= (1 + pl) * q) by nra.
      assert (H2 : 0 <= r2 * (pu - pl)) by nra.
      assert (Hqz : q = 0) by nra.
      assert (Hrz : r2 = 0) by nra.
      split; [exact (Hq0 Hqz) | exact Hrz].
    + intros [H | [H1 H2]]; [lra |].
      rewrite (Hq1 H1). rewrite H2. ring.
  - rewrite gtb_false by lra. cbn [fst snd].
    assert (Hq : 0 <= r1 / A <= 1).
    { split.
      - apply Rmult_le_pos; [lra |]. left. apply Rinv_0_lt_compat. lra.
      - apply (Rmult_le_reg_r A); [lra |].
        unfold Rdiv. rewrite Rmult_assoc, Rinv_l by lra. lra. }
    pose proof (sqrt_pos (r1 / A)) as Hs0.
    assert (Hs1 : sqrt (r1 / A) <= 1)
      by (rewrite <- sqrt_1; apply sqrt_le_1; lra).
    assert (Hone : sqrt (r1 / A) = 1 <-> r1 = A).
    { split.
      - intros H1. pose proof (sqrt_sqrt (r1 / A) ltac:(lra)) as Hss.
        rewrite H1 in Hss.
        assert (Hd : r1 / A = 1) by lra.
        apply (f_equal (fun x => x * A)) in Hd.
        unfold Rdiv in Hd. rewrite Rmult_assoc, Rinv_l in Hd by lra. lra.
      - intros ->. unfold Rdiv. rewrite Rinv_r by lra. apply sqrt_1. }
    set (q := sqrt (r1 / A)) in *.
    assert (Hw : 0 <= q * (1 - r2) <= 1) by nra.
    assert (Hv : 0 <= q * r2 <= 1) by nra.
    split.
    { replace (pu + (pl - pu) * q * (1 - r2))
        with (pu - (pu - pl) * (q * (1 - r2))) by ring.
      set (w := q * (1 - r2)) in *. nra. }
    split.
    { replace (pu + (pl - pu) * q * (1 - r2))
        with (pu - (pu - pl) * (q * (1 - r2))) by ring.
      replace (1 + pl + q * r2 * (pu - pl))
        with (1 + pl + (pu - pl) * (q * r2)) by ring.
      assert (Hvw : q * r2 + q * (1 - r2) = q) by ring.
      set (w := q * (1 - r2)) in *. set (v := q * r2) in *. nra. }
    split; [intros _; ring |]. split; [intros H; lra |]. split.
    + intros Heq. left. apply Hone.
      assert (Hm : (pu - pl) * (1 - q) = 0) by lra.
      nra.
    + intros [H | [H1 H2]].
      * apply Hone in H. rewrite H. ring.
      * exfalso. lra.
Qed.

Lemma bp_from_r_feasible_witness :
  0 <= snd (bp_from_r 0 1 0.5 0.25) <= 1
  /\ 0 <= fst (bp_from_r 0 1 0.5 0.25)
          <= 1 + snd (bp_from_r 0 1 0.5 0.25)
  /\ (0.5 <= Ar 0 1 ->
      1 + snd (bp_from_r 0 1 0.5 0.25) - fst (bp_from_r 0 1 0.5 0.25)
      = (1 - 0) * (1 - sqrt (0.5 / Ar 0 1)))
  /\ (Ar 0 1 < 0.5 ->
      1 + snd (bp_from_r 0 1 0.5 0.25) - fst (bp_from_r 0 1 0.5 0.25)
      = (1 + 0) * ((1 - 0.5) / (1 - Ar 0 1)) + 0.25 * (1 - 0))
  /\ (fst (bp_from_r 0 1 0.5 0.25) = 1 + snd (bp_from_r 0 1 0.5 0.25)
      <-> 0.5 = Ar 0 1 \/ (0.5 = 1 /\ 0.25 = 0)).
Proof. apply (bp_from_r_feasible 0 1 0.5 0.25); lra. Defined.

(* ----------------------------------------------------------------- *)
(** ** Stellar density and scaled semi-major axis *)

Lemma cube_root_cubed (x : R) : 0 < x -> cube_root x ^ 3 = x.
Proof.
  intros Hx. unfold cube_root.
  destruct (Req_dec_T x 0) as [H0 | _]; [lra |].
  rewrite <- (Rpower_pow 3) by apply exp_pos.
  rewrite Rpower_mult.
  replace (1 / 3 * INR 3) with 1 by (cbn [INR]; lra).
  apply Rpower_1. exact Hx.
Qed.

(** X5. The two density conventions of [loglike] are inverse to each
    other: the density the likelihood term derives (line 785) from the
    semi-major axis that lines 691 and 707 derive from a density [rho]
    is [rho], for every positive density and non-zero period. *)
Theorem rho_from_a_from_rho (rho P : R) :
  0 < rho -> P <> 0 ->
  rho_from_a (a_from_rho rho P) P = rho.
Proof.
  intros Hrho HP. unfold rho_from_a, a_from_rho.
  assert (HG : 0 < G) by (unfold G; lra).
  pose proof PI_RGT_0 as Hpi.
  assert (HT : 0 < (P * 24 * 3600) ^ 2).
  { replace ((P * 24 * 3600) ^ 2) with ((P * 24 * 3600) * (P * 24 * 3600))
      by ring.
    assert (P * 24 * 3600 <> 0) by lra. nra. }
  rewrite cube_root_cubed.
  - field. repeat split; lra.
  - apply Rdiv_lt_0_compat; [| lra].
    apply Rmult_lt_0_compat; [apply Rmult_lt_0_compat; lra | exact HT].
Qed.

Lemma rho_from_a_from_rho_witness :
  rho_from_a (a_from_rho 1410 3.5) 3.5 = 1410.
Proof. apply (rho_from_a_from_rho 1410 3.5); lra. Defined.

Lemma stellar_density_term_spec (cfg : config) (loc : locals) (ll : R)
      (s : store) :
  stellar_density cfg = true -> fitrho cfg = false ->
  (forall a P,
      loc_a loc = Some a -> loc_P loc = Some P ->
      stellar_density_term cfg loc ll s
      = (Next (ll + - 0.5 * (ln (2 * PI) + 2 * ln (sd_sigma cfg)
                             + ((rho_from_a a P - sd_mean cfg)
                                / sd_sigma cfg) ^ 2)), s))
  /\ (loc_P loc = None \/ loc_a loc = None ->
      stellar_density_term cfg loc ll s = (Raise, s)).
Proof.
  intros Hsd Hrho. unfold stellar_density_term. rewrite Hsd, Hrho.
  cbn [negb andb]. split.
  - intros a P Ha HP. rewrite Ha, HP. reflexivity.
  - intros [HP | Ha].
    + rewrite HP. reflexivity.
    + rewrite Ha. destruct (loc_P loc); reflexivity.
Qed.

(** X6. A stellar-density constraint without a light curve: the term
    needs the [a] and [P] of the transit loop, which never ran, so every
    evaluation raises once the sample has been assigned. *)
Theorem density_without_lightcurve_raises (cfg : config) (orc : oracles)
        (cube : list R) (s : store) :
  lcfilename cfg = false -> inames_lc cfg = [] ->
  stellar_density cfg = true -> fitrho cfg = false ->
  (count_free (priors s) <= List.length cube)%nat ->
  loglike cfg orc cube s
  = (None, with_priors s (assigned cube 0 (priors s))).
Proof.
  intros Hlc Hnames Hsd Hrho Hlen.
  unfold loglike, loglike_body, photometric_part.
  unfold bind at 1 2. rewrite (assign_cvalues_total cube s Hlen).
  unfold photometric_section. rewrite Hlc, Hnames.
  rewrite bind_ret. cbn [for_each]. rewrite bind_ret.
  rewrite (proj2 (stellar_density_term_spec cfg _ 0 _ Hsd Hrho))
    by (left; reflexivity).
  reflexivity.
Qed.

Lemma density_without_lightcurve_raises_witness :
  loglike More.density_only_config Sample.flat_oracles [3; 0.1; 5; 0.2]
          Sample.rv_store
  = (None,
     with_priors Sample.rv_store
                 (assigned [3; 0.1; 5; 0.2] 0 (priors Sample.rv_store))).
Proof.
  apply (density_without_lightcurve_raises
           More.density_only_config Sample.flat_oracles [3; 0.1; 5; 0.2]
           Sample.rv_store); first [reflexivity | cbn; lia].
Defined.

(* ----------------------------------------------------------------- *)
(** ** More on the white-noise likelihood *)

Lemma combine_app_same {A B} :
  forall (l1 l2 : list A) (m1 m2 : list B),
    List.length l1 = List.length m1 ->
    combine (l1 ++ l2) (m1 ++ m2) = combine l1 m1 ++ combine l2 m2.
Proof.
  induction l1 as [| x l1 IH]; intros l2 [| y m1] m2 Hlen; cbn in *;
    try discriminate; try reflexivity.
  rewrite IH by lia. reflexivity.
Qed.

Lemma sum_app (a b : array) : Array.sum (a ++ b) = Array.sum a + Array.sum b.
Proof.
  unfold Array.sum. induction a as [| x a IH]; cbn.
  - lra.
  - rewrite IH. lra.
Qed.

Lemma gaussian_log_likelihood_terms (r sigma : array) (j : R) :
  List.length r = List.length sigma ->
  gaussian_log_likelihood r sigma j = Some (gaussian_closed_form r sigma j).
Proof.
  intros Hlen. pose proof (white_noise_terms j r sigma Hlen) as H.
  unfold gaussian_log_likelihood, gaussian_closed_form.
  destruct (Array.zip_with Rmult _ _) as [w |]; [| discriminate].
  destruct (Array.zip_with Rplus _ w) as [terms |]; [| discriminate].
  injection H as H. rewrite H. unfold log2pi. f_equal. cbn [pow]. ring.
Qed.

(** X7. The likelihood of two data sets taken together, with one jitter,
    is the sum of their likelihoods. *)
Theorem gaussian_log_likelihood_app (r1 e1 r2 e2 : array) (j : R) :
  List.length r1 = List.length e1 ->
  List.length r2 = List.length e2 ->
  exists x1 x2,
    gaussian_log_likelihood r1 e1 j = Some x1
    /\ gaussian_log_likelihood r2 e2 j = Some x2
    /\ gaussian_log_likelihood (r1 ++ r2) (e1 ++ e2) j = Some (x1 + x2).
Proof.
  intros H1 H2.
  exists (gaussian_closed_form r1 e1 j), (gaussian_closed_form r2 e2 j).
  rewrite !gaussian_log_likelihood_terms by (rewrite ?length_app; lia).
  repeat split. f_equal. unfold gaussian_closed_form.
  rewrite (combine_app_same r1 r2 e1 e2 H1).
  rewrite !map_app, !sum_app, length_app, plus_INR. ring.
Qed.

Lemma gaussian_log_likelihood_app_witness :
  exists x1 x2,
    gaussian_log_likelihood [0.1; -0.2] [0.1; 0.1] 0 = Some x1
    /\ gaussian_log_likelihood [0.05; 0; 0.15] [0.1; 0.1; 0.1] 0 = Some x2
    /\ gaussian_log_likelihood ([0.1; -0.2] ++ [0.05; 0; 0.15])
                               ([0.1; 0.1] ++ [0.1; 0.1; 0.1]) 0
       = Some (x1 + x2).
Proof.
  apply (gaussian_log_likelihood_app
           [0.1; -0.2] [0.1; 0.1] [0.05; 0; 0.15] [0.1; 0.1; 0.1] 0);
    reflexivity.
Defined.

Lemma weighted_squares_nonneg (j : R) :
  forall r sigma : array,
    Forall (fun s => 0 < s ^ 2 + j ^ 2) sigma ->
    0 <= Array.sum (map (fun rs => fst rs ^ 2 / (snd rs ^ 2 + j ^ 2))
                        (combine r sigma)).
Proof.
  induction r as [| x r IH]; intros [| s sigma] Hpos; cbn; try lra.
  inversion Hpos as [| ? ? Hs Hrest]; subst.
  specialize (IH sigma Hrest). unfold Array.sum in IH.
  assert (0 <= x * (x * 1) / (s * (s * 1) + j * (j * 1))).
  { apply Rmult_le_pos; [nra |]. left. apply Rinv_0_lt_compat.
    cbn in Hs. exact Hs. }
  cbn in IH. lra.
Qed.

Lemma combine_zeros_sum (j : R) :
  forall r sigma : array,
    Array.sum (map (fun rs : R * R => fst rs ^ 2 / (snd rs ^ 2 + j ^ 2))
                   (combine (map (fun _ => 0) r) sigma)) = 0.
Proof.
  induction r as [| x r IH]; intros [| s sigma]; cbn; try reflexivity.
  specialize (IH sigma). unfold Array.sum in IH. cbn in IH. rewrite IH.
  unfold Rdiv. ring.
Qed.

(** X8. With positive variances, no residuals give a higher likelihood
    than residuals that are all zero. *)
Theorem gaussian_log_likelihood_max (r sigma : array) (j : R) :
  List.length r = List.length sigma ->
  Forall (fun s => 0 < s ^ 2 + j ^ 2) sigma ->
  exists x x0,
    gaussian_log_likelihood r sigma j = Some x
    /\ gaussian_log_likelihood (map (fun _ => 0) r) sigma j = Some x0
    /\ x <= x0.
Proof.
  intros Hlen Hpos.
  exists (gaussian_closed_form r sigma j),
    (gaussian_closed_form (map (fun _ => 0) r) sigma j).
  rewrite !gaussian_log_likelihood_terms by (rewrite ?length_map; exact Hlen).
  repeat split. unfold gaussian_closed_form.
  rewrite combine_zeros_sum, length_map.
  pose proof (weighted_squares_nonneg j r sigma Hpos). lra.
Qed.

Lemma gaussian_log_likelihood_max_witness :
  exists x x0,
    gaussian_log_likelihood [0.1; -0.2] [0.1; 0.1] 0 = Some x
    /\ gaussian_log_likelihood (map (fun _ => 0) [0.1; -0.2]) [0.1; 0.1] 0
       = Some x0
    /\ x <= x0.
Proof.
  apply (gaussian_log_likelihood_max [0.1; -0.2] [0.1; 0.1] 0).
  - reflexivity.
  - repeat constructor; lra.
Defined.

(* ----------------------------------------------------------------- *)
(** ** The radial-velocity trend *)

Lemma zip_with_plus_map (f : R -> R) :
  forall (m t : array),
    List.length m = List.length t ->
    Array.zip_with Rplus m (map f t)
    = Some (map (fun mt => fst mt + f (snd mt)) (combine m t)).
Proof.
  induction m as [| x m IH]; intros [| y t] Hlen; cbn in *;
    try discriminate; try reflexivity.
  rewrite IH by lia. reflexivity.
Qed.

(** X9. The trend added to the RV model is anchored at [rv_tzero]: the
    line adds [slope (t - tzero)] to the point at time [t], the quadratic
    adds [(t - tzero) (quad (t + tzero) + slope)]; both vanish at
    [t = tzero]. *)
Theorem rv_trend_anchored (cfg : config) (m : array) (s : store)
        (aline tz : R) :
  List.length m = List.length (t_rv cfg) ->
  cvalue_in s "rv_slope" = Some aline ->
  cvalue_in s "rv_tzero" = Some tz ->
  (fitrvline cfg = true -> fitrvquad cfg = false ->
   rv_trend cfg (Some m) s
   = (Next (Some (map (fun mt => fst mt + aline * (snd mt - tz))
                      (combine m (t_rv cfg)))), s))
  /\ (forall q,
         cvalue_in s "rv_quad" = Some q ->
         fitrvline cfg = false -> fitrvquad cfg = true ->
         rv_trend cfg (Some m) s
         = (Next (Some (map (fun mt => fst mt
                                       + (snd mt - tz)
                                         * (q * (snd mt + tz) + aline))
                            (combine m (t_rv cfg)))), s)).
Proof.
  intros Hlen Ha Htz. split.
  - intros Hline Hquad. unfold rv_trend. rewrite Hline, Hquad.
    unfold bind at 1.
    rewrite (bind_next _ _ s s aline) by (apply cvalue_of_some; exact Ha).
    rewrite (bind_next _ _ s s tz) by (apply cvalue_of_some; exact Htz).
    cbn [of_option]. rewrite bind_ret.
    rewrite (zip_with_plus_map _ m (t_rv cfg) Hlen).
    cbn [of_option]. rewrite bind_ret. unfold ret. do 3 f_equal.
    apply map_ext. intros [x t]. cbn [fst snd]. ring.
  - intros q Hq Hline Hquad. unfold rv_trend. rewrite Hline, Hquad.
    rewrite bind_ret.
    rewrite (bind_next _ _ s s q) by (apply cvalue_of_some; exact Hq).
    rewrite (bind_next _ _ s s aline) by (apply cvalue_of_some; exact Ha).
    rewrite (bind_next _ _ s s tz) by (apply cvalue_of_some; exact Htz).
    cbn [of_option]. rewrite bind_ret.
    rewrite (zip_with_plus_map _ m (t_rv cfg) Hlen).
    cbn [of_option]. rewrite bind_ret. unfold ret. do 3 f_equal.
    apply map_ext. intros [x t]. cbn [fst snd]. ring.
Qed.

Lemma rv_trend_anchored_witness :
  rv_trend More.trend_config (Some [0; 0]) More.trend_store
  = (Next (Some (map (fun mt => fst mt + 2 * (snd mt - 1))
                     (combine [0; 0] (t_rv More.trend_config)))),
     More.trend_store).
Proof.
  apply (proj1 (rv_trend_anchored More.trend_config [0; 0] More.trend_store
                                  2 1 eq_refl eq_refl eq_refl));
    reflexivity.
Defined.

(* ----------------------------------------------------------------- *)
(** ** The eccentricity parametrizations are inverted exactly *)

Lemma sqrt_sum_squares_factor (x y : R) :
  x <> 0 -> sqrt (x ^ 2 + y ^ 2) = Rabs x * sqrt (1 + (y / x)²).
Proof.
  intros Hx.
  replace (x ^ 2 + y ^ 2) with (x² * (1 + (y / x)²))
    by (unfold Rsqr; field; exact Hx).
  rewrite sqrt_mult_alt by apply Rle_0_sqr.
  rewrite sqrt_Rsqr_abs. reflexivity.
Qed.

Lemma sqrt_one_plus_sqr_pos (t : R) : 0 < sqrt (1 + t²).
Proof. apply sqrt_lt_R0. pose proof (Rle_0_sqr t). lra. Qed.

(** The point (x, y) has modulus [sqrt(x^2+y^2)] and angle
    [arctan2(y, x)]. *)
Lemma arctan2_polar (x y : R) :
  sqrt (x ^ 2 + y ^ 2) * cos (Num.arctan2 y x) = x
  /\ sqrt (x ^ 2 + y ^ 2) * sin (Num.arctan2 y x) = y.
Proof.
  unfold Num.arctan2.
  pose proof (sqrt_one_plus_sqr_pos (y / x)) as Hq.
  destruct (Rlt_dec 0 x) as [Hpos | Hnpos].
  - rewrite ltb_true by exact Hpos.
    rewrite sqrt_sum_squares_factor by lra.
    rewrite Rabs_pos_eq by lra. rewrite cos_atan, sin_atan.
    split; field; lra.
  - rewrite ltb_false by lra.
    destruct (Rlt_dec x 0) as [Hneg | Hnneg].
    + rewrite (ltb_true x 0) by exact Hneg.
      rewrite sqrt_sum_squares_factor by lra.
      rewrite Rabs_left by exact Hneg.
      destruct (Rlt_dec y 0) as [Hy | Hy].
      * rewrite ltb_true by exact Hy.
        rewrite cos_minus, sin_minus, cos_PI, sin_PI, cos_atan, sin_atan.
        split; field; lra.
      * rewrite ltb_false by lra.
        rewrite neg_cos, neg_sin, cos_atan, sin_atan.
        split; field; lra.
    + rewrite (ltb_false x 0) by lra.
      assert (Hx : x = 0) by lra. subst x.
      replace (0 ^ 2 + y ^ 2) with (y²) by (unfold Rsqr; ring).
      rewrite sqrt_Rsqr_abs.
      destruct (Rlt_dec 0 y) as [Hy | Hy].
      * rewrite ltb_true by exact Hy.
        rewrite cos_PI2, sin_PI2, Rabs_pos_eq by lra. split; ring.
      * rewrite ltb_false by lra.
        destruct (Rlt_dec y 0) as [Hy' | Hy'].
        -- rewrite ltb_true by exact Hy'.
           rewrite cos_neg, sin_neg, cos_PI2, sin_PI2, Rabs_left by lra.
           split; ring.
        -- rewrite ltb_false by lra.
           assert (Hy0 : y = 0) by lra. subst y.
           rewrite Rabs_R0. split; ring.
Qed.

Lemma resolve_two_keys {A} (k1 k2 : string) (x y : R) (f : R -> R -> A)
      (s : store) :
  cvalue_in s k1 = Some x -> cvalue_in s k2 = Some y ->
  (a <- cvalue_of k1 ;; b <- cvalue_of k2 ;; ret (f a b)) s
  = (Next (f x y), s).
Proof.
  intros Hx Hy.
  rewrite (bind_next _ _ s s x) by (apply cvalue_of_some; exact Hx).
  rewrite (bind_next _ _ s s y) by (apply cvalue_of_some; exact Hy).
  reflexivity.
Qed.

Lemma degrees_to_radians (w : R) : w * 180 / PI * PI / 180 = w.
Proof. pose proof PI_RGT_0. field. lra. Qed.

(** X10. Under the (e cos w, e sin w) parametrization the resolved pair
    reproduces the sampled one: [e >= 0], [e cos w = ecosomega] and
    [e sin w = esinomega], with [w] in radians for the radial velocities
    and in degrees for the transit model. *)
Theorem cos_sin_parametrization_inverted (cfg : config) (i : nat) (s : store)
        (x y : R) :
  cvalue_in s ("ecosomega_p" ++ Num.str i) = Some x ->
  cvalue_in s ("esinomega_p" ++ Num.str i) = Some y ->
  (get_nat (ecc_parametrization_rv cfg) i = Some 1%nat ->
   exists e w,
     resolve_ecc_rv cfg i s = (Next (e, w), s)
     /\ 0 <= e /\ e * cos w = x /\ e * sin w = y)
  /\ (get_nat (ecc_parametrization_transit cfg) i = Some 1%nat ->
      exists e w,
        resolve_ecc_transit cfg i s = (Next (e, w), s)
        /\ 0 <= e
        /\ e * cos (w * PI / 180) = x /\ e * sin (w * PI / 180) = y).
Proof.
  intros Hx Hy. destruct (arctan2_polar x y) as [Hc Hs].
  split; intros Htag; eexists; eexists.
  - split.
    + unfold resolve_ecc_rv. rewrite Htag. cbn [of_option].
      rewrite bind_ret. cbn [Nat.eqb].
      apply (resolve_two_keys _ _ x y
               (fun a b => (sqrt (a ^ 2 + b ^ 2), Num.arctan2 b a)));
        assumption.
    + split; [apply sqrt_pos | split; assumption].
  - split.
    + unfold resolve_ecc_transit. rewrite Htag. cbn [of_option].
      rewrite bind_ret. cbn [Nat.eqb].
      apply (resolve_two_keys _ _ x y
               (fun a b => (sqrt (a ^ 2 + b ^ 2),
                            Num.arctan2 b a * 180 / PI)));
        assumption.
    + rewrite degrees_to_radians.
      split; [apply sqrt_pos | split; assumption].
Qed.

Lemma cos_sin_parametrization_inverted_witness :
  exists e w,
    resolve_ecc_rv Sample.efficient_config 1 Sample.efficient_store
    = (Next (e, w), Sample.efficient_store)
    /\ 0 <= e /\ e * cos w = 0.3 /\ e * sin w = 0.4.
Proof.
  apply (proj1 (cos_sin_parametrization_inverted
                  Sample.efficient_config 1 Sample.efficient_store
                  0.3 0.4 eq_refl eq_refl)).
  reflexivity.
Defined.

(** X11. Under the (sqrt(e) cos w, sqrt(e) sin w) parametrization the
    resolved pair reproduces the sampled one: [e >= 0],
    [sqrt(e) cos w = secosomega] and [sqrt(e) sin w = sesinomega], in
    either context. *)
Theorem sqrt_cos_sin_parametrization_inverted (cfg : config) (i : nat)
        (s : store) (x y : R) :
  cvalue_in s ("secosomega_p" ++ Num.str i) = Some x ->
  cvalue_in s ("sesinomega_p" ++ Num.str i) = Some y ->
  (get_nat (ecc_parametrization_rv cfg) i = Some 2%nat ->
   exists e w,
     resolve_ecc_rv cfg i s = (Next (e, w), s)
     /\ 0 <= e /\ sqrt e * cos w = x /\ sqrt e * sin w = y)
  /\ (get_nat (ecc_parametrization_transit cfg) i = Some 2%nat ->
      exists e w,
        resolve_ecc_transit cfg i s = (Next (e, w), s)
        /\ 0 <= e
        /\ sqrt e * cos (w * PI / 180) = x
        /\ sqrt e * sin (w * PI / 180) = y).
Proof.
  intros Hx Hy. destruct (arctan2_polar x y) as [Hc Hs].
  assert (He : 0 <= x ^ 2 + y ^ 2) by nra.
  split; intros Htag; eexists; eexists.
  - split.
    + unfold resolve_ecc_rv. rewrite Htag. cbn [of_option].
      rewrite bind_ret. cbn [Nat.eqb].
      apply (resolve_two_keys _ _ x y
               (fun a b => (a ^ 2 + b ^ 2, Num.arctan2 b a)));
        assumption.
    + split; [exact He | split; assumption].
  - split.
    + unfold resolve_ecc_transit. rewrite Htag. cbn [of_option].
      rewrite bind_ret. cbn [Nat.eqb].
      apply (resolve_two_keys _ _ x y
               (fun a b => (a ^ 2 + b ^ 2, Num.arctan2 b a * 180 / PI)));
        assumption.
    + rewrite degrees_to_radians.
      split; [exact He | split; assumption].
Qed.

Lemma sqrt_cos_sin_parametrization_inverted_witness :
  exists e w,
    resolve_ecc_rv More.sqrt_config 1 More.sqrt_store
    = (Next (e, w), More.sqrt_store)
    /\ 0 <= e /\ sqrt e * cos w = 0.3 /\ sqrt e * sin w = 0.4.
Proof.
  apply (proj1 (sqrt_cos_sin_parametrization_inverted
                  More.sqrt_config 1 More.sqrt_store 0.3 0.4
                  eq_refl eq_refl)).
  reflexivity.
Defined.

(* ----------------------------------------------------------------- *)
(** ** The registry across evaluations *)

Lemma assign_loop_schema (cube : list R) :
  forall (entries : dict pinfo) (pcounter : nat),
    same_schema entries (snd (assign_loop cube pcounter entries)).
Proof.
  unfold same_schema.
  induction entries as [| [pname pi] rest IH]; intros pcounter.
  - constructor.
  - cbn [assign_loop].
    destruct (ptype pi =? "fixed")%string eqn:Hfix; cbn [negb].
    + specialize (IH pcounter).
      destruct (assign_loop cube pcounter rest) as [o rest'].
      cbn [snd] in *. constructor; [| exact IH]. cbn. auto.
    + destruct (nth_error cube pcounter) as [v |].
      * specialize (IH (S pcounter)).
        destruct (assign_loop cube (S pcounter) rest) as [o rest'].
        cbn [snd] in *. constructor; [| exact IH].
        cbn. rewrite Hfix. repeat split; auto. discriminate.
      * cbn [snd]. constructor.
        -- cbn. auto.
        -- clear. induction rest as [| e rest IHr]; constructor; auto.
Qed.

(** However a call ends, the registry it leaves is the one the assignment
    loop produced. *)
Lemma loglike_priors (cfg : config) (orc : oracles) (cube : list R)
      (s : store) :
  priors (snd (loglike cfg orc cube s))
  = snd (assign_loop cube 0 (priors s)).
Proof.
  unfold loglike. rewrite loglike_body_split. unfold bind at 1.
  unfold assign_cvalues.
  destruct (assign_loop cube 0 (priors s)) as [[[] | v1 |] p'] eqn:Hassign;
    cbn [snd]; try reflexivity.
  match goal with
  | |- context [?m (with_priors s p')] =>
      destruct (m (with_priors s p')) as [o s2] eqn:Hrest
  end.
  pose proof (kp_after_assignment cfg orc _ _ _ Hrest) as Hkeep.
  destruct o; cbn [snd]; exact Hkeep.
Qed.

Lemma same_schema_count_free (p p' : dict pinfo) :
  same_schema p p' -> count_free p' = count_free p.
Proof.
  intros H. induction H as [| [k pi] [k' pi'] p p' (_ & Ht & _) _ IH].
  - reflexivity.
  - rewrite !count_free_cons. cbn [snd] in Ht. rewrite Ht, IH. reflexivity.
Qed.

(** X12. No evaluation, however it ends, adds, removes, renames or
    re-types a parameter, changes a distribution parameter or the value of
    a fixed parameter; the number of free parameters stays what it was. *)
Theorem loglike_keeps_schema (cfg : config) (orc : oracles) (cube : list R)
        (s : store) :
  same_schema (priors s) (priors (snd (loglike cfg orc cube s)))
  /\ map fst (priors (snd (loglike cfg orc cube s))) = map fst (priors s)
  /\ count_free (priors (snd (loglike cfg orc cube s)))
     = count_free (priors s).
Proof.
  rewrite loglike_priors.
  pose proof (assign_loop_schema cube (priors s) 0) as H.
  split; [exact H | split].
  - clear -H. induction H as [| e e' p p' (Hk & _) _ IH]; cbn.
    + reflexivity.
    + rewrite Hk, IH. reflexivity.
  - apply same_schema_count_free. exact H.
Qed.

Lemma assign_loop_short (cube : list R) :
  forall (entries : dict pinfo) (pcounter : nat),
    (pcounter <= List.length cube)%nat ->
    (List.length cube < pcounter + count_free entries)%nat ->
    fst (assign_loop cube pcounter entries) = Raise.
Proof.
  induction entries as [| [pname pi] rest IH]; intros pcounter Hle Hlen.
  - cbn in Hlen. lia.
  - rewrite count_free_cons in Hlen. cbn [assign_loop].
    destruct (negb (ptype pi =? "fixed")%string).
    + destruct (nth_error cube pcounter) as [v |] eqn:Hnth; [| reflexivity].
      assert (Hlt : (pcounter < List.length cube)%nat)
        by (apply nth_error_Some; rewrite Hnth; discriminate).
      specialize (IH (S pcounter) ltac:(lia) ltac:(lia)).
      destruct (assign_loop cube (S pcounter) rest) as [o rest'].
      exact IH.
    + specialize (IH pcounter Hle Hlen).
      destruct (assign_loop cube pcounter rest) as [o rest'].
      exact IH.
Qed.

(** X13. A cube shorter than the number of free parameters makes
    [loglike] raise (the index error of [cube[pcounter]]); nothing is
    returned, the floor included. *)
Theorem loglike_short_cube_raises (cfg : config) (orc : oracles)
        (cube : list R) (s : store) :
  (List.length cube < count_free (priors s))%nat ->
  fst (loglike cfg orc cube s) = None.
Proof.
  intros Hlen. unfold loglike. rewrite loglike_body_split. unfold bind at 1.
  unfold assign_cvalues.
  pose proof (assign_loop_short cube (priors s) 0 ltac:(lia) Hlen) as H.
  destruct (assign_loop cube 0 (priors s)) as [o p']. cbn [fst] in H.
  subst o. reflexivity.
Qed.

Lemma loglike_short_cube_raises_witness :
  fst (loglike Sample.transit_config Sample.flat_oracles [3]
               Sample.transit_store) = None.
Proof.
  apply (loglike_short_cube_raises Sample.transit_config Sample.flat_oracles
                                   [3] Sample.transit_store).
  cbn. lia.
Defined.

Lemma assign_loop_prefix (cube cube' : list R) :
  forall (entries : dict pinfo) (pcounter : nat),
    (forall k, (pcounter <= k < pcounter + count_free entries)%nat ->
               nth_error cube k = nth_error cube' k) ->
    assign_loop cube pcounter entries = assign_loop cube' pcounter entries.
Proof.
  induction entries as [| [pname pi] rest IH]; intros pcounter Hsame.
  - reflexivity.
  - rewrite count_free_cons in Hsame. cbn [assign_loop].
    destruct (negb (ptype pi =? "fixed")%string).
    + rewrite <- (Hsame pcounter) by lia.
      rewrite (IH (S pcounter)) by (intros k Hk; apply Hsame; lia).
      reflexivity.
    + rewrite (IH pcounter) by exact Hsame. reflexivity.
Qed.

(** X14. [loglike] reads the cube through its first [n_params] entries
    only: two cubes that agree there give the same result and leave the
    same store. *)
Theorem loglike_reads_cube_prefix (cfg : config) (orc : oracles)
        (cube cube' : list R) (s : store) :
  firstn (count_free (priors s)) cube = firstn (count_free (priors s)) cube' ->
  loglike cfg orc cube s = loglike cfg orc cube' s.
Proof.
  intros Hpre. unfold loglike. rewrite !loglike_body_split.
  unfold bind at 1 3. unfold assign_cvalues.
  rewrite (assign_loop_prefix cube cube').
  - reflexivity.
  - intros k Hk. cbn [Nat.add] in Hk.
    pose proof (nth_error_firstn (count_free (priors s)) cube k) as H1.
    pose proof (nth_error_firstn (count_free (priors s)) cube' k) as H2.
    assert (Hlt : Nat.ltb k (count_free (priors s)) = true)
      by (apply Nat.ltb_lt; lia).
    rewrite Hlt in H1, H2. rewrite <- H1, <- H2, Hpre. reflexivity.
Qed.

Lemma loglike_reads_cube_prefix_witness :
  loglike Sample.transit_config Sample.flat_oracles [3; 0.1; 7; 8]
          Sample.transit_store
  = loglike Sample.transit_config Sample.flat_oracles [3; 0.1]
            Sample.transit_store.
Proof.
  apply (loglike_reads_cube_prefix Sample.transit_config Sample.flat_oracles
                                   [3; 0.1; 7; 8] [3; 0.1]
                                   Sample.transit_store).
  reflexivity.
Defined.

(** X15. A planet that is numbered among the transiting ones but has no
    period in the registry makes [loglike] raise at the ordering loop (the
    key error of [priors['P_p' + str(i)]]), with only the sample written. *)
Theorem loglike_missing_period_raises (cfg : config) (orc : oracles)
        (cube : list R) (s : store) (i : nat) (rest : list nat) :
  (count_free (priors s) <= List.length cube)%nat ->
  lcfilename cfg = true ->
  numbering_transit cfg = i :: rest ->
  Dict.mem (priors s) ("P_p" ++ Num.str i) = false ->
  loglike cfg orc cube s
  = (None, with_priors s (assigned cube 0 (priors s))).
Proof.
  intros Hlen Hlc Hnum Hmem.
  assert (Hnone : cvalue_in (with_priors s (assigned cube 0 (priors s)))
                            ("P_p" ++ Num.str i) = None).
  { unfold cvalue_in. cbn [priors with_priors].
    unfold Dict.mem in Hmem. clear -Hmem.
    generalize 0%nat. induction (priors s) as [| [k pi] p IH]; intros n.
    - reflexivity.
    - cbn [Dict.get assigned] in *.
      destruct (negb (ptype pi =? "fixed")%string); cbn [Dict.get];
        destruct (k =? "P_p" ++ Num.str i)%string; try discriminate;
        apply IH; exact Hmem. }
  unfold loglike, loglike_body, photometric_part.
  unfold bind at 1 2 3. rewrite (assign_cvalues_total cube s Hlen).
  unfold photometric_section. rewrite Hlc, Hnum.
  unfold period_gate. unfold bind at 1 2 3. rewrite for_range_cons.
  unfold period_step at 1. unfold bind at 1.
  unfold cvalue_of, bind, get_store. rewrite Hnone. reflexivity.
Qed.

Lemma loglike_missing_period_raises_witness :
  loglike Sample.transit_config Sample.flat_oracles [] Sample.celerite_store
  = (None,
     with_priors Sample.celerite_store
                 (assigned [] 0 (priors Sample.celerite_store))).
Proof.
  apply (loglike_missing_period_raises
           Sample.transit_config Sample.flat_oracles [] Sample.celerite_store
           1 []); first [reflexivity | cbn; lia].
Defined.

(* ----------------------------------------------------------------- *)
(** ** [prior] and [loglike] number the parameters alike *)

Lemma assigned_prefix (cube cube' : list R) :
  forall (entries : dict pinfo) (pcounter : nat),
    (forall k, (pcounter <= k < pcounter + count_free entries)%nat ->
               nth k cube 0 = nth k cube' 0) ->
    assigned cube pcounter entries = assigned cube' pcounter entries.
Proof.
  induction entries as [| [pname pi] rest IH]; intros pcounter Hsame.
  - reflexivity.
  - rewrite count_free_cons in Hsame. cbn [assigned].
    destruct (negb (ptype pi =? "fixed")%string).
    + rewrite (Hsame pcounter) by lia.
      rewrite (IH (S pcounter)) by (intros k Hk; apply Hsame; lia).
      reflexivity.
    + rewrite (IH pcounter) by exact Hsame. reflexivity.
Qed.

Lemma nth_floats (out : list cell) (k : nat) (x : R) :
  nth_error out k = Some (Some x) -> nth k (floats out) 0 = x.
Proof.
  intros H. unfold floats.
  apply (nth_error_nth (map _ out) k 0).
  rewrite nth_error_map, H. reflexivity.
Qed.

Lemma prior_loop_cells (utils : utils_transforms) (dynesty : bool)
      (cube : list R) :
  forall (entries : dict pinfo) (pcounter : nat) (out out' : list cell),
    readpriors_accepts entries = true ->
    prior_loop utils dynesty entries pcounter cube out = Some out' ->
    assigned (floats out') pcounter entries
    = transformed utils cube pcounter entries
    /\ (forall k, (k < pcounter)%nat -> nth_error out' k = nth_error out k).
Proof.
  induction entries as [| [pname pi] rest IH]; intros pcounter out out' Hacc H.
  - cbn in H. inversion H; subst. split; reflexivity.
  - cbn [readpriors_accepts forallb snd] in Hacc.
    apply andb_prop in Hacc. destruct Hacc as [Hsup Hacc].
    fold (readpriors_accepts rest) in Hacc.
    cbn [prior_loop assigned transformed] in *.
    destruct (ptype pi =? "fixed")%string eqn:Hfix; cbn [negb] in *.
    + destruct (IH _ _ _ Hacc H) as [IHeq IHold].
      split; [rewrite IHeq; reflexivity | exact IHold].
    + destruct (nth_error cube pcounter) as [u |] eqn:Hu; [| discriminate].
      rewrite (nth_error_nth _ _ 0 Hu).
      pose proof (dispatched_defined utils u pi
                    (transform_prior_dispatched utils u pi Hsup Hfix)) as Hdef.
      destruct (transform_prior utils u pi) as [x | |];
        [| contradiction | discriminate].
      destruct (write_cell pcounter (Some x) out) as [out1 |] eqn:Hw;
        [| discriminate].
      destruct (IH _ _ _ Hacc H) as [IHeq IHold].
      split.
      * rewrite IHeq. do 3 f_equal. apply nth_floats.
        rewrite IHold by lia. exact (write_cell_same _ _ _ _ Hw).
      * intros k Hk. rewrite IHold by lia.
        apply (write_cell_other _ _ _ _ _ Hw). lia.
Qed.

(** X16. The two callbacks handed to the sampler agree on the numbering:
    when [loglike] is called on the array [prior] produced from a unit
    cube, every free parameter ends up holding the transform, under its
    own prior, of the unit-cube entry of its own rank. *)
Theorem sampler_callbacks_agree (utils : utils_transforms) (cfg : config)
        (orc : oracles) (cube : list R) (transformed_priors out : list cell)
        (s s' : store) (v : R) :
  readpriors_accepts (priors s) = true ->
  prior utils cfg (priors s) cube transformed_priors = Some out ->
  loglike cfg orc (floats out) s = (Some v, s') ->
  priors s' = transformed utils cube 0 (priors s).
Proof.
  intros Hacc Hprior Hrun.
  rewrite (loglike_keeps_sample _ _ _ _ _ _ Hrun).
  unfold prior in Hprior.
  exact (proj1 (prior_loop_cells _ _ _ _ _ _ _ Hacc Hprior)).
Qed.

Lemma sampler_callbacks_agree_witness :
  exists v s',
    loglike Sample.transit_config Sample.flat_oracles
            (floats [Some (0 + 0.3 * (10 - 0)); Some (0 + 0.5 * (1 - 0))])
            Sample.transit_store = (Some v, s')
    /\ priors s'
       = transformed Sample.utils [0.3; 0.5] 0 (priors Sample.transit_store).
Proof.
  destruct (transit_sample_run (0 + 0.3 * (10 - 0)) (0 + 0.5 * (1 - 0))
                               ltac:(lra) ltac:(lra))
    as (v & s' & Hrun & _).
  exists v, s'. split; [exact Hrun |].
  apply (sampler_callbacks_agree
           Sample.utils Sample.transit_config Sample.flat_oracles
           [0.3; 0.5] [None; None]
           [Some (0 + 0.3 * (10 - 0)); Some (0 + 0.5 * (1 - 0))]
           Sample.transit_store s' v).
  - reflexivity.
  - reflexivity.
  - exact Hrun.
Defined.

(* ----------------------------------------------------------------- *)
(** ** Which planet the stellar-density term sees *)

Lemma bind_next_inv {A B} (m : M A) (k : A -> M B) (s s' : store) (b : B) :
  bind m k s = (Next b, s') ->
  exists a s1, m s = (Next a, s1) /\ k a s1 = (Next b, s').
Proof.
  unfold bind. destruct (m s) as [[a | v |] s1]; intros H;
    try discriminate.
  exists a, s1. split; [reflexivity | exact H].
Qed.

Lemma cvalue_of_next (name : string) (s s' : store) (v : R) :
  cvalue_of name s = (Next v, s') -> s' = s /\ cvalue_in s name = Some v.
Proof.
  unfold cvalue_of, bind, get_store, of_option.
  destruct (cvalue_in s name) as [x |]; intros H; inversion H; subst.
  split; reflexivity.
Qed.

(** Peel the lookups off a computation that went through. *)
Ltac peel H :=
  repeat match type of H with
    | bind (cvalue_of _) _ _ = (Next _, _) =>
        let a := fresh "x" in
        let s1 := fresh "s" in
        let Hm := fresh "Hm" in
        let Heq := fresh "Heq" in
        let Hv := fresh "Hv" in
        apply bind_next_inv in H; destruct H as (a & s1 & Hm & H);
        apply cvalue_of_next in Hm; destruct Hm as [Heq Hv]; subst s1
    end.

Lemma planet_geometry_next (cfg : config) (i : nat) (s s' : store)
      (a b p t0 P : R) :
  planet_geometry cfg i s = (Next (a, b, p, t0, P), s') ->
  s' = s
  /\ cvalue_in s ("P_p" ++ Num.str i) = Some P
  /\ (fitrho cfg = false -> cvalue_in s ("a_p" ++ Num.str i) = Some a).
Proof.
  unfold planet_geometry. intros H.
  destruct (efficient_bp cfg), (fitrho cfg); cbn [negb] in H.
  - apply bind_next_inv in H. destruct H as ([[[[a0 r1] r2] t1] P1] & s1 & H1 & H).
    peel H1. inversion H1; subst. inversion H; subst.
    repeat split; [assumption | discriminate].
  - apply bind_next_inv in H. destruct H as ([[[[a0 r1] r2] t1] P1] & s1 & H1 & H).
    peel H1. inversion H1; subst. inversion H; subst.
    repeat split; [assumption | intros _; assumption].
  - peel H. inversion H; subst. repeat split; [assumption | discriminate].
  - peel H. inversion H; subst.
    repeat split; [assumption | intros _; assumption].
Qed.

Lemma kp_transit_planet (cfg : config) (orc : oracles)
      (instrument : string) (n i : nat) (loc : locals) :
  keeps_priors (transit_planet cfg orc instrument n i loc).
Proof. unfold transit_planet. frame. Qed.

Lemma transit_planet_next (cfg : config) (orc : oracles)
      (instrument : string) (n i : nat) (loc loc' : locals) (s s' : store) :
  transit_planet cfg orc instrument n i loc s = (Next loc', s') ->
  exists a P,
    loc_a loc' = Some a /\ loc_P loc' = Some P
    /\ cvalue_in s ("P_p" ++ Num.str i) = Some P
    /\ (fitrho cfg = false -> cvalue_in s ("a_p" ++ Num.str i) = Some a).
Proof.
  intros H. unfold transit_planet in H.
  apply bind_next_inv in H. destruct H as ([] & s1 & Hld & H).
  pose proof (kp_set_limb_darkening instrument _ _ _ Hld) as Hp1.
  apply bind_next_inv in H.
  destruct H as ([[[[a b] p] t0] P] & s2 & Hg & H).
  apply planet_geometry_next in Hg. destruct Hg as (-> & HP & Ha).
  apply bind_next_inv in H. destruct H as (eo & s3 & _ & H).
  apply bind_next_inv in H. destruct H as (model & s4 & _ & H).
  apply bind_next_inv in H. destruct H as (model' & s5 & _ & H).
  inversion H; subst. exists a, P. cbn [loc_P loc_a].
  unfold cvalue_in in *. rewrite Hp1 in *.
  repeat split; assumption.
Qed.

Lemma for_range_snoc_next {B} (body : nat -> nat -> B -> M B) :
  forall (pre : list nat) (i n : nat) (acc r : B) (s s' : store),
    for_range (pre ++ [i]) n acc body s = (Next r, s') ->
    exists acc1 s1,
      for_range pre n acc body s = (Next acc1, s1)
      /\ body (n + List.length pre)%nat i acc1 s1 = (Next r, s').
Proof.
  induction pre as [| x pre IH]; intros i n acc r s s' H.
  - cbn [app] in H. rewrite for_range_cons in H.
    destruct (body n i acc s) as [[acc1 | v |] s1] eqn:Hb; try discriminate.
    cbn in H. inversion H; subst.
    exists acc, s. split; [reflexivity |].
    cbn [List.length]. rewrite Nat.add_0_r. exact Hb.
  - cbn [app] in H. rewrite for_range_cons in H.
    destruct (body n x acc s) as [[acc1 | v |] s1] eqn:Hb; try discriminate.
    destruct (IH _ _ _ _ _ _ H) as (acc2 & s2 & Hpre & Hlast).
    exists acc2, s2. split.
    + rewrite for_range_cons, Hb. exact Hpre.
    + cbn [List.length].
      replace (n + S (List.length pre))%nat with (S n + List.length pre)%nat
        by lia.
      exact Hlast.
Qed.

Lemma for_each_snoc_next {A B} (body : A -> B -> M B) :
  forall (pre : list A) (x : A) (acc r : B) (s s' : store),
    for_each (pre ++ [x]) acc body s = (Next r, s') ->
    exists acc1 s1,
      for_each pre acc body s = (Next acc1, s1)
      /\ body x acc1 s1 = (Next r, s').
Proof.
  induction pre as [| y pre IH]; intros x acc r s s' H.
  - cbn [app] in H. rewrite for_each_cons in H.
    destruct (body x acc s) as [[acc1 | v |] s1] eqn:Hb; try discriminate.
    cbn in H. inversion H; subst.
    exists acc, s. split; [reflexivity | exact Hb].
  - cbn [app] in H. rewrite for_each_cons in H.
    destruct (body y acc s) as [[acc1 | v |] s1] eqn:Hb; try discriminate.
    destruct (IH _ _ _ _ _ H) as (acc2 & s2 & Hpre & Hlast).
    exists acc2, s2. split; [| exact Hlast].
    rewrite for_each_cons, Hb. exact Hpre.
Qed.

(** X17. With several transiting planets, the [a] and [P] that reach the
    stellar-density term are those of the planet numbered last (read for
    the last instrument): the term constrains the density implied by that
    planet alone. *)
Theorem density_term_sees_last_planet (cfg : config) (orc : oracles)
        (loc0 loc : locals) (s s' : store) (instruments : list string)
        (instrument : string) (pre : list nat) (i : nat) :
  lcfilename cfg = true ->
  inames_lc cfg = instruments ++ [instrument] ->
  numbering_transit cfg = pre ++ [i] ->
  stellar_density cfg = true -> fitrho cfg = false ->
  photometric_section cfg orc loc0 s = (Next loc, s') ->
  exists a P,
    cvalue_in s ("a_p" ++ Num.str i) = Some a
    /\ cvalue_in s ("P_p" ++ Num.str i) = Some P
    /\ forall ll s2,
        stellar_density_term cfg loc ll s2
        = (Next (ll + - 0.5 * (ln (2 * PI) + 2 * ln (sd_sigma cfg)
                               + ((rho_from_a a P - sd_mean cfg)
                                  / sd_sigma cfg) ^ 2)), s2).
Proof.
  intros Hlc Hnames Hnum Hsd Hrho H.
  unfold photometric_section in H. rewrite Hlc, Hnames, Hnum in H.
  apply bind_next_inv in H. destruct H as ([] & s1 & Hgate & H).
  pose proof (kp_period_gate _ _ _ _ Hgate) as Hp1.
  apply for_each_snoc_next in H. destruct H as (loc1 & s2 & Hinst & H).
  assert (Hp2 : priors s2 = priors s1).
  { refine (kp_for_each _ _ _ _ _ _ _ Hinst).
    intros x acc. apply kp_for_range. intros n0 i0 acc0.
    apply kp_transit_planet. }
  apply for_range_snoc_next in H. destruct H as (loc2 & s3 & Hplanets & H).
  assert (Hp3 : priors s3 = priors s2).
  { refine (kp_for_range _ _ _ _ _ _ _ _ Hplanets).
    intros n0 i0 acc0. apply kp_transit_planet. }
  apply transit_planet_next in H. destruct H as (a & P & Hla & HlP & HP & Ha).
  specialize (Ha Hrho). unfold cvalue_in in HP, Ha.
  rewrite Hp3, Hp2, Hp1 in HP, Ha.
  exists a, P. split; [exact Ha | split; [exact HP |]].
  intros ll s4.
  apply (proj1 (stellar_density_term_spec cfg loc ll s4 Hsd Hrho));
    assumption.
Qed.

Lemma density_term_sees_last_planet_witness :
  exists loc s',
    photometric_section More.two_planet_config Sample.flat_oracles
                        (mk_locals None None None) More.two_planet_store
    = (Next loc, s')
    /\ forall ll s2,
        stellar_density_term More.two_planet_config loc ll s2
        = (Next (ll + - 0.5 * (ln (2 * PI) + 2 * ln 100
                               + ((rho_from_a 20 7 - 1410) / 100) ^ 2)), s2).
Proof.
  assert (Hrun : exists loc s',
             photometric_section More.two_planet_config Sample.flat_oracles
                                 (mk_locals None None None)
                                 More.two_planet_store
             = (Next loc, s')).
  { eexists. eexists. run_more. cmp. run. cmp. run. cmp. run. reflexivity. }
  destruct Hrun as (loc & s' & Hrun). exists loc, s'.
  split; [exact Hrun |].
  destruct (density_term_sees_last_planet
              More.two_planet_config Sample.flat_oracles
              (mk_locals None None None) loc More.two_planet_store s'
              [] "TESS" [1%nat] 2
              eq_refl eq_refl eq_refl eq_refl eq_refl Hrun)
    as (a & P & Ha & HP & Hterm).
  injection Ha as <-. injection HP as <-. exact Hterm.
Defined.

(* ----------------------------------------------------------------- *)
(** ** The floor is the only early return *)

Lemma rf_ret {A} (a : A) : returns_only_floor (ret a).
Proof. intros s v s' H. inversion H. Qed.

Lemma rf_floor {A} : returns_only_floor (@return_ A floor_value).
Proof. intros s v s' H. inversion H. reflexivity. Qed.

Lemma rf_raise {A} : returns_only_floor (@raise A).
Proof. intros s v s' H. inversion H. Qed.

Lemma rf_of_option {A} (x : option A) : returns_only_floor (of_option x).
Proof. destruct x; [apply rf_ret | apply rf_raise]. Qed.

Lemma rf_get_store : returns_only_floor get_store.
Proof. intros s v s' H. inversion H. Qed.

Lemma rf_modify (f : store -> store) : returns_only_floor (modify f).
Proof. intros s v s' H. inversion H. Qed.

Lemma rf_bind {A B} (m : M A) (k : A -> M B) :
  returns_only_floor m -> (forall a, returns_only_floor (k a)) ->
  returns_only_floor (bind m k).
Proof.
  intros Hm Hk s v s' H. unfold bind in H.
  destruct (m s) as [[a | v1 |] s1] eqn:Hms.
  - exact (Hk a s1 v s' H).
  - inversion H; subst. exact (Hm _ _ _ Hms).
  - discriminate.
Qed.

Lemma rf_for_each {A B} (body : A -> B -> M B) :
  (forall x acc, returns_only_floor (body x acc)) ->
  forall xs acc, returns_only_floor (for_each xs acc body).
Proof.
  intros Hbody. induction xs as [| x xs IH]; intros acc; cbn [for_each].
  - apply rf_ret.
  - apply rf_bind; [apply Hbody | intros a; apply IH].
Qed.

Lemma rf_for_range {B} (body : nat -> nat -> B -> M B) :
  (forall n i acc, returns_only_floor (body n i acc)) ->
  forall xs n acc, returns_only_floor (for_range xs n acc body).
Proof.
  intros Hbody. induction xs as [| x xs IH]; intros n acc; cbn [for_range].
  - apply rf_ret.
  - apply rf_bind; [apply Hbody | intros a; apply IH].
Qed.

Create HintDb floor.

#[local] Hint Resolve rf_ret rf_floor rf_raise rf_of_option rf_get_store
  rf_modify : floor.

Ltac floor_only :=
  repeat first
    [ progress intros
    | solve [auto with floor]
    | apply rf_bind
    | apply rf_for_each
    | apply rf_for_range
    | match goal with
      | |- returns_only_floor (if ?b then _ else _) => destruct b
      | |- returns_only_floor (match ?x with _ => _ end) => destruct x
      end ].

Lemma rf_assign_cvalues (cube : list R) :
  returns_only_floor (assign_cvalues cube).
Proof.
  intros s v s' H. unfold assign_cvalues in H.
  destruct (assign_loop cube 0 (priors s)) as [o p'] eqn:Ha.
  inversion H; subst. exfalso. exact (assign_loop_no_return _ _ _ _ _ Ha).
Qed.

#[local] Hint Resolve rf_assign_cvalues : floor.

Lemma rf_photometric_part (cfg : config) (orc : oracles) (cube : list R) :
  returns_only_floor (photometric_part cfg orc cube).
Proof.
  unfold photometric_part, photometric_section, period_gate, period_step,
    transit_planet, set_limb_darkening, planet_geometry, resolve_ecc_transit,
    transit_model_step, inclination_step, multiply_lcmodel,
    lc_instrument_likelihood, marshal_lc_GPVector, set_lc_GPVector, lc_hyper,
    stellar_density_term, cvalue_of, lc_entry_of, set_lc_entry.
  floor_only.
Qed.

Lemma rf_rv_section (cfg : config) (orc : oracles) :
  returns_only_floor (rv_section cfg orc).
Proof.
  unfold rv_section, period_gate, period_step, rv_planet, resolve_ecc_rv,
    cvalue_of, set_radvel.
  floor_only.
Qed.

Lemma rf_rv_trend (cfg : config) (m : option array) :
  returns_only_floor (rv_trend cfg m).
Proof. unfold rv_trend, cvalue_of. floor_only. Qed.

Lemma rf_rv_instrument_likelihood (cfg : config) (m : option array)
      (instrument : string) (ll : R) :
  returns_only_floor (rv_instrument_likelihood cfg m instrument ll).
Proof. unfold rv_instrument_likelihood, cvalue_of. floor_only. Qed.

Lemma rf_rv_gp_term (cfg : config) (orc : oracles) (ll : R) :
  returns_only_floor (rv_gp_term cfg orc ll).
Proof.
  unfold rv_gp_term, marshal_rv_GPVector, set_rv_GPVector, rv_hyper,
    cvalue_of.
  floor_only.
Qed.

(** X18. [loglike] never returns a partial sum.  A returned value other
    than [-1e101] comes from the last statement, after the photometric
    terms, the RV model, the trend, every RV instrument and the GP term
    have all run to their end; every earlier [return] yields the floor. *)
Theorem loglike_floor_or_complete (cfg : config) (orc : oracles)
        (cube : list R) (s s' : store) (v : R) :
  loglike cfg orc cube s = (Some v, s') ->
  v = floor_value
  \/ exists ll2 s2 rvmodel s3 rvmodel' s4 ll3 s5,
      photometric_part cfg orc cube s = (Next ll2, s2)
      /\ rv_section cfg orc s2 = (Next rvmodel, s3)
      /\ rv_trend cfg rvmodel s3 = (Next rvmodel', s4)
      /\ for_each (inames_rv cfg) ll2
                  (rv_instrument_likelihood cfg rvmodel') s4 = (Next ll3, s5)
      /\ rv_gp_term cfg orc ll3 s5 = (Next v, s').
Proof.
  unfold loglike, loglike_body, rv_part. intros H.
  unfold bind at 1 in H.
  destruct (photometric_part cfg orc cube s) as [[ll2 | v1 |] s2] eqn:H1.
  2: { inversion H; subst. left. exact (rf_photometric_part _ _ _ _ _ _ H1). }
  2: { discriminate. }
  unfold bind at 1 in H.
  destruct (rv_section cfg orc s2) as [[rvm | v1 |] s3] eqn:H2.
  2: { inversion H; subst. left. exact (rf_rv_section _ _ _ _ _ H2). }
  2: { discriminate. }
  unfold bind at 1 in H.
  destruct (rv_trend cfg rvm s3) as [[rvm' | v1 |] s4] eqn:H3.
  2: { inversion H; subst. left. exact (rf_rv_trend _ _ _ _ _ H3). }
  2: { discriminate. }
  unfold bind at 1 in H.
  destruct (for_each (inames_rv cfg) ll2
                     (rv_instrument_likelihood cfg rvm') s4)
    as [[ll3 | v1 |] s5] eqn:H4.
  2: { inversion H; subst. left.
       refine (rf_for_each _ _ _ _ _ _ _ H4).
       intros x acc. apply rf_rv_instrument_likelihood. }
  2: { discriminate. }
  unfold bind at 1 in H.
  destruct (rv_gp_term cfg orc ll3 s5) as [[ll4 | v1 |] s6] eqn:H5.
  2: { inversion H; subst. left. exact (rf_rv_gp_term _ _ _ _ _ _ H5). }
  2: { discriminate. }
  cbn in H. inversion H; subst. right.
  exists ll2, s2, rvm, s3, rvm', s4, ll3, s5. repeat split; assumption.
Qed.

Lemma loglike_floor_or_complete_witness :
  exists v s',
    loglike Sample.transit_config Sample.flat_oracles [3; 0.1]
            Sample.transit_store = (Some v, s')
    /\ (v = floor_value
        \/ exists ll2 s2 rvmodel s3 rvmodel' s4 ll3 s5,
            photometric_part Sample.transit_config Sample.flat_oracles
                             [3; 0.1] Sample.transit_store = (Next ll2, s2)
            /\ rv_section Sample.transit_config Sample.flat_oracles s2
               = (Next rvmodel, s3)
            /\ rv_trend Sample.transit_config rvmodel s3
               = (Next rvmodel', s4)
            /\ for_each (inames_rv Sample.transit_config) ll2
                        (rv_instrument_likelihood Sample.transit_config
                                                  rvmodel') s4
               = (Next ll3, s5)
            /\ rv_gp_term Sample.transit_config Sample.flat_oracles ll3 s5
               = (Next v, s')).
Proof.
  destruct (transit_sample_run 3 0.1 ltac:(lra) ltac:(lra))
    as (v & s' & Hrun & _).
  exists v, s'. split; [exact Hrun |].
  apply (loglike_floor_or_complete Sample.transit_config Sample.flat_oracles
                                   [3; 0.1] Sample.transit_store s' v Hrun).
Defined.

(* ----------------------------------------------------------------- *)
(** ** Dictionaries *)

Lemma dict_get_set_same {V} (d : dict V) (k : string) (v : V) :
  Dict.get (Dict.set d k v) k = Some v.
Proof.
  induction d as [| [k' v'] d IH]; cbn.
  - rewrite String.eqb_refl. reflexivity.
  - destruct (k' =? k)%string eqn:Hk; cbn; rewrite Hk; [reflexivity | exact IH].
Qed.

Lemma dict_get_set_other {V} (d : dict V) (k k2 : string) (v : V) :
  (k =? k2)%string = false ->
  Dict.get (Dict.set d k v) k2 = Dict.get d k2.
Proof.
  intros Hne. induction d as [| [k' v'] d IH]; cbn.
  - rewrite Hne. reflexivity.
  - destruct (k' =? k)%string eqn:Hk; cbn.
    + apply String.eqb_eq in Hk. subst k'. rewrite Hne. reflexivity.
    + destruct (k' =? k2)%string; [reflexivity | exact IH].
Qed.

Lemma dict_set_set {V} (d : dict V) (k : string) (v v' : V) :
  Dict.set (Dict.set d k v) k v' = Dict.set d k v'.
Proof.
  induction d as [| [k' v0] d IH]; cbn.
  - rewrite String.eqb_refl. reflexivity.
  - destruct (k' =? k)%string eqn:Hk; cbn; rewrite Hk;
      [reflexivity | rewrite IH; reflexivity].
Qed.

Lemma dict_set_get_id {V} (d : dict V) (k : string) (v : V) :
  Dict.get d k = Some v -> Dict.set d k v = d.
Proof.
  induction d as [| [k' v'] d IH]; cbn; intros H.
  - discriminate.
  - destruct (k' =? k)%string.
    + inversion H. reflexivity.
    + rewrite (IH H). reflexivity.
Qed.

(* ----------------------------------------------------------------- *)
(** ** The GP vectors are rebuilt from the registry *)

Section LcVector.

Variables (s : store) (instrument : string) (e : lc_entry).
Hypothesis He : Dict.get (lc_dictionary s) instrument = Some e.

Lemma with_lc_vector_start :
  with_lc_vector s instrument e (GPVector e) = s.
Proof.
  unfold with_lc_vector.
  replace (with_GPVector e (GPVector e)) with e by (destruct e; reflexivity).
  rewrite (dict_set_get_id _ _ _ He). destruct s; reflexivity.
Qed.

Lemma lc_entry_of_vector (v : array) :
  lc_entry_of instrument (with_lc_vector s instrument e v)
  = (Next (with_GPVector e v), with_lc_vector s instrument e v).
Proof.
  apply lc_entry_of_some. unfold with_lc_vector.
  cbn [lc_dictionary with_lc_dictionary]. apply dict_get_set_same.
Qed.

Lemma set_lc_GPVector_step (k : nat) (x : R) (v v' : array) :
  Array.set_nth k x v = Some v' ->
  set_lc_GPVector instrument k x (with_lc_vector s instrument e v)
  = (Next tt, with_lc_vector s instrument e v').
Proof.
  intros Hset. unfold set_lc_GPVector.
  rewrite (bind_next _ _ _ _ _ (lc_entry_of_vector v)).
  cbn [GPVector with_GPVector]. rewrite Hset. cbn [of_option].
  rewrite bind_ret. unfold set_lc_entry, modify, with_lc_vector.
  cbn [lc_dictionary with_lc_dictionary]. rewrite dict_set_set.
  reflexivity.
Qed.

Lemma lc_hyper_step (prefix role group : string) (x : R) (v : array) :
  Dict.get (GP_group e) role = Some group ->
  cvalue_in s (prefix ++ group) = Some x ->
  lc_hyper instrument prefix role (with_lc_vector s instrument e v)
  = (Next x, with_lc_vector s instrument e v).
Proof.
  intros Hg Hx. unfold lc_hyper.
  rewrite (bind_next _ _ _ _ _ (lc_entry_of_vector v)).
  cbn [GP_group with_GPVector]. rewrite Hg. cbn [of_option].
  rewrite bind_ret. apply cvalue_of_some. exact Hx.
Qed.

Lemma cvalue_of_step (name : string) (x : R) (v : array) :
  cvalue_in s name = Some x ->
  cvalue_of name (with_lc_vector s instrument e v)
  = (Next x, with_lc_vector s instrument e v).
Proof. intros Hx. apply cvalue_of_some. exact Hx. Qed.

(** Run the next write into the vector, or the next lookup. *)
Ltac vector_step :=
  match goal with
  | |- context [bind (set_lc_GPVector _ ?k ?x) _ (with_lc_vector _ _ _ ?v)] =>
      let r := eval cbv beta iota delta [Array.set_nth] in
                 (Array.set_nth k x v) in
      match r with
      | Some ?v' =>
          rewrite (bind_next _ _ _ _ _ (set_lc_GPVector_step k x v v' eq_refl))
      end
  | |- context [set_lc_GPVector _ ?k ?x (with_lc_vector _ _ _ ?v)] =>
      let r := eval cbv beta iota delta [Array.set_nth] in
                 (Array.set_nth k x v) in
      match r with
      | Some ?v' => rewrite (set_lc_GPVector_step k x v v' eq_refl)
      end
  end.

(** X19. For the two five-parameter photometric kernels the vector
    handed to the GP is rebuilt entirely from the registry: all five
    entries are written at each evaluation, in the kernel's order, and
    nothing of the previous vector survives. *)
Theorem lc_GPVector_rebuilt (sigma_w : R) :
  List.length (GPVector e) = 5%nat ->
  cvalue_in s ("sigma_w_" ++ instrument) = Some sigma_w ->
  (forall g_sigma g_alpha g_Gamma g_Prot GP_sigma GP_alpha GP_Gamma GP_Prot,
      GPType e = ExpSineSquaredSEKernel ->
      Dict.get (GP_group e) "GP_sigma" = Some g_sigma ->
      Dict.get (GP_group e) "GP_alpha" = Some g_alpha ->
      Dict.get (GP_group e) "GP_Gamma" = Some g_Gamma ->
      Dict.get (GP_group e) "GP_Prot" = Some g_Prot ->
      cvalue_in s ("GP_sigma_" ++ g_sigma) = Some GP_sigma ->
      cvalue_in s ("GP_alpha_" ++ g_alpha) = Some GP_alpha ->
      cvalue_in s ("GP_Gamma_" ++ g_Gamma) = Some GP_Gamma ->
      cvalue_in s ("GP_Prot_" ++ g_Prot) = Some GP_Prot ->
      marshal_lc_GPVector instrument s
      = (Next tt,
         with_lc_vector s instrument e
           [ln ((sigma_w * 1e-6) ^ 2); ln ((GP_sigma * 1e-6) ^ 2);
            ln (1 / GP_alpha); GP_Gamma; ln GP_Prot]))
  /\ (forall g_B g_L g_Prot g_C GP_B GP_L GP_Prot GP_C,
         GPType e = CeleriteQPKernel ->
         Dict.get (GP_group e) "GP_B" = Some g_B ->
         Dict.get (GP_group e) "GP_L" = Some g_L ->
         Dict.get (GP_group e) "GP_Prot" = Some g_Prot ->
         Dict.get (GP_group e) "GP_C" = Some g_C ->
         cvalue_in s ("GP_B_" ++ g_B) = Some GP_B ->
         cvalue_in s ("GP_L_" ++ g_L) = Some GP_L ->
         cvalue_in s ("GP_Prot_" ++ g_Prot) = Some GP_Prot ->
         cvalue_in s ("GP_C_" ++ g_C) = Some GP_C ->
         marshal_lc_GPVector instrument s
         = (Next tt,
            with_lc_vector s instrument e
              [ln GP_B; ln GP_L; ln GP_Prot; ln GP_C; ln (sigma_w * 1e-6)])).
Proof.
  intros Hlen Hsw.
  destruct (GPVector e) as [| v0 [| v1 [| v2 [| v3 [| v4 [| ? ?]]]]]] eqn:Hv;
    cbn in Hlen; try discriminate.
  split.
  - intros g_sigma g_alpha g_Gamma g_Prot GP_sigma GP_alpha GP_Gamma GP_Prot
           Hk H1 H2 H3 H4 C1 C2 C3 C4.
    rewrite <- with_lc_vector_start at 1. rewrite Hv.
    unfold marshal_lc_GPVector.
    rewrite (bind_next _ _ _ _ _ (lc_entry_of_vector [v0; v1; v2; v3; v4])).
    cbn [GPType with_GPVector]. rewrite Hk.
    rewrite (bind_next _ _ _ _ _ (cvalue_of_step _ _ _ Hsw)).
    vector_step.
    rewrite (bind_next _ _ _ _ _ (lc_hyper_step _ _ _ _ _ H1 C1)).
    vector_step.
    rewrite (bind_next _ _ _ _ _ (lc_hyper_step _ _ _ _ _ H2 C2)).
    vector_step.
    rewrite (bind_next _ _ _ _ _ (lc_hyper_step _ _ _ _ _ H3 C3)).
    vector_step.
    rewrite (bind_next _ _ _ _ _ (lc_hyper_step _ _ _ _ _ H4 C4)).
    vector_step. reflexivity.
  - intros g_B g_L g_Prot g_C GP_B GP_L GP_Prot GP_C Hk H1 H2 H3 H4
           C1 C2 C3 C4.
    rewrite <- with_lc_vector_start at 1. rewrite Hv.
    unfold marshal_lc_GPVector.
    rewrite (bind_next _ _ _ _ _ (lc_entry_of_vector [v0; v1; v2; v3; v4])).
    cbn [GPType with_GPVector]. rewrite Hk.
    rewrite (bind_next _ _ _ _ _ (lc_hyper_step _ _ _ _ _ H1 C1)).
    vector_step.
    rewrite (bind_next _ _ _ _ _ (lc_hyper_step _ _ _ _ _ H2 C2)).
    vector_step.
    rewrite (bind_next _ _ _ _ _ (lc_hyper_step _ _ _ _ _ H3 C3)).
    vector_step.
    rewrite (bind_next _ _ _ _ _ (lc_hyper_step _ _ _ _ _ H4 C4)).
    vector_step.
    rewrite (bind_next _ _ _ _ _ (cvalue_of_step _ _ _ Hsw)).
    vector_step. reflexivity.
Qed.

End LcVector.

Lemma lc_GPVector_rebuilt_witness :
  marshal_lc_GPVector "TESS" Sample.celerite_store
  = (Next tt,
     with_lc_vector Sample.celerite_store "TESS" More.celerite_entry
                    [ln 2; ln 5; ln 3; ln 1; ln (100 * 1e-6)]).
Proof.
  apply (proj2 (lc_GPVector_rebuilt Sample.celerite_store "TESS"
                                    More.celerite_entry eq_refl 100
                                    eq_refl eq_refl)
               "TESS"%string "TESS"%string "TESS"%string "TESS"%string
               2 5 3 1); reflexivity.
Defined.

Section RvVector.

Variable s : store.

Lemma set_rv_GPVector_step (k : nat) (x : R) (v v' : array) :
  Array.set_nth k x v = Some v' ->
  set_rv_GPVector k x (with_rv_vector s v) = (Next tt, with_rv_vector s v').
Proof.
  intros Hset. unfold set_rv_GPVector, bind, get_store.
  cbn [with_rv_vector with_rv_dictionary rv_dictionary rv_GPVector
                      with_rv_GPVector].
  rewrite Hset. reflexivity.
Qed.

Lemma rv_hyper_step (prefix role group : string) (x : R) (v : array) :
  Dict.get (rv_GP_group (rv_dictionary s)) role = Some group ->
  cvalue_in s (prefix ++ group) = Some x ->
  rv_hyper prefix role (with_rv_vector s v) = (Next x, with_rv_vector s v).
Proof.
  intros Hg Hx. unfold rv_hyper, bind at 1, get_store.
  cbn [with_rv_vector with_rv_dictionary rv_dictionary rv_GP_group
                      with_rv_GPVector].
  rewrite Hg. cbn [of_option]. rewrite bind_ret.
  apply cvalue_of_some. exact Hx.
Qed.

Lemma with_rv_vector_start :
  with_rv_vector s (rv_GPVector (rv_dictionary s)) = s.
Proof.
  unfold with_rv_vector. destruct s as [p l r rp rr re]. destruct r.
  reflexivity.
Qed.

Ltac rv_vector_step :=
  match goal with
  | |- context [bind (set_rv_GPVector ?k ?x) _ (with_rv_vector _ ?v)] =>
      let r := eval cbv beta iota delta [Array.set_nth] in
                 (Array.set_nth k x v) in
      match r with
      | Some ?v' =>
          rewrite (bind_next _ _ _ _ _ (set_rv_GPVector_step k x v v' eq_refl))
      end
  | |- context [set_rv_GPVector ?k ?x (with_rv_vector _ ?v)] =>
      let r := eval cbv beta iota delta [Array.set_nth] in
                 (Array.set_nth k x v) in
      match r with
      | Some ?v' => rewrite (set_rv_GPVector_step k x v v' eq_refl)
      end
  end.

(** X20. The vector of the radial-velocity GP.  The exp-sine-squared
    kernel's four entries are all rewritten at each evaluation.  The
    quasi-periodic kernel rewrites its first four entries and leaves
    whatever follows them in the vector as it was. *)
Theorem rv_GPVector_rebuilt :
  (forall v0 v1 v2 v3 g_sigma g_alpha g_Gamma g_Prot
          GP_sigma GP_alpha GP_Gamma GP_Prot,
      rv_GPType (rv_dictionary s) = ExpSineSquaredSEKernel ->
      rv_GPVector (rv_dictionary s) = [v0; v1; v2; v3] ->
      Dict.get (rv_GP_group (rv_dictionary s)) "GP_sigma" = Some g_sigma ->
      Dict.get (rv_GP_group (rv_dictionary s)) "GP_alpha" = Some g_alpha ->
      Dict.get (rv_GP_group (rv_dictionary s)) "GP_Gamma" = Some g_Gamma ->
      Dict.get (rv_GP_group (rv_dictionary s)) "GP_Prot" = Some g_Prot ->
      cvalue_in s ("GP_sigma_" ++ g_sigma) = Some GP_sigma ->
      cvalue_in s ("GP_alpha_" ++ g_alpha) = Some GP_alpha ->
      cvalue_in s ("GP_Gamma_" ++ g_Gamma) = Some GP_Gamma ->
      cvalue_in s ("GP_Prot_" ++ g_Prot) = Some GP_Prot ->
      marshal_rv_GPVector s
      = (Next tt,
         with_rv_vector s [ln (GP_sigma ^ 2); ln (1 / GP_alpha); GP_Gamma;
                           ln GP_Prot]))
  /\ (forall v0 v1 v2 v3 tail g_B g_L g_Prot g_C GP_B GP_L GP_Prot GP_C,
         rv_GPType (rv_dictionary s) = CeleriteQPKernel ->
         rv_GPVector (rv_dictionary s) = v0 :: v1 :: v2 :: v3 :: tail ->
         Dict.get (rv_GP_group (rv_dictionary s)) "GP_B" = Some g_B ->
         Dict.get (rv_GP_group (rv_dictionary s)) "GP_L" = Some g_L ->
         Dict.get (rv_GP_group (rv_dictionary s)) "GP_Prot" = Some g_Prot ->
         Dict.get (rv_GP_group (rv_dictionary s)) "GP_C" = Some g_C ->
         cvalue_in s ("GP_B_" ++ g_B) = Some GP_B ->
         cvalue_in s ("GP_L_" ++ g_L) = Some GP_L ->
         cvalue_in s ("GP_Prot_" ++ g_Prot) = Some GP_Prot ->
         cvalue_in s ("GP_C_" ++ g_C) = Some GP_C ->
         marshal_rv_GPVector s
         = (Next tt,
            with_rv_vector s (ln GP_B :: ln GP_L :: ln GP_Prot :: ln GP_C
                                 :: tail))).
Proof.
  split.
  - intros v0 v1 v2 v3 g_sigma g_alpha g_Gamma g_Prot
           GP_sigma GP_alpha GP_Gamma GP_Prot Hk Hv H1 H2 H3 H4 C1 C2 C3 C4.
    rewrite <- with_rv_vector_start at 1. rewrite Hv.
    unfold marshal_rv_GPVector. unfold bind at 1, get_store.
    cbn [with_rv_vector with_rv_dictionary rv_dictionary rv_GPType
                        with_rv_GPVector].
    rewrite Hk. fold (with_rv_vector s [v0; v1; v2; v3]).
    rewrite (bind_next _ _ _ _ _ (rv_hyper_step _ _ _ _ _ H1 C1)).
    rv_vector_step.
    rewrite (bind_next _ _ _ _ _ (rv_hyper_step _ _ _ _ _ H2 C2)).
    rv_vector_step.
    rewrite (bind_next _ _ _ _ _ (rv_hyper_step _ _ _ _ _ H3 C3)).
    rv_vector_step.
    rewrite (bind_next _ _ _ _ _ (rv_hyper_step _ _ _ _ _ H4 C4)).
    rv_vector_step. reflexivity.
  - intros v0 v1 v2 v3 tail g_B g_L g_Prot g_C GP_B GP_L GP_Prot GP_C
           Hk Hv H1 H2 H3 H4 C1 C2 C3 C4.
    rewrite <- with_rv_vector_start at 1. rewrite Hv.
    unfold marshal_rv_GPVector. unfold bind at 1, get_store.
    cbn [with_rv_vector with_rv_dictionary rv_dictionary rv_GPType
                        with_rv_GPVector].
    rewrite Hk. fold (with_rv_vector s (v0 :: v1 :: v2 :: v3 :: tail)).
    rewrite (bind_next _ _ _ _ _ (rv_hyper_step _ _ _ _ _ H1 C1)).
    rv_vector_step.
    rewrite (bind_next _ _ _ _ _ (rv_hyper_step _ _ _ _ _ H2 C2)).
    rv_vector_step.
    rewrite (bind_next _ _ _ _ _ (rv_hyper_step _ _ _ _ _ H3 C3)).
    rv_vector_step.
    rewrite (bind_next _ _ _ _ _ (rv_hyper_step _ _ _ _ _ H4 C4)).
    rv_vector_step. reflexivity.
Qed.

End RvVector.

Lemma rv_GPVector_rebuilt_witness :
  marshal_rv_GPVector Sample.celerite_store
  = (Next tt,
     with_rv_vector Sample.celerite_store [ln 2; ln 5; ln 3; ln 1; 0]).
Proof.
  apply (proj2 (rv_GPVector_rebuilt Sample.celerite_store)
               0 0 0 0 [0] "rv"%string "rv"%string "rv"%string "rv"%string
               2 5 3 1); reflexivity.
Defined.

(* ----------------------------------------------------------------- *)
(** ** From the setup of a GP to its evaluation *)

Lemma split_not_nil (sep : ascii) (s : string) : Str.split sep s <> [].
Proof.
  destruct s as [| c rest]; cbn [Str.split]; [discriminate |].
  destruct (Ascii.eqb c sep); [discriminate |].
  destruct (Str.split sep rest); discriminate.
Qed.

(** [sep.join(s.split(sep))] is [s]. *)
Lemma join_split (sep : ascii) (s : string) :
  Str.join (String sep EmptyString) (Str.split sep s) = s.
Proof.
  induction s as [| c rest IH]; [reflexivity |].
  cbn [Str.split]. pose proof (split_not_nil sep rest) as Hnil.
  destruct (Str.split sep rest) as [| w ws] eqn:Hs; [contradiction |].
  destruct (Ascii.eqb_spec c sep) as [-> | Hne].
  - change (Str.join (String sep "") ("" :: w :: ws)%string)
      with (String sep (Str.join (String sep "") (w :: ws))).
    rewrite IH. reflexivity.
  - destruct ws as [| w' ws'].
    + cbn [Str.join] in *. rewrite IH. reflexivity.
    + change (Str.join (String sep "") (String c w :: w' :: ws'))
        with (String c (Str.join (String sep "") (w :: w' :: ws'))).
      rewrite IH. reflexivity.
Qed.

Lemma string_append_assoc (a b c : string) :
  ((a ++ b) ++ c = a ++ b ++ c)%string.
Proof.
  induction a as [| x a IH]; [reflexivity |].
  cbn [append]. rewrite IH. reflexivity.
Qed.

(** A name with at least three fields is rebuilt from its first two
    fields and the joined rest. *)
Lemma name_of_fields (pnames v0 v1 r : string) (rest : list string) :
  Str.split "_" pnames = v0 :: v1 :: r :: rest ->
  pnames = (v0 ++ "_" ++ v1 ++ "_" ++ Str.join "_" (r :: rest))%string.
Proof.
  intros Hs. rewrite <- (join_split "_" pnames) at 1. rewrite Hs.
  reflexivity.
Qed.

Lemma dict_get_mem_fst {V} (d : dict V) (k : string) :
  In k (map fst d) -> exists v, Dict.get d k = Some v.
Proof.
  induction d as [| [k' v'] d IH]; intros Hin; [contradiction |].
  cbn [Dict.get]. destruct (String.eqb_spec k' k) as [-> | Hne].
  - exists v'. reflexivity.
  - destruct Hin as [Heq | Hin]; [contradiction | exact (IH Hin)].
Qed.

(** Where a binding found after the inner loop comes from: it was there
    before, or it is the group of a name that passed the test. *)
Lemma bind_GP_variable_origin (in_group : list string -> bool)
      (GPvariable : string) (keys : list string) :
  forall (group group' : dict string) (role g : string),
    bind_GP_variable in_group GPvariable keys group = Some group' ->
    Dict.get group' role = Some g ->
    Dict.get group role = Some g
    \/ (role = ("GP_" ++ GPvariable)%string
        /\ exists pnames,
            In pnames keys
            /\ gp_name_matches in_group GPvariable (Str.split "_" pnames)
               = Some true
            /\ g = Str.join "_" (skipn 2 (Str.split "_" pnames))).
Proof.
  induction keys as [| pnames rest IH]; intros group group' role g Hb Hg.
  - injection Hb as <-. left. exact Hg.
  - cbn [bind_GP_variable] in Hb.
    destruct (gp_name_matches in_group GPvariable (Str.split "_" pnames))
      as [[|] |] eqn:Hm; [| | discriminate].
    + destruct (IH _ _ _ _ Hb Hg) as [Hold | (Hrole & k & Hin & Hk & Hgk)].
      * destruct (String.eqb_spec ("GP_" ++ GPvariable) role) as [<- | Hne].
        -- rewrite dict_get_set_same in Hold. injection Hold as <-.
           right. split; [reflexivity |].
           exists pnames. split; [left; reflexivity |]. split; [exact Hm |].
           reflexivity.
        -- rewrite dict_get_set_other in Hold
             by (apply String.eqb_neq; exact Hne).
           left. exact Hold.
      * right. split; [exact Hrole |]. exists k.
        split; [right; exact Hin |]. split; assumption.
    + destruct (IH _ _ _ _ Hb Hg) as [Hold | (Hrole & k & Hin & Hk & Hgk)].
      * left. exact Hold.
      * right. split; [exact Hrole |]. exists k.
        split; [right; exact Hin |]. split; assumption.
Qed.

Lemma bind_GP_variables_origin (in_group : list string -> bool)
      (keys : list string) (GPvariables : list string) :
  forall (group group' : dict string) (role g : string),
    bind_GP_variables in_group GPvariables keys group = Some group' ->
    Dict.get group' role = Some g ->
    Dict.get group role = Some g
    \/ exists GPvariable pnames,
        In GPvariable GPvariables
        /\ role = ("GP_" ++ GPvariable)%string
        /\ In pnames keys
        /\ gp_name_matches in_group GPvariable (Str.split "_" pnames)
           = Some true
        /\ g = Str.join "_" (skipn 2 (Str.split "_" pnames)).
Proof.
  induction GPvariables as [| v vs IH]; intros group group' role g Hb Hg.
  - injection Hb as <-. left. exact Hg.
  - cbn [bind_GP_variables] in Hb.
    destruct (bind_GP_variable in_group v keys group) as [group1 |] eqn:H1;
      [| discriminate].
    destruct (IH _ _ _ _ Hb Hg)
      as [Hmid | (v' & k & Hv' & Hrole & Hin & Hk & Hgk)].
    + destruct (bind_GP_variable_origin _ _ _ _ _ _ _ H1 Hmid)
        as [Hold | (Hrole & k & Hin & Hk & Hgk)].
      * left. exact Hold.
      * right. exists v, k. split; [left; reflexivity |].
        repeat split; assumption.
    + right. exists v', k. split; [right; exact Hv' |].
      repeat split; assumption.
Qed.

(** A binding once made is never removed. *)
Lemma bind_GP_variable_keeps (in_group : list string -> bool)
      (GPvariable : string) (keys : list string) :
  forall (group group' : dict string) (role : string),
    bind_GP_variable in_group GPvariable keys group = Some group' ->
    Dict.mem group role = true -> Dict.mem group' role = true.
Proof.
  induction keys as [| pnames rest IH]; intros group group' role Hb Hm.
  - injection Hb as <-. exact Hm.
  - cbn [bind_GP_variable] in Hb.
    destruct (gp_name_matches in_group GPvariable (Str.split "_" pnames))
      as [[|] |]; [| | discriminate].
    + apply (IH _ _ _ Hb). unfold Dict.mem in *.
      destruct (String.eqb_spec ("GP_" ++ GPvariable) role) as [<- | Hne].
      * rewrite dict_get_set_same. reflexivity.
      * rewrite dict_get_set_other by (apply String.eqb_neq; exact Hne).
        exact Hm.
    + exact (IH _ _ _ Hb Hm).
Qed.

Lemma bind_GP_variable_binds (in_group : list string -> bool)
      (GPvariable : string) (keys : list string) :
  forall (group group' : dict string),
    bind_GP_variable in_group GPvariable keys group = Some group' ->
    some_name_matches in_group GPvariable keys = true ->
    Dict.mem group' ("GP_" ++ GPvariable) = true.
Proof.
  induction keys as [| pnames rest IH]; intros group group' Hb Hm.
  - discriminate.
  - cbn [bind_GP_variable] in Hb. unfold some_name_matches in Hm.
    cbn [existsb] in Hm.
    destruct (gp_name_matches in_group GPvariable (Str.split "_" pnames))
      as [[|] |]; [| | discriminate].
    + apply (bind_GP_variable_keeps _ _ _ _ _ _ Hb).
      unfold Dict.mem. rewrite dict_get_set_same. reflexivity.
    + exact (IH _ _ Hb Hm).
Qed.

Lemma bind_GP_variables_keeps (in_group : list string -> bool)
      (keys : list string) (GPvariables : list string) :
  forall (group group' : dict string) (role : string),
    bind_GP_variables in_group GPvariables keys group = Some group' ->
    Dict.mem group role = true -> Dict.mem group' role = true.
Proof.
  induction GPvariables as [| v vs IH]; intros group group' role Hb Hm.
  - injection Hb as <-. exact Hm.
  - cbn [bind_GP_variables] in Hb.
    destruct (bind_GP_variable in_group v keys group) as [group1 |] eqn:H1;
      [| discriminate].
    apply (IH _ _ _ Hb). exact (bind_GP_variable_keeps _ _ _ _ _ _ H1 Hm).
Qed.

Lemma bind_GP_variables_binds (in_group : list string -> bool)
      (keys : list string) (GPvariables : list string) :
  forall (group group' : dict string) (GPvariable : string),
    bind_GP_variables in_group GPvariables keys group = Some group' ->
    In GPvariable GPvariables ->
    some_name_matches in_group GPvariable keys = true ->
    Dict.mem group' ("GP_" ++ GPvariable) = true.
Proof.
  induction GPvariables as [| v vs IH]; intros group group' x Hb Hin Hm.
  - contradiction.
  - cbn [bind_GP_variables] in Hb.
    destruct (bind_GP_variable in_group v keys group) as [group1 |] eqn:H1;
      [| discriminate].
    destruct Hin as [-> | Hin].
    + apply (bind_GP_variables_keeps _ _ _ _ _ _ Hb).
      exact (bind_GP_variable_binds _ _ _ _ _ H1 Hm).
    + exact (IH _ _ _ Hb Hin Hm).
Qed.

(** The name that [loglike] builds from a binding is the name the binding
    was taken from, when that name has the variable as its second field. *)
Lemma exactly_named_rebuilds (in_group : list string -> bool)
      (GPvariable pnames : string) (keys : list string) :
  exactly_named in_group GPvariable keys = true ->
  In pnames keys ->
  gp_name_matches in_group GPvariable (Str.split "_" pnames) = Some true ->
  (("GP_" ++ GPvariable ++ "_")
     ++ Str.join "_" (skipn 2 (Str.split "_" pnames)))%string = pnames.
Proof.
  intros Hex Hin Hm. unfold exactly_named in Hex.
  rewrite forallb_forall in Hex. specialize (Hex _ Hin).
  destruct (Str.split "_" pnames) as [| v0 [| v1 rest]] eqn:Hs;
    cbn [gp_name_matches] in Hm; [discriminate | |].
  - destruct (v0 =? "GP")%string; discriminate.
  - destruct (String.eqb_spec v0 "GP") as [-> | Hne]; [| discriminate].
    injection Hm as Hm. cbn [andb] in Hex. rewrite Hm in Hex.
    cbn [implb] in Hex. apply andb_prop in Hex. destruct Hex as [Hv Hr].
    apply String.eqb_eq in Hv. subst v1.
    destruct rest as [| r rest]; [discriminate |].
    cbn [skipn]. rewrite (name_of_fields _ _ _ _ _ Hs).
    cbn [append]. rewrite string_append_assoc. reflexivity.
Qed.

Lemma bound_name_registered (in_group : list string -> bool)
      (GPvariables : list string) (registry : dict pinfo)
      (group : dict string) (GPvariable : string) :
  bind_GP_variables in_group GPvariables (map fst registry) [] = Some group ->
  In GPvariable GPvariables ->
  exactly_named in_group GPvariable (map fst registry) = true ->
  some_name_matches in_group GPvariable (map fst registry) = true ->
  exists g pi,
    Dict.get group ("GP_" ++ GPvariable) = Some g
    /\ Dict.get registry (("GP_" ++ GPvariable ++ "_") ++ g) = Some pi.
Proof.
  intros Hb Hin Hex Hm.
  pose proof (bind_GP_variables_binds _ _ _ _ _ _ Hb Hin Hm) as Hmem.
  unfold Dict.mem in Hmem.
  destruct (Dict.get group ("GP_" ++ GPvariable)) as [g |] eqn:Hg;
    [| discriminate].
  exists g.
  destruct (bind_GP_variables_origin _ _ _ _ _ _ _ Hb Hg)
    as [Hold | (v' & k & Hv' & Hrole & Hk & Hkm & Hgk)]; [discriminate |].
  injection Hrole as Hrole.
  assert (v' = GPvariable) as ->.
  { clear - Hrole. congruence. }
  pose proof (exactly_named_rebuilds _ _ _ _ Hex Hk Hkm) as Hname.
  rewrite <- Hgk in Hname.
  destruct (dict_get_mem_fst registry k Hk) as [pi Hpi].
  exists pi. split; [reflexivity |]. rewrite Hname. exact Hpi.
Qed.

(** X21. What the setup binds, the evaluation finds.  For a variable of
    the detected kernel whose names in the prior file are written exactly
    ([GP_<variable>_<group>], the group naming the instrument, or ending
    in a field that contains [rv] for the radial velocities), the group
    recorded at setup makes [loglike] rebuild the name of a registered
    prior: reading the hyperparameter does not raise. *)
Theorem setup_bindings_found (s : store) (instrument : string) (nX_ : nat)
        (e0 e : lc_entry) (GPvariable : string) :
  (GP_group e0 = [] ->
   setup_lc_GP (map fst (priors s)) instrument nX_ e0 = Some e ->
   Dict.get (lc_dictionary s) instrument = Some e ->
   In GPvariable (GPvariables_of (GPType e) nX_) ->
   exactly_named (lc_group instrument) GPvariable (map fst (priors s)) = true ->
   some_name_matches (lc_group instrument) GPvariable (map fst (priors s))
   = true ->
   exists x,
     lc_hyper instrument ("GP_" ++ GPvariable ++ "_") ("GP_" ++ GPvariable) s
     = (Next x, s))
  /\ (setup_rv_GP (map fst (priors s)) = Some (rv_dictionary s) ->
      In GPvariable (GPvariables_of (rv_GPType (rv_dictionary s)) 0) ->
      exactly_named rv_group GPvariable (map fst (priors s)) = true ->
      some_name_matches rv_group GPvariable (map fst (priors s)) = true ->
      exists x,
        rv_hyper ("GP_" ++ GPvariable ++ "_") ("GP_" ++ GPvariable) s
        = (Next x, s)).
Proof.
  split.
  - intros H0 Hsetup He Hin Hex Hm. unfold setup_lc_GP in Hsetup.
    destruct (detect_GPType (lc_group instrument) (map fst (priors s)))
      as [[kernel |] |]; [| discriminate | discriminate].
    rewrite H0 in Hsetup.
    destruct (bind_GP_variables (lc_group instrument)
                                (GPvariables_of kernel nX_)
                                (map fst (priors s)) [])
      as [group |] eqn:Hb; [| discriminate].
    injection Hsetup as <-. cbn [GPType] in Hin.
    destruct (bound_name_registered _ _ _ _ _ Hb Hin Hex Hm)
      as (g & pi & Hg & Hpi).
    exists (cvalue pi). unfold lc_hyper.
    rewrite (bind_next _ _ _ _ _ (lc_entry_of_some _ _ _ He)).
    cbn [GP_group]. rewrite Hg. cbn [of_option]. rewrite bind_ret.
    apply cvalue_of_some. unfold cvalue_in. rewrite Hpi. reflexivity.
  - intros Hsetup Hin Hex Hm. unfold setup_rv_GP in Hsetup.
    destruct (detect_GPType rv_group (map fst (priors s)))
      as [[kernel |] |]; [| discriminate | discriminate].
    destruct (rv_GPVector_init kernel) as [v |]; [| discriminate].
    destruct (bind_GP_variables rv_group (GPvariables_of kernel 0)
                                (map fst (priors s)) [])
      as [group |] eqn:Hb; [| discriminate].
    injection Hsetup as Hrv. rewrite <- Hrv in Hin. cbn [rv_GPType] in Hin.
    destruct (bound_name_registered _ _ _ _ _ Hb Hin Hex Hm)
      as (g & pi & Hg & Hpi).
    exists (cvalue pi). unfold rv_hyper. unfold bind at 1, get_store.
    rewrite <- Hrv. cbn [rv_GP_group]. rewrite Hg. cbn [of_option].
    rewrite bind_ret.
    apply cvalue_of_some. unfold cvalue_in. rewrite Hpi. reflexivity.
Qed.

Lemma setup_bindings_found_witness :
  exists x,
    lc_hyper "TESS" "GP_B_" "GP_B" Sample.celerite_store
    = (Next x, Sample.celerite_store).
Proof.
  apply (proj1 (setup_bindings_found Sample.celerite_store "TESS" 1
                                     More.plain_entry More.celerite_entry
                                     "B"));
    first [reflexivity | left; reflexivity].
Defined.

(** Why the names have to be exact: the test is a substring test, so the
    name of [alpha10] also passes for [alpha1] and rebinds it. *)
Example substring_match_rebinds :
  bind_GP_variable (lc_group "TESS") "alpha1"
                   ["GP_alpha1_TESS"; "GP_alpha10_TESS_K2"]%string []
  = Some [("GP_alpha1", "TESS_K2")]%string.
Proof. reflexivity. Qed.

(* ----------------------------------------------------------------- *)
(** ** The transit model between setup and evaluation *)

(** X24. [loglike] hands the transit model of an instrument as many
    limb-darkening coefficients as [init_batman] declared for its law:
    one for the linear law, two for the other three; the step does not
    fail once [q1] (and [q2], if the law is not linear) is registered,
    and writes nothing else. *)
Theorem limb_darkening_shape (instrument : string) (s : store)
        (e : lc_entry) (q1 q2 : R) :
  Dict.get (lc_dictionary s) instrument = Some e ->
  In (ldlaw e) ["quadratic"; "squareroot"; "logarithmic"; "linear"]%string ->
  cvalue_in s ("q1_" ++ instrument) = Some q1 ->
  (ldlaw e <> "linear"%string ->
   cvalue_in s ("q2_" ++ instrument) = Some q2) ->
  exists u,
    set_limb_darkening instrument s
    = (Next tt,
       with_lc_dictionary
         s (Dict.set (lc_dictionary s) instrument
                     (with_params e (with_u (params e) u))))
    /\ List.length u = List.length (tp_u (init_batman (ldlaw e))).
Proof.
  intros He Hlaw H1 H2. unfold set_limb_darkening.
  rewrite (bind_next _ _ _ _ _ (lc_entry_of_some _ _ _ He)).
  unfold init_batman. cbn [tp_u].
  destruct (String.eqb_spec (ldlaw e) "linear") as [Hlin | Hlin]; cbn [negb].
  - exists [q1]. split; [| reflexivity].
    rewrite (bind_next _ _ _ _ _
               (bind_next _ _ _ _ _ (cvalue_of_some _ _ _ H1))).
    reflexivity.
  - specialize (H2 Hlin).
    assert (exists c, reverse_ld_coeffs (ldlaw e) q1 q2 = Some c) as [c Hc].
    { unfold reverse_ld_coeffs.
      destruct Hlaw as [<- | [<- | [<- | [<- | []]]]]; cbn; eauto. }
    exists [fst c; snd c]. split; [| reflexivity].
    erewrite bind_next; [reflexivity |].
    rewrite (bind_next _ _ _ _ _ (cvalue_of_some _ _ _ H1)).
    rewrite (bind_next _ _ _ _ _ (cvalue_of_some _ _ _ H2)).
    rewrite Hc. reflexivity.
Qed.

Lemma limb_darkening_shape_witness :
  exists u,
    set_limb_darkening "TESS" Sample.transit_store
    = (Next tt,
       with_lc_dictionary
         Sample.transit_store
         (Dict.set (lc_dictionary Sample.transit_store) "TESS"
                   (with_params More.plain_entry
                                (with_u (params More.plain_entry) u))))
    /\ List.length u
       = List.length (tp_u (init_batman (ldlaw More.plain_entry))).
Proof.
  apply (limb_darkening_shape "TESS" Sample.transit_store More.plain_entry
                              0.25 0.5).
  - reflexivity.
  - left. reflexivity.
  - reflexivity.
  - intros _. reflexivity.
Defined.

(* ----------------------------------------------------------------- *)
(** ** The array shared by the calls of [prior] *)

Lemma write_cell_some_length (x : cell) :
  forall (a : list cell) (k : nat) (a' : list cell),
    write_cell k x a = Some a' ->
    (k < List.length a)%nat /\ List.length a' = List.length a.
Proof.
  induction a as [| y a IH]; intros [| k] a' H; cbn in H; try discriminate.
  - inversion H. cbn. split; [lia | reflexivity].
  - destruct (write_cell k x a) as [r |] eqn:Hr; [| discriminate].
    inversion H. destruct (IH _ _ Hr) as [Hk Hlen]. cbn. split; lia.
Qed.

(** From two arrays of one length that agree below [pcounter], the loop
    fails on both or leaves two arrays that agree below the last free
    parameter. *)
Lemma prior_loop_overwrites (utils : utils_transforms) (dynesty : bool)
      (cube : list R) :
  forall (entries : dict pinfo) (pcounter : nat) (out1 out2 : list cell),
    List.length out1 = List.length out2 ->
    (forall k, (k < pcounter)%nat -> nth_error out1 k = nth_error out2 k) ->
    match prior_loop utils dynesty entries pcounter cube out1,
          prior_loop utils dynesty entries pcounter cube out2 with
    | Some r1, Some r2 =>
        List.length r1 = List.length r2
        /\ List.length r1 = List.length out1
        /\ forall k, (k < pcounter + count_free entries)%nat ->
                     nth_error r1 k = nth_error r2 k
    | None, None => True
    | _, _ => False
    end.
Proof.
  assert (forall (x : cell) (k : nat) (out1 out2 : list cell),
             List.length out1 = List.length out2 ->
             (forall j, (j < k)%nat -> nth_error out1 j = nth_error out2 j) ->
             match write_cell k x out1, write_cell k x out2 with
             | Some r1, Some r2 =>
                 List.length r1 = List.length r2
                 /\ List.length r1 = List.length out1
                 /\ forall j, (j < S k)%nat -> nth_error r1 j = nth_error r2 j
             | None, None => True
             | _, _ => False
             end) as Hwrite.
  { intros x k out1 out2 Hlen Hag.
    destruct (write_cell k x out1) as [r1 |] eqn:H1,
        (write_cell k x out2) as [r2 |] eqn:H2.
    - destruct (write_cell_some_length _ _ _ _ H1) as [_ L1].
      destruct (write_cell_some_length _ _ _ _ H2) as [_ L2].
      split; [lia |]. split; [exact L1 |]. intros j Hj.
      destruct (Nat.eq_dec j k) as [-> | Hne].
      + rewrite (write_cell_same _ _ _ _ H1), (write_cell_same _ _ _ _ H2).
        reflexivity.
      + rewrite (write_cell_other _ _ _ _ _ H1 Hne),
          (write_cell_other _ _ _ _ _ H2 Hne).
        apply Hag. lia.
    - destruct (write_cell_some_length _ _ _ _ H1) as [Hk _].
      destruct (write_cell_length x out2 k ltac:(lia)) as (r & Hr & _).
      congruence.
    - destruct (write_cell_some_length _ _ _ _ H2) as [Hk _].
      destruct (write_cell_length x out1 k ltac:(lia)) as (r & Hr & _).
      congruence.
    - exact I. }
  induction entries as [| [pname pi] rest IH];
    intros pcounter out1 out2 Hlen Hag.
  - cbn. split; [exact Hlen |]. split; [reflexivity |].
    intros k Hk. apply Hag. lia.
  - rewrite count_free_cons. cbn [prior_loop].
    destruct (negb (ptype pi =? "fixed")%string).
    + destruct (nth_error cube pcounter) as [u |]; [| exact I].
      destruct (transform_prior utils u pi) as [x | |]; [| | exact I].
      * specialize (Hwrite (Some x) pcounter out1 out2 Hlen Hag).
        destruct (write_cell pcounter (Some x) out1) as [r1 |],
            (write_cell pcounter (Some x) out2) as [r2 |];
          try contradiction; [| exact I].
        destruct Hwrite as (L & L1 & Hag').
        specialize (IH (S pcounter) r1 r2 L Hag').
        destruct (prior_loop utils _ rest (S pcounter) cube r1),
            (prior_loop utils _ rest (S pcounter) cube r2);
          try contradiction; [| exact I].
        destruct IH as (M & M1 & Hag''). split; [exact M |].
        split; [congruence |]. intros k Hk. apply Hag''. lia.
      * destruct dynesty; [| exact I].
        specialize (Hwrite None pcounter out1 out2 Hlen Hag).
        destruct (write_cell pcounter None out1) as [r1 |],
            (write_cell pcounter None out2) as [r2 |];
          try contradiction; [| exact I].
        destruct Hwrite as (L & L1 & Hag').
        specialize (IH (S pcounter) r1 r2 L Hag').
        destruct (prior_loop utils _ rest (S pcounter) cube r1),
            (prior_loop utils _ rest (S pcounter) cube r2);
          try contradiction; [| exact I].
        destruct IH as (M & M1 & Hag''). split; [exact M |].
        split; [congruence |]. intros k Hk. apply Hag''. lia.
    + specialize (IH pcounter out1 out2 Hlen Hag).
      destruct (prior_loop utils dynesty rest pcounter cube out1),
          (prior_loop utils dynesty rest pcounter cube out2);
        try contradiction; [| exact I].
      destruct IH as (M & M1 & Hag''). split; [exact M |].
      split; [exact M1 |]. intros k Hk. apply Hag''. lia.
Qed.

(** X25. [prior] writes every entry of the module-level array it hands to
    dynesty: with [transformed_priors] of length [n_params], as allocated
    at line 622, the result of a call does not depend on what the calls
    before it left in the array. *)
Theorem prior_overwrites_shared_array (utils : utils_transforms)
        (cfg : config) (registry : dict pinfo) (cube : list R)
        (left_before allocated : list cell) :
  List.length allocated = count_free registry ->
  List.length left_before = count_free registry ->
  prior utils cfg registry cube left_before
  = prior utils cfg registry cube allocated.
Proof.
  intros Ha Hb. unfold prior. destruct (use_dynesty cfg); [| reflexivity].
  pose proof (prior_loop_overwrites utils true cube registry 0
                                    left_before allocated
                                    ltac:(congruence)
                                    ltac:(intros k Hk; lia)) as H.
  destruct (prior_loop utils true registry 0 cube left_before) as [r1 |],
      (prior_loop utils true registry 0 cube allocated) as [r2 |];
    try contradiction; [| reflexivity].
  destruct H as (L & L1 & Hag). f_equal. apply nth_error_ext. intros k.
  destruct (Nat.lt_ge_cases k (count_free registry)) as [Hk | Hk].
  - apply Hag. cbn. exact Hk.
  - rewrite (proj2 (nth_error_None r1 k)) by lia.
    rewrite (proj2 (nth_error_None r2 k)) by lia. reflexivity.
Qed.

Lemma prior_overwrites_shared_array_witness :
  prior Sample.utils Sample.transit_config Sample.transit_registry
        [0.5; 0.5] [Some 3; Some 0.1]
  = prior Sample.utils Sample.transit_config Sample.transit_registry
          [0.5; 0.5] [Some 0; Some 0].
Proof.
  apply (prior_overwrites_shared_array
           Sample.utils Sample.transit_config Sample.transit_registry
           [0.5; 0.5] [Some 3; Some 0.1] [Some 0; Some 0]);
    reflexivity.
Defined.

(* ================================================================= *)
(** * An evaluation does not depend on the evaluations before it *)

(* ----------------------------------------------------------------- *)
(** ** Arrays *)

Lemma agree_except_weaken (P P' : nat -> Prop) (v1 v2 : array) :
  (forall j, P j -> P' j) -> agree_except P v1 v2 -> agree_except P' v1 v2.
Proof.
  intros Hsub [Hlen Hag]. split; [exact Hlen |].
  intros j. destruct (Hag j) as [Hp | Heq]; [left; auto | right; exact Heq].
Qed.

Lemma agree_except_refl (P : nat -> Prop) (v : array) : agree_except P v v.
Proof. split; [reflexivity | intros j; right; reflexivity]. Qed.

Lemma agree_except_eq (P : nat -> Prop) (v1 v2 : array) :
  (forall j, ~ P j) -> agree_except P v1 v2 -> v1 = v2.
Proof.
  intros Hnone [Hlen Hag]. apply nth_error_ext. intros j.
  destruct (Hag j) as [Hp | Heq]; [destruct (Hnone j Hp) | exact Heq].
Qed.

Lemma set_nth_none (k : nat) (x : R) (v : array) :
  Array.set_nth k x v = None <-> (List.length v <= k)%nat.
Proof.
  revert k. induction v as [| y v IH]; intros k.
  - destruct k; cbn; split; intros; try reflexivity; lia.
  - destruct k as [| k]; cbn [Array.set_nth List.length].
    + split; [discriminate | lia].
    + specialize (IH k). destruct (Array.set_nth k x v).
      * split; [discriminate |]. intros H.
        assert (List.length v <= k)%nat as H' by lia.
        apply IH in H'. discriminate.
      * split; [| reflexivity]. intros _.
        assert (List.length v <= k)%nat by (apply IH; reflexivity). lia.
Qed.

Lemma set_nth_some (k : nat) (x : R) (v v' : array) :
  Array.set_nth k x v = Some v' ->
  List.length v' = List.length v
  /\ forall j, nth_error v' j = if Nat.eqb j k then Some x else nth_error v j.
Proof.
  revert k v'. induction v as [| y v IH]; intros k v' H.
  - destruct k; discriminate.
  - destruct k as [| k]; cbn [Array.set_nth] in H.
    + injection H as <-. split; [reflexivity |].
      intros [| j]; reflexivity.
    + destruct (Array.set_nth k x v) as [r |] eqn:Hr; [| discriminate].
      injection H as <-. destruct (IH _ _ Hr) as [Hlen Hnth].
      split; [cbn; lia |]. intros [| j]; [reflexivity |].
      cbn [nth_error]. rewrite Hnth. reflexivity.
Qed.

(** Writing one value at one position of two arrays that agree outside
    [P]: both writes fail, or the results agree outside [P] and at the
    position. *)
Lemma set_nth_agree (P : nat -> Prop) (k : nat) (x : R) (v1 v2 : array) :
  agree_except P v1 v2 ->
  opt_rel (agree_except (fun j => P j /\ j <> k))
          (Array.set_nth k x v1) (Array.set_nth k x v2).
Proof.
  intros [Hlen Hag].
  destruct (Array.set_nth k x v1) as [v1' |] eqn:H1;
    destruct (Array.set_nth k x v2) as [v2' |] eqn:H2; cbn [opt_rel].
  - destruct (set_nth_some _ _ _ _ H1) as [L1 N1].
    destruct (set_nth_some _ _ _ _ H2) as [L2 N2].
    split; [lia |]. intros j. rewrite N1, N2.
    destruct (Nat.eqb_spec j k) as [-> | Hne]; [right; reflexivity |].
    destruct (Hag j) as [Hp | Heq]; [left; split; assumption | right; exact Heq].
  - apply set_nth_none in H2.
    assert (Array.set_nth k x v1 = None) as H by (apply set_nth_none; lia).
    congruence.
  - apply set_nth_none in H1.
    assert (Array.set_nth k x v2 = None) as H by (apply set_nth_none; lia).
    congruence.
  - exact I.
Qed.

Lemma scatter_agree (idx : list nat) (vals : array) :
  forall (P : nat -> Prop) (v1 v2 : array),
    agree_except P v1 v2 ->
    opt_rel (agree_except (fun j => P j /\ ~ In j idx))
            (Array.scatter idx vals v1) (Array.scatter idx vals v2).
Proof.
  revert vals. induction idx as [| k idx IH]; intros vals P v1 v2 Hag.
  - destruct vals; cbn [Array.scatter opt_rel]; [| exact I].
    apply (agree_except_weaken P); [| exact Hag].
    intros j Hp. split; [exact Hp | intros []].
  - destruct vals as [| x vals]; cbn [Array.scatter opt_rel]; [exact I |].
    pose proof (set_nth_agree P k x v1 v2 Hag) as Hset.
    destruct (Array.set_nth k x v1) as [v1' |];
      destruct (Array.set_nth k x v2) as [v2' |]; cbn [opt_rel] in Hset;
      try contradiction; [| exact I].
    pose proof (IH vals _ _ _ Hset) as Hrec.
    destruct (Array.scatter idx vals v1') as [r1 |];
      destruct (Array.scatter idx vals v2') as [r2 |]; cbn [opt_rel] in *;
      try contradiction; [| exact I].
    revert Hrec. apply agree_except_weaken.
    intros j [[Hp Hk] Hidx]. split; [exact Hp |].
    intros [Heq | Hin]; [apply Hk; symmetry; exact Heq | exact (Hidx Hin)].
Qed.

(* ----------------------------------------------------------------- *)
(** ** Dictionaries *)

Lemma Forall2_weaken_in {A B} (r r' : A -> B -> Prop) (l1 : list A)
      (l2 : list B) :
  Forall2 r l1 l2 ->
  (forall a b, In a l1 -> r a b -> r' a b) ->
  Forall2 r' l1 l2.
Proof.
  induction 1 as [| a b l1 l2 Hab Hrest IH]; intros Himp; constructor.
  - apply Himp; [left; reflexivity | exact Hab].
  - apply IH. intros a' b' Hin. apply Himp. right. exact Hin.
Qed.

Lemma dict_agree_weaken (P P' : string -> Prop) (d1 d2 : dict R) :
  (forall k, P k -> P' k) -> dict_agree P d1 d2 -> dict_agree P' d1 d2.
Proof.
  intros Hsub [Hnd Hag]. split; [exact Hnd |].
  apply (Forall2_weaken_in _ _ _ _ Hag).
  intros a b _ [Hk [Hp | Heq]]; (split; [exact Hk |]);
    [left; auto | right; exact Heq].
Qed.

Lemma dict_agree_eq (P : string -> Prop) (d1 d2 : dict R) :
  (forall k, ~ P k) -> dict_agree P d1 d2 -> d1 = d2.
Proof.
  intros Hnone [_ Hag].
  induction Hag as [| [k1 x1] [k2 x2] d1 d2 [Hk Hv] Hrest IH];
    [reflexivity |].
  cbn in Hk, Hv. subst k2.
  destruct Hv as [Hp | ->]; [destruct (Hnone _ Hp) |].
  rewrite IH. reflexivity.
Qed.

Lemma dict_set_keys {V} (d : dict V) (k : string) (v : V) :
  map fst (Dict.set d k v)
  = if Dict.mem d k then map fst d else map fst d ++ [k].
Proof.
  unfold Dict.mem. induction d as [| [k' v'] d IH]; [reflexivity |].
  cbn [Dict.set Dict.get]. destruct (String.eqb_spec k' k) as [-> | Hne].
  - reflexivity.
  - cbn [map fst]. rewrite IH. destruct (Dict.get d k); reflexivity.
Qed.

Lemma dict_mem_in {V} (d : dict V) (k : string) :
  Dict.mem d k = false -> ~ In k (map fst d).
Proof.
  unfold Dict.mem. intros Hm Hin.
  destruct (dict_get_mem_fst d k Hin) as [v Hv]. rewrite Hv in Hm.
  discriminate.
Qed.

Lemma dict_set_nodup {V} (d : dict V) (k : string) (v : V) :
  NoDup (map fst d) -> NoDup (map fst (Dict.set d k v)).
Proof.
  intros Hnd. rewrite dict_set_keys. destruct (Dict.mem d k) eqn:Hm;
    [exact Hnd |].
  apply NoDup_app; [exact Hnd | repeat constructor; intros [] |].
  intros x Hx [<- | []]. exact (dict_mem_in _ _ Hm Hx).
Qed.

(** Writing one value under one key of two dictionaries that agree outside
    [P]: the results agree outside [P] and at the key. *)
Lemma dict_set_agree (P : string -> Prop) (k : string) (v : R)
      (d1 d2 : dict R) :
  dict_agree P d1 d2 ->
  dict_agree (fun k' => P k' /\ k' <> k) (Dict.set d1 k v) (Dict.set d2 k v).
Proof.
  intros [Hnd Hag]. split; [apply dict_set_nodup; exact Hnd |].
  induction Hag as [| [k1 x1] [k2 x2] d1 d2 [Hk Hv] Hrest IH].
  - constructor; [| constructor]. split; [reflexivity | right; reflexivity].
  - cbn in Hk, Hv. subst k2. cbn [Dict.set].
    cbn [map fst] in Hnd. inversion Hnd as [| ? ? Hnotin Hnd']; subst.
    destruct (String.eqb_spec k1 k) as [-> | Hne].
    + constructor; [split; [reflexivity | right; reflexivity] |].
      apply (Forall2_weaken_in _ _ _ _ Hrest).
      intros [ka xa] [kb xb] Hin [Hkab Hvab]. cbn in *. subst kb.
      split; [reflexivity |].
      destruct Hvab as [Hp | Heq]; [left | right; exact Heq].
      split; [exact Hp |]. intros ->. apply Hnotin.
      apply (in_map fst) in Hin. exact Hin.
    + constructor; [| exact (IH Hnd')].
      split; [reflexivity |]. cbn.
      destruct Hv as [Hp | Heq]; [left; split; assumption | right; exact Heq].
Qed.

(* ----------------------------------------------------------------- *)
(** ** The sample *)

Lemma same_schema_refl (p : dict pinfo) : same_schema p p.
Proof.
  unfold same_schema. induction p as [| e p IH]; constructor; [| exact IH].
  repeat split; reflexivity.
Qed.

(** From two registries with the same parameters the assignment ends
    alike: it raises in both, or it leaves one and the same registry. *)
Lemma assign_loop_related (cube : list R) (p1 p2 : dict pinfo) :
  same_schema p1 p2 ->
  forall pcounter,
    fst (assign_loop cube pcounter p1) = fst (assign_loop cube pcounter p2)
    /\ same_schema (snd (assign_loop cube pcounter p1))
                   (snd (assign_loop cube pcounter p2))
    /\ (fst (assign_loop cube pcounter p1) = Next tt ->
        snd (assign_loop cube pcounter p1) = snd (assign_loop cube pcounter p2)).
Proof.
  unfold same_schema.
  induction 1 as [| [n1 pi1] [n2 pi2] p1 p2 (Hn & Ht & Hv & Hf) Hrest IH];
    intros pcounter.
  - cbn. repeat split; constructor.
  - cbn in Hn, Ht, Hv, Hf. subst n2. cbn [assign_loop]. rewrite Ht.
    destruct (ptype pi1 =? "fixed")%string eqn:Hfix; cbn [negb].
    + specialize (IH pcounter).
      destruct (assign_loop cube pcounter p1) as [o1 r1].
      destruct (assign_loop cube pcounter p2) as [o2 r2].
      cbn [fst snd] in *. destruct IH as (Ho & Hs & He).
      split; [exact Ho |]. split.
      * constructor; [| exact Hs]. cbn. repeat split; auto.
      * intros Hnext. rewrite (He Hnext).
        destruct pi1, pi2; cbn in *. rewrite Ht, Hv, (Hf eq_refl).
        reflexivity.
    + destruct (nth_error cube pcounter) as [x |].
      * specialize (IH (S pcounter)).
        destruct (assign_loop cube (S pcounter) p1) as [o1 r1].
        destruct (assign_loop cube (S pcounter) p2) as [o2 r2].
        cbn [fst snd] in *. destruct IH as (Ho & Hs & He).
        split; [exact Ho |]. split.
        -- constructor; [| exact Hs]. cbn. repeat split; auto.
        -- intros Hnext. rewrite (He Hnext).
           destruct pi1, pi2; cbn in *. rewrite Ht, Hv. reflexivity.
      * cbn [fst snd]. split; [reflexivity |]. split.
        -- constructor; [| exact Hrest]. cbn.
           repeat split; auto. intros Hfx. rewrite Hfix in Hfx.
           discriminate.
        -- discriminate.
Qed.

(* ----------------------------------------------------------------- *)
(** ** Two runs side by side *)

Section History.

Variable cfg : config.
Variable orc : oracles.

Lemma aligned_priors (s1 s2 : store) :
  aligned cfg s1 s2 -> priors s1 = priors s2.
Proof. intros [H _]. exact H. Qed.

Lemma related_ret {A} (P : store -> store -> Prop)
      (Q : A -> store -> store -> Prop) (a : A) :
  (forall s1 s2, P s1 s2 -> Q a s1 s2) -> related cfg P (ret a) Q.
Proof. intros H s1 s2 HP. split; [reflexivity | exact (H _ _ HP)]. Qed.

Lemma related_bind {A B} (P : store -> store -> Prop) (m : M A)
      (Q : A -> store -> store -> Prop) (k : A -> M B)
      (Q' : B -> store -> store -> Prop) :
  related cfg P m Q ->
  (forall a, related cfg (Q a) (k a) Q') ->
  related cfg P (bind m k) Q'.
Proof.
  intros Hm Hk s1 s2 HP. specialize (Hm s1 s2 HP).
  unfold bind, outcome_rel in *.
  destruct (m s1) as [[a1 | v1 |] s1'], (m s2) as [[a2 | v2 |] s2'];
    cbn [fst snd] in *; try contradiction.
  - destruct Hm as [<- HQ]. exact (Hk a1 _ _ HQ).
  - exact Hm.
  - exact Hm.
Qed.

Lemma related_weaken {A} (P P' : store -> store -> Prop) (m : M A)
      (Q Q' : A -> store -> store -> Prop) :
  related cfg P m Q ->
  (forall s1 s2, P' s1 s2 -> P s1 s2) ->
  (forall a s1 s2, Q a s1 s2 -> Q' a s1 s2) ->
  related cfg P' m Q'.
Proof.
  intros Hm HP HQ s1 s2 H. specialize (Hm s1 s2 (HP _ _ H)).
  unfold outcome_rel in *.
  destruct (m s1) as [[a1 | v1 |] s1'], (m s2) as [[a2 | v2 |] s2'];
    cbn [fst snd] in *; try contradiction; try exact Hm.
  destruct Hm as [<- Hq]. split; [reflexivity | exact (HQ _ _ _ Hq)].
Qed.

Lemma related_post {A} (P : store -> store -> Prop) (m : M A)
      (Q Q' : A -> store -> store -> Prop) :
  related cfg P m Q ->
  (forall a s1 s2, Q a s1 s2 -> Q' a s1 s2) ->
  related cfg P m Q'.
Proof. intros Hm HQ. apply (related_weaken P P m Q Q'); auto. Qed.

Lemma related_reads {A} (P : store -> store -> Prop) (m : M A) :
  reads cfg m ->
  (forall s1 s2, P s1 s2 -> aligned cfg s1 s2) ->
  related cfg P m (fun _ => P).
Proof.
  intros [Hs Ho] HP s1 s2 H. pose proof (HP _ _ H) as Hal.
  specialize (Ho _ _ Hal). pose proof (Hs s1) as H1. pose proof (Hs s2) as H2.
  unfold outcome_rel.
  destruct (m s1) as [o1 s1'], (m s2) as [o2 s2']. cbn [fst snd] in *.
  subst. destruct o2; auto.
Qed.

Lemma related_for_each {A B} (P : store -> store -> Prop)
      (body : A -> B -> M B) :
  (forall x acc, related cfg P (body x acc) (fun _ => P)) ->
  forall xs acc, related cfg P (for_each xs acc body) (fun _ => P).
Proof.
  intros Hbody. induction xs as [| x xs IH]; intros acc; cbn [for_each].
  - apply related_ret. auto.
  - eapply related_bind; [apply Hbody | intros a; apply IH].
Qed.

Lemma related_for_range {B} (P : store -> store -> Prop)
      (body : nat -> nat -> B -> M B) :
  (forall n i acc, related cfg P (body n i acc) (fun _ => P)) ->
  forall xs n acc, related cfg P (for_range xs n acc body) (fun _ => P).
Proof.
  intros Hbody. induction xs as [| x xs IH]; intros n acc; cbn [for_range].
  - apply related_ret. auto.
  - eapply related_bind; [apply Hbody | intros a; apply IH].
Qed.

(** *** Computations that only read *)

Lemma reads_ret {A} (a : A) : reads cfg (ret a).
Proof. split; reflexivity. Qed.

Lemma reads_return {A} (v : R) : reads cfg (@return_ A v).
Proof. split; reflexivity. Qed.

Lemma reads_raise {A} : reads cfg (@raise A).
Proof. split; reflexivity. Qed.

Lemma reads_of_option {A} (o : option A) : reads cfg (of_option o).
Proof. destruct o; [apply reads_ret | apply reads_raise]. Qed.

Lemma reads_bind {A B} (m : M A) (k : A -> M B) :
  reads cfg m -> (forall a, reads cfg (k a)) -> reads cfg (bind m k).
Proof.
  intros [Hs Ho] Hk. split.
  - intros s. unfold bind. pose proof (Hs s) as H.
    destruct (m s) as [[a | v |] s']; cbn [snd] in *; subst;
      [apply (proj1 (Hk a)) | reflexivity | reflexivity].
  - intros s1 s2 Hal. unfold bind. pose proof (Hs s1) as H1.
    pose proof (Hs s2) as H2. pose proof (Ho _ _ Hal) as H.
    destruct (m s1) as [o1 s1'], (m s2) as [o2 s2']. cbn [fst snd] in *.
    subst. destruct o2 as [a | v |];
      [apply (proj2 (Hk a)); exact Hal | reflexivity | reflexivity].
Qed.

Lemma reads_for_each {A B} (body : A -> B -> M B) :
  (forall x acc, reads cfg (body x acc)) ->
  forall xs acc, reads cfg (for_each xs acc body).
Proof.
  intros Hbody. induction xs as [| x xs IH]; intros acc; cbn [for_each].
  - apply reads_ret.
  - apply reads_bind; [apply Hbody | intros a; apply IH].
Qed.

Lemma reads_for_range {B} (body : nat -> nat -> B -> M B) :
  (forall n i acc, reads cfg (body n i acc)) ->
  forall xs n acc, reads cfg (for_range xs n acc body).
Proof.
  intros Hbody. induction xs as [| x xs IH]; intros n acc; cbn [for_range].
  - apply reads_ret.
  - apply reads_bind; [apply Hbody | intros a; apply IH].
Qed.

Lemma reads_cvalue_of (name : string) : reads cfg (cvalue_of name).
Proof.
  split.
  - intros s. unfold cvalue_of, bind, get_store.
    destruct (cvalue_in s name); reflexivity.
  - intros s1 s2 Hal. unfold cvalue_of, bind, get_store, cvalue_in.
    rewrite (aligned_priors _ _ Hal).
    destruct (option_map cvalue (Dict.get (priors s2) name)); reflexivity.
Qed.

(** [priors[prefix + lc_dictionary[instrument][role]]['cvalue']]: the
    binding is one of the setup. *)
Lemma reads_lc_hyper (instrument prefix role : string) :
  reads cfg (lc_hyper instrument prefix role).
Proof.
  split.
  - intros s. unfold lc_hyper, lc_entry_of, bind, get_store.
    destruct (Dict.get (lc_dictionary s) instrument) as [e |];
      [| reflexivity]. cbn.
    destruct (Dict.get (GP_group e) role) as [g |]; [| reflexivity]. cbn.
    unfold cvalue_of, bind, get_store.
    destruct (cvalue_in s (prefix ++ g)); reflexivity.
  - intros s1 s2 Hal. pose proof Hal as [Hp Hsim].
    pose proof (sim_lc _ _ _ Hsim instrument) as Hlc.
    unfold lc_hyper, lc_entry_of, bind, get_store.
    destruct (Dict.get (lc_dictionary s1) instrument) as [e1 |],
        (Dict.get (lc_dictionary s2) instrument) as [e2 |];
      cbn [opt_rel] in Hlc; try contradiction; [| reflexivity].
    destruct Hlc as (_ & _ & _ & _ & Hg & _). cbn. rewrite Hg.
    destruct (Dict.get (GP_group e2) role) as [g |]; [| reflexivity]. cbn.
    apply (proj2 (reads_cvalue_of (prefix ++ g))). exact Hal.
Qed.

Lemma reads_rv_hyper (prefix role : string) : reads cfg (rv_hyper prefix role).
Proof.
  split.
  - intros s. unfold rv_hyper, bind, get_store.
    destruct (Dict.get (rv_GP_group (rv_dictionary s)) role) as [g |];
      [| reflexivity]. cbn.
    unfold cvalue_of, bind, get_store.
    destruct (cvalue_in s (prefix ++ g)); reflexivity.
  - intros s1 s2 Hal. pose proof Hal as [Hp Hsim].
    unfold rv_hyper, bind, get_store.
    rewrite (sim_rv_group _ _ _ Hsim).
    destruct (Dict.get (rv_GP_group (rv_dictionary s2)) role) as [g |];
      [| reflexivity]. cbn.
    apply (proj2 (reads_cvalue_of (prefix ++ g))). exact Hal.
Qed.

Create HintDb reader.

#[local] Hint Resolve reads_ret reads_return reads_raise reads_of_option
  reads_cvalue_of reads_lc_hyper reads_rv_hyper : reader.

Ltac reader :=
  repeat first
    [ progress intros
    | solve [auto with reader]
    | apply reads_bind
    | apply reads_for_each
    | apply reads_for_range
    | match goal with
      | |- reads _ (if ?b then _ else _) => destruct b
      | |- reads _ (match ?x with _ => _ end) => destruct x
      | |- reads _ (let '(_, _) := ?x in _) => destruct x
      end ].

Lemma reads_period_gate (numbering : list nat) :
  reads cfg (period_gate numbering).
Proof. unfold period_gate, period_step. reader. Qed.

Lemma reads_planet_geometry (i : nat) : reads cfg (planet_geometry cfg i).
Proof. unfold planet_geometry. reader. Qed.

Lemma reads_resolve_ecc_transit (i : nat) :
  reads cfg (resolve_ecc_transit cfg i).
Proof. unfold resolve_ecc_transit. reader. Qed.

Lemma reads_resolve_ecc_rv (i : nat) : reads cfg (resolve_ecc_rv cfg i).
Proof. unfold resolve_ecc_rv. reader. Qed.

Lemma reads_rv_trend (rvmodel : option array) :
  reads cfg (rv_trend cfg rvmodel).
Proof. unfold rv_trend. reader. Qed.

Lemma reads_stellar_density_term (loc : locals) (ll : R) :
  reads cfg (stellar_density_term cfg loc ll).
Proof. unfold stellar_density_term. reader. Qed.

Lemma reads_multiply_lcmodel (instrument : string) (tp : TransitParams)
      (model : array) :
  reads cfg (multiply_lcmodel cfg orc instrument tp model).
Proof. unfold multiply_lcmodel. reader. Qed.

#[local] Hint Resolve reads_period_gate reads_planet_geometry
  reads_resolve_ecc_transit reads_resolve_ecc_rv reads_rv_trend
  reads_stellar_density_term reads_multiply_lcmodel : reader.

(** *** Updates of one object *)

Lemma aligned_set_lc (s1 s2 : store) (instrument : string)
      (e1 e2 : lc_entry) :
  aligned cfg s1 s2 -> entry_sim 0 e1 e2 ->
  aligned cfg
          (with_lc_dictionary s1 (Dict.set (lc_dictionary s1) instrument e1))
          (with_lc_dictionary s2 (Dict.set (lc_dictionary s2) instrument e2)).
Proof.
  intros [Hp Hsim] He. split; [exact Hp |].
  destruct Hsim as [H1 H2 H3 H4 H5 H6 H7 H8].
  constructor; cbn; try assumption.
  intros i. destruct (String.eqb_spec instrument i) as [<- | Hne].
  - rewrite !dict_get_set_same. exact He.
  - rewrite !dict_get_set_other by (apply String.eqb_neq; exact Hne).
    apply H2.
Qed.

Lemma entry_sim_weaken (k k' : nat) (e1 e2 : lc_entry) :
  (k' <= k)%nat -> entry_sim k e1 e2 -> entry_sim k' e1 e2.
Proof.
  intros Hle (H1 & H2 & H3 & H4 & H5 & H6). repeat split; try assumption;
    try apply H6.
  intros j. destruct (proj2 H6 j) as [Hp | Heq]; [left; lia | right; exact Heq].
Qed.

Lemma set_lc_GPVector_related (instrument : string) (kernel : gp_kernel)
      (nX_ k : nat) (x : R) :
  related cfg
          (fun s1 s2 =>
             aligned cfg s1 s2 /\ vector_focus instrument kernel nX_ k s1 s2)
          (set_lc_GPVector instrument k x)
          (fun _ s1 s2 =>
             aligned cfg s1 s2
             /\ vector_focus instrument kernel nX_ (S k) s1 s2).
Proof.
  intros s1 s2 [Hal Hfoc]. unfold vector_focus in Hfoc.
  unfold set_lc_GPVector, lc_entry_of, set_lc_entry, modify, bind, get_store,
    outcome_rel.
  destruct (Dict.get (lc_dictionary s1) instrument) as [e1 |],
      (Dict.get (lc_dictionary s2) instrument) as [e2 |];
    cbn [opt_rel of_option ret raise fst snd] in *; try contradiction;
    [| exact Hal].
  destruct Hfoc as ((H1 & H2 & H3 & H4 & H5 & H6) & Hk & Hx).
  pose proof (set_nth_agree _ k x _ _ H6) as Hset.
  destruct (Array.set_nth k x (GPVector e1)) as [v1 |],
      (Array.set_nth k x (GPVector e2)) as [v2 |];
    cbn [opt_rel of_option ret raise fst snd] in *; try contradiction;
    [| exact Hal].
  assert (entry_sim (S k) (with_GPVector e1 v1) (with_GPVector e2 v2)) as He.
  { repeat split; cbn; try assumption; try apply Hset.
    intros j. destruct (proj2 Hset j) as [[Hp Hne] | Heq];
      [left; lia | right; exact Heq]. }
  split; [reflexivity |]. split.
  - apply aligned_set_lc; [exact Hal |].
    apply (entry_sim_weaken (S k)); [lia | exact He].
  - unfold vector_focus. cbn. rewrite !dict_get_set_same. cbn.
    split; [exact He | split; assumption].
Qed.

(** [e <- lc_entry_of instrument ;; k e]: both runs find no entry, or each
    finds its own, of one setup. *)
Lemma related_with_entry {B} (P : store -> store -> Prop)
      (instrument : string) (k : lc_entry -> M B)
      (Q : B -> store -> store -> Prop) :
  (forall s1 s2, P s1 s2 -> aligned cfg s1 s2) ->
  (forall e1 e2 s1 s2,
      P s1 s2 ->
      Dict.get (lc_dictionary s1) instrument = Some e1 ->
      Dict.get (lc_dictionary s2) instrument = Some e2 ->
      entry_sim 0 e1 e2 ->
      outcome_rel Q (aligned cfg) (k e1 s1) (k e2 s2)) ->
  related cfg P (bind (lc_entry_of instrument) k) Q.
Proof.
  intros HP Hk s1 s2 H. pose proof (HP _ _ H) as Hal.
  pose proof (sim_lc _ _ _ (proj2 Hal) instrument) as Hlc.
  unfold lc_entry_of. unfold bind, get_store.
  destruct (Dict.get (lc_dictionary s1) instrument) as [e1 |] eqn:H1,
      (Dict.get (lc_dictionary s2) instrument) as [e2 |] eqn:H2;
    cbn [opt_rel of_option ret raise] in *; try contradiction.
  - exact (Hk _ _ _ _ H H1 H2 Hlc).
  - exact Hal.
Qed.

Lemma vector_focus_start (instrument : string) (e1 e2 : lc_entry)
      (s1 s2 : store) :
  Dict.get (lc_dictionary s1) instrument = Some e1 ->
  Dict.get (lc_dictionary s2) instrument = Some e2 ->
  entry_sim 0 e1 e2 ->
  vector_focus instrument (GPType e1) (nX e1) 0 s1 s2.
Proof.
  intros H1 H2 He. unfold vector_focus. rewrite H1, H2. cbn.
  split; [exact He | split; reflexivity].
Qed.

Lemma vector_focus_done (instrument : string) (kernel : gp_kernel)
      (nX_ k : nat) (s1 s2 : store) :
  (lc_written kernel nX_ <= k)%nat ->
  vector_focus instrument kernel nX_ k s1 s2 ->
  vector_eq instrument s1 s2.
Proof.
  unfold vector_focus, vector_eq. intros Hk H.
  destruct (Dict.get (lc_dictionary s1) instrument) as [e1 |],
      (Dict.get (lc_dictionary s2) instrument) as [e2 |];
    cbn [opt_rel] in *; try contradiction; [| exact I].
  destruct H as ((_ & _ & _ & _ & _ & Hv) & Hker & Hnx).
  rewrite Hker, Hnx in Hv. revert Hv. apply agree_except_eq. intros j. lia.
Qed.

(** One hyperparameter read and stored at position [k]. *)
Ltac marshal_step :=
  eapply related_bind;
  [ apply related_reads; [solve [reader] | intros ? ? [? _]; assumption]
  | intros ?;
    eapply related_bind; [apply set_lc_GPVector_related | intros ?] ].

Lemma marshal_SE_loop (instrument : string) (nX_ len : nat) :
  forall lo,
    related cfg
            (fun s1 s2 =>
               aligned cfg s1 s2
               /\ vector_focus instrument SEKernel nX_ (2 + lo) s1 s2)
            (for_each (seq lo len) tt
                      (fun i _ =>
                         alpha <- lc_hyper instrument
                                           ("GP_alpha" ++ Num.str i ++ "_")
                                           ("GP_alpha" ++ Num.str i) ;;
                         set_lc_GPVector instrument (2 + i)
                                         (ln (1 / alpha))))
            (fun _ s1 s2 =>
               aligned cfg s1 s2
               /\ vector_focus instrument SEKernel nX_ (2 + lo + len) s1 s2).
Proof.
  induction len as [| len IH]; intros lo; cbn [seq for_each].
  - apply related_ret. intros s1 s2 H. rewrite Nat.add_0_r. exact H.
  - eapply related_bind.
    + eapply related_bind;
        [ apply related_reads;
          [solve [reader] | intros ? ? [? _]; assumption]
        | intros alpha; apply set_lc_GPVector_related ].
    + intros []. eapply related_weaken; [apply (IH (S lo)) | |].
      * intros s1 s2 H. exact H.
      * intros u s1 s2 H. cbn beta in *.
        replace (2 + lo + S len)%nat with (2 + S lo + len)%nat by lia.
        exact H.
Qed.

(** Lines 749-779: after the marshaling the two vectors are one. *)
Lemma marshal_lc_GPVector_related (instrument : string) :
  related cfg (aligned cfg) (marshal_lc_GPVector instrument)
          (fun _ s1 s2 => aligned cfg s1 s2 /\ vector_eq instrument s1 s2).
Proof.
  unfold marshal_lc_GPVector. apply related_with_entry; [auto |].
  intros e1 e2 s1 s2 Hal H1 H2 He.
  pose proof (vector_focus_start _ _ _ _ _ H1 H2 He) as Hfoc.
  destruct He as (_ & _ & HT & HX & _). rewrite <- HT, <- HX.
  assert (forall k, (lc_written (GPType e1) (nX e1) <= k)%nat ->
                    forall (u : unit) (s1 s2 : store),
                      aligned cfg s1 s2
                      /\ vector_focus instrument (GPType e1) (nX e1) k s1 s2 ->
                      aligned cfg s1 s2 /\ vector_eq instrument s1 s2)
    as Hdone.
  { intros k Hk _ t1 t2 [Ha Hf]. split; [exact Ha |].
    exact (vector_focus_done _ _ _ _ _ _ Hk Hf). }
  destruct (GPType e1).
  - refine ((_ : related cfg
                         (fun s1 s2 =>
                            aligned cfg s1 s2
                            /\ vector_focus instrument SEKernel (nX e1) 0
                                            s1 s2) _ _)
              s1 s2 (conj Hal Hfoc)).
    do 2 marshal_step.
    eapply related_weaken;
      [apply (marshal_SE_loop instrument (nX e1) (nX e1) 0) | auto |].
    apply Hdone. cbn. lia.
  - refine ((_ : related cfg
                         (fun s1 s2 =>
                            aligned cfg s1 s2
                            /\ vector_focus instrument ExpSineSquaredSEKernel
                                            (nX e1) 0 s1 s2) _ _)
              s1 s2 (conj Hal Hfoc)).
    do 4 marshal_step.
    eapply related_bind;
      [ apply related_reads; [solve [reader] | intros ? ? [? _]; assumption]
      | intros ? ].
    eapply related_weaken;
      [apply set_lc_GPVector_related | intros ? ? H; exact H |].
    apply Hdone. cbn. lia.
  - refine ((_ : related cfg
                         (fun s1 s2 =>
                            aligned cfg s1 s2
                            /\ vector_focus instrument CeleriteQPKernel
                                            (nX e1) 0 s1 s2) _ _)
              s1 s2 (conj Hal Hfoc)).
    do 4 marshal_step.
    eapply related_bind;
      [ apply related_reads; [solve [reader] | intros ? ? [? _]; assumption]
      | intros ? ].
    eapply related_weaken;
      [apply set_lc_GPVector_related | intros ? ? H; exact H |].
    apply Hdone. cbn. lia.
Qed.

(** A step that only reads, in front of the rest. *)
Ltac read_step :=
  eapply related_bind;
  [ apply related_reads;
    [ solve [reader]
    | first [ intros ? ? H; exact H | intros ? ? [H _]; exact H ] ]
  | intros ? ].

Ltac read_as x :=
  eapply related_bind;
  [ apply related_reads;
    [ solve [reader]
    | first [ intros ? ? H; exact H | intros ? ? [H _]; exact H ] ]
  | intros x ].

Ltac read_all :=
  eapply related_weaken;
  [ apply related_reads;
    [ solve [reader]
    | first [ intros ? ? H; exact H | intros ? ? [H _]; exact H ] ]
  | intros ? ? H; exact H
  | cbn beta; first [ intros ? ? ? H; exact H | intros ? ? ? [H _]; exact H ] ].

(** Lines 737-781. *)
Lemma lc_instrument_likelihood_related (loc : locals) (instrument : string)
      (ll : R) :
  related cfg (aligned cfg)
          (lc_instrument_likelihood cfg orc loc instrument ll)
          (fun _ => aligned cfg).
Proof.
  unfold lc_instrument_likelihood. do 7 read_step.
  apply related_with_entry; [auto |].
  intros e1 e2 s1 s2 Hal H1 H2 (_ & HD & _). rewrite <- HD.
  destruct (GPDetrend e1); cbn [negb].
  - refine ((_ : related cfg (aligned cfg) _ (fun _ => aligned cfg))
              s1 s2 Hal).
    eapply related_bind; [apply marshal_lc_GPVector_related | intros ?].
    apply related_with_entry; [intros ? ? [H _]; exact H |].
    intros e1' e2' t1 t2 [Hal' Hv] H1' H2' _.
    unfold vector_eq in Hv. rewrite H1', H2' in Hv. cbn in Hv. rewrite <- Hv.
    refine ((_ : related cfg (aligned cfg) _ (fun _ => aligned cfg))
              t1 t2 Hal').
    read_all.
  - refine ((_ : related cfg (aligned cfg) _ (fun _ => aligned cfg))
              s1 s2 Hal).
    read_all.
Qed.

Lemma related_return {A} (P : store -> store -> Prop)
      (Q : A -> store -> store -> Prop) (v : R) :
  (forall s1 s2, P s1 s2 -> aligned cfg s1 s2) ->
  related cfg P (@return_ A v) Q.
Proof. intros HP s1 s2 H. split; [reflexivity | exact (HP _ _ H)]. Qed.

Lemma entry_sim_with_params (e1 e2 : lc_entry) (tp1 tp2 : TransitParams) :
  entry_sim 0 e1 e2 -> entry_sim 0 (with_params e1 tp1) (with_params e2 tp2).
Proof. intros H. exact H. Qed.

(** A reading step in front of two continuations. *)
Lemma outcome_rel_after_read {A B} (m : M A) (k1 k2 : A -> M B)
      (Q : B -> store -> store -> Prop) (s1 s2 : store) :
  reads cfg m -> aligned cfg s1 s2 ->
  (forall a, outcome_rel Q (aligned cfg) (k1 a s1) (k2 a s2)) ->
  outcome_rel Q (aligned cfg) (bind m k1 s1) (bind m k2 s2).
Proof.
  intros [Hs Ho] Hal Hk. unfold bind. pose proof (Hs s1) as Hs1.
  pose proof (Hs s2) as Hs2. pose proof (Ho _ _ Hal) as Hout.
  destruct (m s1) as [o1 t1], (m s2) as [o2 t2]. cbn [fst snd] in *.
  subst t1 t2 o1. destruct o2 as [a | v |].
  - apply Hk.
  - split; [reflexivity | exact Hal].
  - exact Hal.
Qed.

(** Lines 675-680: afterwards the two entries hold the same coefficients. *)
Lemma set_limb_darkening_related (instrument : string) :
  related cfg (aligned cfg) (set_limb_darkening instrument)
          (fun _ s1 s2 => aligned cfg s1 s2 /\ u_focus instrument s1 s2).
Proof.
  unfold set_limb_darkening. apply related_with_entry; [auto |].
  intros e1 e2 s1 s2 Hal H1 H2 He. pose proof He as (HL & _).
  rewrite <- HL. apply outcome_rel_after_read; [reader | exact Hal |].
  intros u. unfold set_lc_entry, modify, outcome_rel. cbn [fst snd].
  split; [reflexivity |]. split.
  - apply aligned_set_lc; [exact Hal |].
    apply entry_sim_with_params. exact He.
  - unfold u_focus. cbn. rewrite !dict_get_set_same. reflexivity.
Qed.

(** Lines 717-734: with the coefficients in line, the transit model gets
    the same parameters in both runs. *)
Lemma transit_model_step_related (instrument : string)
      (a b p t0 P ecc omega : R) (model : array) :
  related cfg
          (fun s1 s2 => aligned cfg s1 s2 /\ u_focus instrument s1 s2)
          (transit_model_step cfg orc instrument a b p t0 P ecc omega model)
          (fun _ => aligned cfg).
Proof.
  unfold transit_model_step, inclination_step.
  destruct (ecc >? ecclim);
    [apply related_return; intros ? ? [H _]; exact H |].
  match goal with
  | |- related _ _ (if ?c then _ else _) _ => destruct c
  end; [| apply related_return; intros ? ? [H _]; exact H].
  apply related_with_entry; [intros ? ? [H _]; exact H |].
  intros e1 e2 s1 s2 [Hal Hu] H1 H2 He.
  unfold u_focus in Hu. rewrite H1, H2 in Hu. cbn in Hu.
  unfold with_orbit. rewrite <- Hu.
  unfold bind at 1 2, set_lc_entry, modify.
  match goal with
  | |- outcome_rel _ _ (multiply_lcmodel _ _ _ ?tp _ ?t1)
                   (multiply_lcmodel _ _ _ _ _ ?t2) =>
      refine ((_ : related cfg (aligned cfg)
                           (multiply_lcmodel cfg orc instrument tp model)
                           (fun _ => aligned cfg)) t1 t2 _)
  end.
  - read_all.
  - apply aligned_set_lc; [exact Hal |].
    apply entry_sim_with_params. exact He.
Qed.

(** Lines 673-734. *)
Lemma transit_planet_related (instrument : string) (n i : nat)
      (loc : locals) :
  related cfg (aligned cfg) (transit_planet cfg orc instrument n i loc)
          (fun _ => aligned cfg).
Proof.
  unfold transit_planet.
  eapply related_bind; [apply set_limb_darkening_related | intros ?].
  read_step. destruct a0 as [[[[a' b'] p'] t0'] P']. do 2 read_step.
  eapply related_bind; [apply transit_model_step_related | intros ?].
  apply related_ret. auto.
Qed.

(** Lines 654-734. *)
Lemma photometric_section_related (loc : locals) :
  related cfg (aligned cfg) (photometric_section cfg orc loc)
          (fun _ => aligned cfg).
Proof.
  unfold photometric_section. destruct (lcfilename cfg).
  - read_step. apply related_for_each. intros instrument loc1.
    apply related_for_range. intros n i acc. apply transit_planet_related.
  - apply related_ret. auto.
Qed.

(** *** The radial velocities *)

Lemma related_get_store {B} (P : store -> store -> Prop)
      (k : store -> M B) (Q : B -> store -> store -> Prop) :
  (forall s1 s2, P s1 s2 ->
                 outcome_rel Q (aligned cfg) (k s1 s1) (k s2 s2)) ->
  related cfg P (bind get_store k) Q.
Proof. intros Hk s1 s2 H. exact (Hk _ _ H). Qed.

Lemma aligned_set_radvel (s1 s2 : store) (d1 d2 : dict R) :
  aligned cfg s1 s2 ->
  dict_agree (pending_planet 0 (List.length (numbering_rv cfg))) d1 d2 ->
  aligned cfg (with_radvel_params s1 d1) (with_radvel_params s2 d2).
Proof.
  intros [Hp [H1 H2 H3 H4 H5 H6 H7 H8]] Hd. split; [exact Hp |].
  constructor; cbn; assumption.
Qed.

Lemma set_radvel_related (Pk : string -> Prop) (key : string) (v : R) :
  (forall k, Pk k -> pending_planet 0 (List.length (numbering_rv cfg)) k) ->
  related cfg
          (fun s1 s2 =>
             aligned cfg s1 s2
             /\ dict_agree Pk (radvel_params s1) (radvel_params s2))
          (set_radvel key v)
          (fun _ s1 s2 =>
             aligned cfg s1 s2
             /\ dict_agree (fun k => Pk k /\ k <> key)
                           (radvel_params s1) (radvel_params s2)).
Proof.
  intros Hsub s1 s2 [Hal Hd]. unfold set_radvel, modify, outcome_rel.
  cbn [fst snd]. split; [reflexivity |].
  pose proof (dict_set_agree _ key v _ _ Hd) as Hd'. split; [| exact Hd'].
  apply aligned_set_radvel; [exact Hal |].
  revert Hd'. apply dict_agree_weaken. intros k [Hk _]. exact (Hsub _ Hk).
Qed.

Lemma pending_planet_from_zero (n hi : nat) (k : string) :
  pending_planet n hi k -> pending_planet 0 hi k.
Proof. intros (m & Hm & Hin). exists m. split; [lia | exact Hin]. Qed.

(** Lines 807-829: the planet's five keys are in line afterwards. *)
Lemma rv_planet_related (n i : nat) (u : unit) :
  related cfg
          (fun s1 s2 => aligned cfg s1 s2 /\ radvel_focus cfg n s1 s2)
          (rv_planet cfg n i u)
          (fun _ s1 s2 => aligned cfg s1 s2 /\ radvel_focus cfg (S n) s1 s2).
Proof.
  unfold rv_planet, radvel_focus. do 4 read_step.
  destruct a2 as [ecc omega].
  destruct (ecc >? 1); [apply related_return; intros ? ? [H _]; exact H |].
  eapply related_bind;
    [apply set_radvel_related; intros k; apply pending_planet_from_zero
    | intros ?].
  eapply related_bind;
    [ apply set_radvel_related; intros k [Hk _];
      exact (pending_planet_from_zero _ _ _ Hk)
    | intros ?].
  eapply related_bind;
    [ apply set_radvel_related; intros k [[Hk _] _];
      exact (pending_planet_from_zero _ _ _ Hk)
    | intros ?].
  eapply related_bind;
    [ apply set_radvel_related; intros k [[[Hk _] _] _];
      exact (pending_planet_from_zero _ _ _ Hk)
    | intros ?].
  eapply related_post;
    [ apply set_radvel_related; intros k [[[[Hk _] _] _] _];
      exact (pending_planet_from_zero _ _ _ Hk)
    | ].
  intros ? s1 s2 [Hal Hd]. split; [exact Hal |].
  revert Hd. apply dict_agree_weaken.
  intros k [[[[[(m & Hm & Hin) Hper] Htc] Hw] He] Hk].
  exists m. split; [| exact Hin].
  destruct (Nat.eq_dec m n) as [-> | Hne]; [| lia].
  exfalso. cbn [planet_keys In] in Hin.
  destruct Hin as [H | [H | [H | [H | [H | []]]]]]; symmetry in H; auto.
Qed.

Lemma related_for_range_indexed {B}
      (Inv : nat -> store -> store -> Prop)
      (body : nat -> nat -> B -> M B) :
  (forall n i acc, related cfg (Inv n) (body n i acc) (fun _ => Inv (S n))) ->
  forall xs n acc,
    related cfg (Inv n) (for_range xs n acc body)
            (fun _ => Inv (n + List.length xs)%nat).
Proof.
  intros Hbody. induction xs as [| x xs IH]; intros n acc;
    cbn [for_range List.length].
  - apply related_ret. intros s1 s2 H. rewrite Nat.add_0_r. exact H.
  - eapply related_bind; [apply Hbody | intros a].
    eapply related_weaken; [apply IH | intros ? ? H; exact H |].
    intros ? s1 s2 H. cbn beta in *.
    replace (n + S (List.length xs))%nat with (S n + List.length xs)%nat
      by lia.
    exact H.
Qed.

(** Lines 789-831: radvel gets one and the same dictionary. *)
Lemma rv_section_related :
  related cfg (aligned cfg) (rv_section cfg orc) (fun _ => aligned cfg).
Proof.
  unfold rv_section. destruct (rvfilename cfg); [| apply related_ret; auto].
  read_step. eapply related_bind.
  - eapply related_weaken;
      [ apply (related_for_range_indexed
                 (fun n s1 s2 =>
                    aligned cfg s1 s2 /\ radvel_focus cfg n s1 s2));
        intros n i acc; apply rv_planet_related
      | | intros ? ? ? H; exact H ].
    intros s1 s2 Hal. split; [exact Hal |].
    exact (sim_radvel _ _ _ (proj2 Hal)).
  - intros ?. apply related_get_store. intros s1 s2 [Hal Hd].
    unfold radvel_focus in Hd. cbn [Nat.add] in Hd.
    assert (radvel_params s1 = radvel_params s2) as ->.
    { revert Hd. apply dict_agree_eq. intros k (m & Hm & _). lia. }
    refine ((_ : related cfg (aligned cfg) _ (fun _ => aligned cfg))
              s1 s2 Hal).
    read_all.
Qed.

Lemma related_bind_ret {A B} (P : store -> store -> Prop) (a : A)
      (k : A -> M B) (Q : B -> store -> store -> Prop) :
  related cfg P (k a) Q -> related cfg P (bind (ret a) k) Q.
Proof. intros H s1 s2 HP. exact (H s1 s2 HP). Qed.

Lemma bind_raise_now {A B} (k : A -> M B) (s : store) :
  bind raise k s = (Raise, s).
Proof. reflexivity. Qed.

Lemma bind_modify {B} (f : store -> store) (k : unit -> M B) (s : store) :
  bind (modify f) k s = k tt (f s).
Proof. reflexivity. Qed.

Lemma pending_points_step (instrument : string) (idx : list nat)
      (rem : list string) (j : nat) :
  Dict.get (instrument_indexes_rv cfg) instrument = Some idx ->
  pending_points cfg (instrument :: rem) j -> ~ In j idx ->
  pending_points cfg rem j.
Proof.
  intros Hidx (i' & idx' & [<- | Hin] & Hget & Hj) Hnot.
  - rewrite Hidx in Hget. injection Hget as <-. contradiction.
  - exists i', idx'. repeat split; assumption.
Qed.

Lemma pending_points_incl (rem rem' : list string) (j : nat) :
  incl rem rem' -> pending_points cfg rem j -> pending_points cfg rem' j.
Proof.
  intros Hincl (i' & idx' & Hin & Hget & Hj).
  exists i', idx'. repeat split; auto.
Qed.

Lemma aligned_set_res (s1 s2 : store) (r1 r2 : array) :
  aligned cfg s1 s2 ->
  agree_except (pending_points cfg (inames_rv cfg)) r1 r2 ->
  aligned cfg (with_rvresiduals s1 r1) (with_rvresiduals s2 r2).
Proof.
  intros [Hp [H1 H2 H3 H4 H5 H6 H7 H8]] Hd. split; [exact Hp |].
  constructor; cbn; assumption.
Qed.

Lemma aligned_set_err (s1 s2 : store) (r1 r2 : array) :
  aligned cfg s1 s2 ->
  agree_except (pending_points cfg (inames_rv cfg)) r1 r2 ->
  aligned cfg (with_rvresiduals_err s1 r1) (with_rvresiduals_err s2 r2).
Proof.
  intros [Hp [H1 H2 H3 H4 H5 H6 H7 H8]] Hd. split; [exact Hp |].
  constructor; cbn; assumption.
Qed.

(** Two arrays that agree outside the points of [instrument :: rem], after
    the points of [instrument] have been written in both. *)
Lemma scatter_instrument (instrument : string) (idx : list nat)
      (rem : list string) (vals v1 v2 : array) :
  Dict.get (instrument_indexes_rv cfg) instrument = Some idx ->
  incl (instrument :: rem) (inames_rv cfg) ->
  agree_except (pending_points cfg (instrument :: rem)) v1 v2 ->
  opt_rel (fun r1 r2 =>
             agree_except (pending_points cfg (inames_rv cfg)) r1 r2
             /\ agree_except (pending_points cfg rem) r1 r2)
          (Array.scatter idx vals v1) (Array.scatter idx vals v2).
Proof.
  intros Hidx Hincl Hag. pose proof (scatter_agree idx vals _ _ _ Hag) as H.
  destruct (Array.scatter idx vals v1), (Array.scatter idx vals v2);
    cbn [opt_rel] in *; try contradiction; [| exact I].
  split; revert H; apply agree_except_weaken; intros j [Hp Hn].
  - exact (pending_points_incl _ _ _ Hincl Hp).
  - exact (pending_points_step _ _ _ _ Hidx Hp Hn).
Qed.

(** Lines 849-861 with a GP: the residuals of the instrument and their
    errors are in line afterwards. *)
Lemma rv_instrument_likelihood_gp (rvmodel : option array)
      (instrument : string) (rem : list string) (ll : R) :
  rveparamfile cfg = true ->
  incl (instrument :: rem) (inames_rv cfg) ->
  related cfg
          (fun s1 s2 =>
             aligned cfg s1 s2
             /\ residuals_focus cfg (instrument :: rem) s1 s2
             /\ errors_focus cfg (instrument :: rem) s1 s2)
          (rv_instrument_likelihood cfg rvmodel instrument ll)
          (fun _ s1 s2 =>
             aligned cfg s1 s2
             /\ residuals_focus cfg rem s1 s2
             /\ errors_focus cfg rem s1 s2).
Proof.
  intros Hgp Hincl. unfold rv_instrument_likelihood. rewrite Hgp.
  cbn [negb].
  destruct (Dict.get (instrument_indexes_rv cfg) instrument) as [idx |]
    eqn:Hidx; cbn [of_option];
    [| intros s1 s2 [Hal _]; exact Hal].
  apply related_bind_ret.
  do 4 read_step. read_as residuals.
  apply related_get_store. intros s1 s2 (Hal & Hres & Herr).
  pose proof (scatter_instrument _ _ _ residuals _ _ Hidx Hincl Hres) as Hsc.
  destruct (Array.scatter idx residuals (rvresiduals s1)) as [r1 |],
      (Array.scatter idx residuals (rvresiduals s2)) as [r2 |];
    cbn [opt_rel of_option] in *; try contradiction; [| exact Hal].
  rewrite !bind_ret, !bind_modify. cbn beta.
  match goal with
  | |- outcome_rel ?Q _ (?m ?t1) (?m ?t2) =>
      refine ((_ : related cfg
                           (fun s1 s2 =>
                              aligned cfg s1 s2
                              /\ residuals_focus cfg rem s1 s2
                              /\ errors_focus cfg (instrument :: rem) s1 s2)
                           m Q) t1 t2 _)
  end.
  - read_as errors. read_as sigma_w_rv.
    apply related_get_store. intros t1 t2 (Hal' & Hres' & Herr').
    pose proof (scatter_instrument
                  _ _ _ (map (fun e => sqrt (e ^ 2 + sigma_w_rv ^ 2)) errors)
                  _ _ Hidx Hincl Herr') as Hsc'.
    destruct (Array.scatter idx _ (rvresiduals_err t1)) as [e1 |],
        (Array.scatter idx _ (rvresiduals_err t2)) as [e2 |];
      cbn [opt_rel of_option] in *; try contradiction; [| exact Hal'].
    rewrite !bind_ret, !bind_modify. cbn beta.
    split; [reflexivity |]. cbn [snd]. split; [| split].
    + apply aligned_set_err; [exact Hal' | exact (proj1 Hsc')].
    + exact Hres'.
    + exact (proj2 Hsc').
  - split; [| split].
    + apply aligned_set_res; [exact Hal | exact (proj1 Hsc)].
    + exact (proj2 Hsc).
    + exact Herr.
Qed.

(** Lines 849-861 without a GP: nothing is written. *)
Lemma rv_instrument_likelihood_white (rvmodel : option array)
      (instrument : string) (ll : R) :
  rveparamfile cfg = false ->
  related cfg (aligned cfg)
          (rv_instrument_likelihood cfg rvmodel instrument ll)
          (fun _ => aligned cfg).
Proof.
  intros Hgp. unfold rv_instrument_likelihood. rewrite Hgp. cbn [negb].
  read_all.
Qed.

Lemma aligned_set_rv_vector (s1 s2 : store) (v1 v2 : array) :
  aligned cfg s1 s2 ->
  agree_except
    (fun j => (0 <= j < rv_written (rv_GPType (rv_dictionary s1)))%nat)
    v1 v2 ->
  aligned cfg
          (with_rv_dictionary s1 (with_rv_GPVector (rv_dictionary s1) v1))
          (with_rv_dictionary s2 (with_rv_GPVector (rv_dictionary s2) v2)).
Proof.
  intros [Hp [H1 H2 H3 H4 H5 H6 H7 H8]] Hd. split; [exact Hp |].
  constructor; cbn; assumption.
Qed.

Lemma set_rv_GPVector_related (kernel : gp_kernel) (k : nat) (x : R) :
  related cfg
          (fun s1 s2 =>
             aligned cfg s1 s2
             /\ residuals_focus cfg [] s1 s2 /\ errors_focus cfg [] s1 s2
             /\ rv_vector_focus kernel k s1 s2)
          (set_rv_GPVector k x)
          (fun _ s1 s2 =>
             aligned cfg s1 s2
             /\ residuals_focus cfg [] s1 s2 /\ errors_focus cfg [] s1 s2
             /\ rv_vector_focus kernel (S k) s1 s2).
Proof.
  unfold set_rv_GPVector. apply related_get_store.
  intros s1 s2 (Hal & Hr & He & Hfoc).
  unfold rv_vector_focus in Hfoc. destruct Hfoc as [HT Hv].
  pose proof (set_nth_agree _ k x _ _ Hv) as Hset.
  destruct (Array.set_nth k x (rv_GPVector (rv_dictionary s1))) as [v1 |],
      (Array.set_nth k x (rv_GPVector (rv_dictionary s2))) as [v2 |];
    cbn [opt_rel of_option] in *; try contradiction; [| exact Hal].
  rewrite !bind_ret. unfold modify, outcome_rel. cbn [fst snd].
  split; [reflexivity |].
  assert (agree_except (fun j => (S k <= j < rv_written kernel)%nat) v1 v2)
    as Hv'.
  { revert Hset. apply agree_except_weaken. intros j [Hj Hne]. lia. }
  split; [| split; [exact Hr | split; [exact He | split; [exact HT |]]]].
  - apply aligned_set_rv_vector; [exact Hal |]. rewrite HT.
    revert Hv'. apply agree_except_weaken. intros j Hj. lia.
  - exact Hv'.
Qed.

Ltac rv_marshal_step :=
  eapply related_bind;
  [ apply related_reads; [solve [reader] | intros ? ? [? _]; assumption]
  | intros ?;
    eapply related_bind; [apply set_rv_GPVector_related | intros ?] ].

(** Lines 863-881: after the marshaling the two vectors are one. *)
Lemma marshal_rv_GPVector_related :
  related cfg
          (fun s1 s2 =>
             aligned cfg s1 s2
             /\ residuals_focus cfg [] s1 s2 /\ errors_focus cfg [] s1 s2)
          marshal_rv_GPVector
          (fun _ s1 s2 =>
             aligned cfg s1 s2
             /\ residuals_focus cfg [] s1 s2 /\ errors_focus cfg [] s1 s2
             /\ rv_GPVector (rv_dictionary s1)
                = rv_GPVector (rv_dictionary s2)).
Proof.
  unfold marshal_rv_GPVector. apply related_get_store.
  intros s1 s2 (Hal & Hr & He). pose proof (proj2 Hal) as Hsim.
  rewrite <- (sim_rv_type _ _ _ Hsim).
  pose proof (sim_rv_vector _ _ _ Hsim) as Hv.
  assert (forall kernel (u : unit) (t1 t2 : store),
             aligned cfg t1 t2
             /\ residuals_focus cfg [] t1 t2 /\ errors_focus cfg [] t1 t2
             /\ rv_vector_focus kernel (rv_written kernel) t1 t2 ->
             aligned cfg t1 t2
             /\ residuals_focus cfg [] t1 t2 /\ errors_focus cfg [] t1 t2
             /\ rv_GPVector (rv_dictionary t1)
                = rv_GPVector (rv_dictionary t2)) as Hdone.
  { intros kernel _ t1 t2 (Ha & Hr' & He' & Hfoc).
    unfold rv_vector_focus in Hfoc. destruct Hfoc as [_ Hv'].
    split; [exact Ha | split; [exact Hr' | split; [exact He' |]]].
    revert Hv'. apply agree_except_eq. intros j. lia. }
  destruct (rv_GPType (rv_dictionary s1)) eqn:HT.
  - split; [reflexivity |]. cbn [ret snd].
    apply (Hdone SEKernel tt).
    split; [exact Hal | split; [exact Hr | split; [exact He |]]].
    split; [exact HT | exact Hv].
  - refine ((_ : related cfg
                         (fun s1 s2 =>
                            aligned cfg s1 s2
                            /\ residuals_focus cfg [] s1 s2
                            /\ errors_focus cfg [] s1 s2
                            /\ rv_vector_focus ExpSineSquaredSEKernel 0 s1 s2)
                         _ _)
              s1 s2 _);
      [| split; [exact Hal | split; [exact Hr | split; [exact He |]]];
         split; [exact HT | exact Hv]].
    do 3 rv_marshal_step.
    eapply related_bind;
      [ apply related_reads; [solve [reader] | intros ? ? [? _]; assumption]
      | intros ? ].
    eapply related_post; [apply set_rv_GPVector_related |].
    apply (Hdone ExpSineSquaredSEKernel).
  - refine ((_ : related cfg
                         (fun s1 s2 =>
                            aligned cfg s1 s2
                            /\ residuals_focus cfg [] s1 s2
                            /\ errors_focus cfg [] s1 s2
                            /\ rv_vector_focus CeleriteQPKernel 0 s1 s2)
                         _ _)
              s1 s2 _);
      [| split; [exact Hal | split; [exact Hr | split; [exact He |]]];
         split; [exact HT | exact Hv]].
    do 3 rv_marshal_step.
    eapply related_bind;
      [ apply related_reads; [solve [reader] | intros ? ? [? _]; assumption]
      | intros ? ].
    eapply related_post; [apply set_rv_GPVector_related |].
    apply (Hdone CeleriteQPKernel).
Qed.

(** Lines 862-885. *)
Lemma rv_gp_term_related (ll : R) :
  related cfg
          (fun s1 s2 =>
             aligned cfg s1 s2
             /\ (rveparamfile cfg = true ->
                 residuals_focus cfg [] s1 s2 /\ errors_focus cfg [] s1 s2))
          (rv_gp_term cfg orc ll)
          (fun _ => aligned cfg).
Proof.
  unfold rv_gp_term. destruct (rveparamfile cfg).
  - eapply related_bind.
    + eapply related_weaken;
        [ apply marshal_rv_GPVector_related
        | intros s1 s2 [Hal H]; destruct (H eq_refl) as [Hr He];
          split; [exact Hal | split; assumption]
        | intros ? ? ? H; exact H ].
    + intros ?. apply related_get_store.
      intros s1 s2 (Hal & Hr & He & Hv). rewrite Hv.
      assert (rvresiduals s1 = rvresiduals s2) as ->.
      { revert Hr. apply agree_except_eq.
        intros j (i' & idx' & [] & _). }
      assert (rvresiduals_err s1 = rvresiduals_err s2) as ->.
      { revert He. apply agree_except_eq.
        intros j (i' & idx' & [] & _). }
      refine ((_ : related cfg (aligned cfg) _ (fun _ => aligned cfg))
                s1 s2 Hal).
      read_all.
  - apply related_ret. intros s1 s2 [Hal _]. exact Hal.
Qed.

Lemma related_for_each_suffix {A B} (xs0 : list A)
      (Inv : list A -> store -> store -> Prop) (body : A -> B -> M B) :
  (forall x rem acc,
      incl (x :: rem) xs0 ->
      related cfg (Inv (x :: rem)) (body x acc) (fun _ => Inv rem)) ->
  forall xs acc,
    incl xs xs0 ->
    related cfg (Inv xs) (for_each xs acc body) (fun _ => Inv []).
Proof.
  intros Hbody. induction xs as [| x xs IH]; intros acc Hincl;
    cbn [for_each].
  - apply related_ret. auto.
  - eapply related_bind; [apply Hbody; exact Hincl | intros a].
    apply IH. intros y Hy. apply Hincl. right. exact Hy.
Qed.

(** Lines 788-888. *)
Lemma rv_part_related (ll : R) :
  related cfg (aligned cfg) (rv_part cfg orc ll) (fun _ => aligned cfg).
Proof.
  unfold rv_part.
  eapply related_bind; [apply rv_section_related | intros rvmodel].
  read_as rvmodel'.
  destruct (rveparamfile cfg) eqn:Hgp.
  - eapply related_bind.
    + eapply related_weaken;
        [ apply (related_for_each_suffix
                   (inames_rv cfg)
                   (fun rem s1 s2 =>
                      aligned cfg s1 s2
                      /\ residuals_focus cfg rem s1 s2
                      /\ errors_focus cfg rem s1 s2));
          [ intros x rem acc Hincl;
            apply rv_instrument_likelihood_gp; assumption
          | apply incl_refl ]
        | | intros ? ? ? H; exact H ].
      intros s1 s2 Hal. split; [exact Hal |]. split.
      * exact (sim_res _ _ _ (proj2 Hal)).
      * exact (sim_err _ _ _ (proj2 Hal)).
    + intros ll3. eapply related_bind.
      * eapply related_weaken;
          [ apply rv_gp_term_related
          | intros s1 s2 (Hal & Hr & He); split; [exact Hal | intros _; split; assumption]
          | intros ? ? ? H; exact H ].
      * intros ll4. apply related_return. auto.
  - eapply related_bind.
    + apply related_for_each. intros x acc.
      apply rv_instrument_likelihood_white. exact Hgp.
    + intros ll3. eapply related_bind.
      * eapply related_weaken;
          [ apply rv_gp_term_related
          | intros s1 s2 Hal; split; [exact Hal | rewrite Hgp; discriminate]
          | intros ? ? ? H; exact H ].
      * intros ll4. apply related_return. auto.
Qed.

(** *** The whole evaluation *)

Lemma bind_assoc_at {A B C} (m : M A) (k1 : A -> M B) (k2 : B -> M C)
      (s : store) :
  bind (bind m k1) k2 s = bind m (fun a => bind (k1 a) k2) s.
Proof. unfold bind. destruct (m s) as [[a | v |] s']; reflexivity. Qed.

Lemma bind_assign_cvalues {B} (cube : list R) (k : unit -> M B) (s : store) :
  bind (assign_cvalues cube) k s
  = match assign_loop cube 0 (priors s) with
    | (Next u, p) => k u (with_priors s p)
    | (Return v, p) => (Return v, with_priors s p)
    | (Raise, p) => (Raise, with_priors s p)
    end.
Proof.
  unfold bind, assign_cvalues.
  destruct (assign_loop cube 0 (priors s)) as [[u | v |] p]; reflexivity.
Qed.

Lemma similar_with_priors (s1 s2 : store) (p1 p2 : dict pinfo) :
  similar cfg s1 s2 -> same_schema p1 p2 ->
  similar cfg (with_priors s1 p1) (with_priors s2 p2).
Proof.
  intros [H1 H2 H3 H4 H5 H6 H7 H8] Hp. constructor; cbn; assumption.
Qed.

(** Everything after the assignment of the sample. *)
Lemma after_assignment_related (cube : list R) :
  related cfg (aligned cfg)
          (bind (loc <- photometric_section
                          cfg orc
                          {| lcmodel := None; loc_a := None; loc_P := None |} ;;
                 ll1 <- for_each (inames_lc cfg) 0
                                 (lc_instrument_likelihood cfg orc loc) ;;
                 stellar_density_term cfg loc ll1)
                (rv_part cfg orc))
          (fun _ => aligned cfg).
Proof.
  eapply related_bind; [| intros ll2; apply rv_part_related].
  eapply related_bind; [apply photometric_section_related | intros loc].
  eapply related_bind;
    [ apply related_for_each; intros x acc;
      apply lc_instrument_likelihood_related
    | intros ll1 ].
  read_all.
Qed.

Lemma loglike_related (cube : list R) (s1 s2 : store) :
  similar cfg s1 s2 ->
  fst (loglike cfg orc cube s1) = fst (loglike cfg orc cube s2)
  /\ similar cfg (snd (loglike cfg orc cube s1))
             (snd (loglike cfg orc cube s2)).
Proof.
  intros Hsim. unfold loglike, loglike_body, photometric_part.
  rewrite !bind_assoc_at, !bind_assign_cvalues.
  destruct (assign_loop_related cube _ _ (sim_priors _ _ _ Hsim) 0%nat)
    as (Ho & Hs & He).
  destruct (assign_loop cube 0 (priors s1)) as [o1 p1],
      (assign_loop cube 0 (priors s2)) as [o2 p2].
  cbn [fst snd] in *. subst o2.
  destruct o1 as [[] | v |].
  - specialize (He eq_refl). subst p2.
    assert (aligned cfg (with_priors s1 p1) (with_priors s2 p1)) as Hal.
    { split; [reflexivity |].
      apply similar_with_priors; [exact Hsim | apply same_schema_refl]. }
    pose proof (after_assignment_related cube _ _ Hal) as Hrel.
    unfold outcome_rel in Hrel. cbn beta.
    match type of Hrel with
    | match fst ?r1 with _ => _ end =>
        match goal with
        | |- context [fst (match ?r1' with _ => _ end)] =>
            change r1' with r1
        end;
        destruct r1 as [[a1 | v1 |] t1]
    end;
      match type of Hrel with
      | match _ with _ => _ end =>
          match goal with
          | |- context [similar _ _ (snd (match ?r2 with _ => _ end))] =>
              destruct r2 as [[a2 | v2 |] t2]
          end
      end;
      cbn [fst snd] in *; try contradiction.
    + split; [reflexivity | exact (proj2 (proj2 Hrel))].
    + destruct Hrel as [<- Hal']. split; [reflexivity | exact (proj2 Hal')].
    + split; [reflexivity | exact (proj2 Hrel)].
  - cbn [fst snd]. split; [reflexivity |].
    apply similar_with_priors; assumption.
  - cbn [fst snd]. split; [reflexivity |].
    apply similar_with_priors; assumption.
Qed.

(* ----------------------------------------------------------------- *)
(** ** An evaluation leaves a store of the same setup *)

Lemma agree_except_trans (P : nat -> Prop) (v1 v2 v3 : array) :
  agree_except P v1 v2 -> agree_except P v2 v3 -> agree_except P v1 v3.
Proof.
  intros [L1 A1] [L2 A2]. split; [congruence |]. intros j.
  destruct (A1 j) as [Hp | E1]; [left; exact Hp |].
  destruct (A2 j) as [Hp | E2]; [left; exact Hp | right; congruence].
Qed.

Lemma entry_sim_refl (k : nat) (e : lc_entry) : entry_sim k e e.
Proof. repeat split; try reflexivity. intros j. right. reflexivity. Qed.

Lemma entry_sim_trans (k : nat) (e1 e2 e3 : lc_entry) :
  entry_sim k e1 e2 -> entry_sim k e2 e3 -> entry_sim k e1 e3.
Proof.
  intros (A1 & A2 & A3 & A4 & A5 & A6) (B1 & B2 & B3 & B4 & B5 & B6).
  rewrite <- A3, <- A4 in B6.
  split; [congruence |]. split; [congruence |]. split; [congruence |].
  split; [congruence |]. split; [congruence |].
  exact (agree_except_trans _ _ _ _ A6 B6).
Qed.

Lemma opt_rel_refl {A} (r : A -> A -> Prop) (o : option A) :
  (forall a, r a a) -> opt_rel r o o.
Proof. intros H. destruct o; cbn; auto. Qed.

Lemma opt_rel_trans {A} (r : A -> A -> Prop) (o1 o2 o3 : option A) :
  (forall a b c, r a b -> r b c -> r a c) ->
  opt_rel r o1 o2 -> opt_rel r o2 o3 -> opt_rel r o1 o3.
Proof.
  intros H. destruct o1, o2, o3; cbn; try contradiction; auto.
  apply H.
Qed.

Lemma dict_agree_refl (P : string -> Prop) (d : dict R) :
  NoDup (map fst d) -> dict_agree P d d.
Proof.
  intros Hnd. split; [exact Hnd |].
  induction d as [| e d IH]; constructor.
  - split; [reflexivity | right; reflexivity].
  - apply IH. inversion Hnd. assumption.
Qed.

Lemma dict_agree_keys (P : string -> Prop) (d1 d2 : dict R) :
  dict_agree P d1 d2 -> map fst d2 = map fst d1.
Proof.
  intros [_ H]. induction H as [| a b d1 d2 [Hk _] _ IH]; [reflexivity |].
  cbn. rewrite Hk, IH. reflexivity.
Qed.

Lemma dict_agree_trans (P : string -> Prop) (d1 d2 d3 : dict R) :
  dict_agree P d1 d2 -> dict_agree P d2 d3 -> dict_agree P d1 d3.
Proof.
  intros [Hnd H12] [_ H23]. split; [exact Hnd |]. clear Hnd.
  revert d3 H23. induction H12 as [| a b d1 d2 [Hk Hv] _ IH]; intros d3 H23.
  - inversion H23. constructor.
  - inversion H23 as [| ? c ? d3' [Hk' Hv'] Hrest]; subst.
    constructor; [| exact (IH _ Hrest)].
    split; [congruence |]. rewrite Hk.
    destruct Hv as [Hp | E1]; [left; rewrite <- Hk; exact Hp |].
    destruct Hv' as [Hp | E2]; [left; exact Hp | right; congruence].
Qed.

Lemma same_schema_trans (p1 p2 p3 : dict pinfo) :
  same_schema p1 p2 -> same_schema p2 p3 -> same_schema p1 p3.
Proof.
  unfold same_schema. intros H12. revert p3.
  induction H12 as [| a b p1 p2 (Hk & Ht & Hv & Hf) _ IH]; intros p3 H23.
  - inversion H23. constructor.
  - inversion H23 as [| ? c ? p3' (Hk' & Ht' & Hv' & Hf') Hrest]; subst.
    constructor; [| exact (IH _ Hrest)].
    split; [congruence |]. split; [congruence |]. split; [congruence |].
    intros Hfix. rewrite Hf' by (rewrite Ht; exact Hfix). exact (Hf Hfix).
Qed.

Lemma similar_refl (s : store) : settled cfg s -> similar cfg s s.
Proof.
  intros [Hnd _]. constructor; try reflexivity.
  - apply same_schema_refl.
  - intros i. apply opt_rel_refl. apply entry_sim_refl.
  - apply agree_except_refl.
  - apply dict_agree_refl. exact Hnd.
  - apply agree_except_refl.
  - apply agree_except_refl.
Qed.

Lemma similar_trans (s1 s2 s3 : store) :
  similar cfg s1 s2 -> similar cfg s2 s3 -> similar cfg s1 s3.
Proof.
  intros [A1 A2 A3 A4 A5 A6 A7 A8] [B1 B2 B3 B4 B5 B6 B7 B8].
  constructor.
  - exact (same_schema_trans _ _ _ A1 B1).
  - intros i. apply (opt_rel_trans _ _ _ _ (entry_sim_trans 0) (A2 i) (B2 i)).
  - congruence.
  - congruence.
  - rewrite <- A3 in B5. exact (agree_except_trans _ _ _ _ A5 B5).
  - exact (dict_agree_trans _ _ _ _ A6 B6).
  - exact (agree_except_trans _ _ _ _ A7 B7).
  - exact (agree_except_trans _ _ _ _ A8 B8).
Qed.

Lemma similar_sym_value (cube : list R) (s1 s2 : store) :
  similar cfg s1 s2 ->
  fst (loglike cfg orc cube s2) = fst (loglike cfg orc cube s1).
Proof. intros H. symmetry. exact (proj1 (loglike_related cube _ _ H)). Qed.

(** *** The rules *)

Lemma stays_reads {A} (I : store -> Prop) (m : M A) :
  reads cfg m -> (forall s, I s -> settled cfg s) -> stays cfg I m.
Proof.
  intros [Hs _] HI s o s' Hi Hrun. pose proof (Hs s) as H.
  rewrite Hrun in H. cbn in H. subst s'.
  split; [apply similar_refl; auto | exact Hi].
Qed.

Lemma stays_bind {A B} (I : store -> Prop) (m : M A) (k : A -> M B) :
  stays cfg I m -> (forall a, stays cfg I (k a)) -> stays cfg I (bind m k).
Proof.
  intros Hm Hk s o s' Hi Hrun. unfold bind in Hrun.
  destruct (m s) as [[a | v |] s1] eqn:Hms.
  - destruct (Hm _ _ _ Hi Hms) as [H1 Hi1].
    destruct (Hk a _ _ _ Hi1 Hrun) as [H2 Hi2].
    split; [exact (similar_trans _ _ _ H1 H2) | exact Hi2].
  - injection Hrun as <- <-. exact (Hm _ _ _ Hi Hms).
  - injection Hrun as <- <-. exact (Hm _ _ _ Hi Hms).
Qed.

Lemma stays_for_each_in {A B} (I : store -> Prop) (body : A -> B -> M B) :
  (forall s, I s -> settled cfg s) ->
  forall xs,
    (forall x acc, In x xs -> stays cfg I (body x acc)) ->
    forall acc, stays cfg I (for_each xs acc body).
Proof.
  intros HI. induction xs as [| x xs IH]; intros Hbody acc; cbn [for_each].
  - apply stays_reads; [apply reads_ret | exact HI].
  - apply stays_bind; [apply Hbody; left; reflexivity |].
    intros a. apply IH. intros y acc' Hy. apply Hbody. right. exact Hy.
Qed.

Lemma stays_for_range_bound {B} (I : store -> Prop)
      (body : nat -> nat -> B -> M B) :
  (forall s, I s -> settled cfg s) ->
  forall xs lo,
    (forall n i acc,
        (lo <= n < lo + List.length xs)%nat -> stays cfg I (body n i acc)) ->
    forall acc, stays cfg I (for_range xs lo acc body).
Proof.
  intros HI. induction xs as [| x xs IH]; intros lo Hbody acc;
    cbn [for_range].
  - apply stays_reads; [apply reads_ret | exact HI].
  - apply stays_bind; [apply Hbody; cbn; lia |].
    intros a. apply IH. intros n i acc' Hn. apply Hbody. cbn. lia.
Qed.

(** *** The writes *)

Lemma stays_assign_cvalues (cube : list R) :
  stays cfg (settled cfg) (assign_cvalues cube).
Proof.
  intros s o s' Hset Hrun. unfold assign_cvalues in Hrun.
  pose proof (assign_loop_schema cube (priors s) 0) as Hsch.
  destruct (assign_loop cube 0 (priors s)) as [o' p']. injection Hrun as <- <-.
  split; [| exact Hset].
  destruct (similar_refl s Hset) as [H1 H2 H3 H4 H5 H6 H7 H8].
  constructor; cbn; assumption.
Qed.

Lemma similar_set_entry (s : store) (instrument : string)
      (e e' : lc_entry) :
  settled cfg s ->
  Dict.get (lc_dictionary s) instrument = Some e ->
  entry_sim 0 e e' ->
  similar cfg s
          (with_lc_dictionary s (Dict.set (lc_dictionary s) instrument e')).
Proof.
  intros Hset Hget He.
  destruct (similar_refl s Hset) as [H1 H2 H3 H4 H5 H6 H7 H8].
  constructor; cbn; try assumption.
  intros i. destruct (String.eqb_spec instrument i) as [<- | Hne].
  - rewrite dict_get_set_same, Hget. exact He.
  - rewrite dict_get_set_other by (apply String.eqb_neq; exact Hne).
    apply opt_rel_refl. apply entry_sim_refl.
Qed.

Lemma stays_with_entry {B} (I : store -> Prop) (instrument : string)
      (k : lc_entry -> M B) :
  (forall s, I s -> settled cfg s) ->
  (forall e s o s',
      I s -> Dict.get (lc_dictionary s) instrument = Some e ->
      k e s = (o, s') -> similar cfg s s' /\ I s') ->
  stays cfg I (bind (lc_entry_of instrument) k).
Proof.
  intros HI Hk s o s' Hi Hrun. unfold lc_entry_of in Hrun.
  unfold bind, get_store in Hrun.
  destruct (Dict.get (lc_dictionary s) instrument) as [e |] eqn:Hget;
    cbn [of_option ret raise] in Hrun.
  - exact (Hk _ _ _ _ Hi Hget Hrun).
  - injection Hrun as <- <-. split; [apply similar_refl; auto | exact Hi].
Qed.

Lemma stays_entry_bind {B} (I : store -> Prop) (instrument : string)
      (k : lc_entry -> M B) :
  (forall s, I s -> settled cfg s) ->
  (forall e, stays cfg I (k e)) ->
  stays cfg I (bind (lc_entry_of instrument) k).
Proof.
  intros HI Hk. apply stays_with_entry; [exact HI |].
  intros e s o s' Hi _ Hrun. exact (Hk e _ _ _ Hi Hrun).
Qed.

Lemma stays_get_store {B} (I : store -> Prop) (k : store -> M B) :
  (forall s o s', I s -> k s s = (o, s') -> similar cfg s s' /\ I s') ->
  stays cfg I (bind get_store k).
Proof. intros Hk s o s' Hi Hrun. exact (Hk _ _ _ Hi Hrun). Qed.

(** A reading step in front of a continuation: the continuation ran from
    the same store, or nothing ran. *)
Lemma bind_reads_inv {A B} (m : M A) (k : A -> M B) (s s' : store)
      (o : outcome B) :
  reads cfg m -> bind m k s = (o, s') ->
  (exists a, k a s = (o, s')) \/ s' = s.
Proof.
  intros [Hs _] Hrun. unfold bind in Hrun. pose proof (Hs s) as H.
  destruct (m s) as [[a | v |] s1]; cbn in H; subst s1.
  - left. exists a. exact Hrun.
  - right. congruence.
  - right. congruence.
Qed.

Lemma stays_set_limb_darkening (instrument : string) :
  stays cfg (settled cfg) (set_limb_darkening instrument).
Proof.
  unfold set_limb_darkening. apply stays_with_entry; [auto |].
  intros e s o s' Hset Hget Hrun.
  apply bind_reads_inv in Hrun; [| reader].
  destruct Hrun as [[u Hrun] | ->];
    [| split; [apply similar_refl; exact Hset | exact Hset]].
  unfold set_lc_entry, modify in Hrun. injection Hrun as <- <-.
  split; [| exact Hset].
  apply (similar_set_entry _ _ e); [exact Hset | exact Hget |].
  exact (entry_sim_refl 0 e).
Qed.

Lemma stays_transit_model_step (instrument : string)
      (a b p t0 P ecc omega : R) (model : array) :
  stays cfg (settled cfg)
        (transit_model_step cfg orc instrument a b p t0 P ecc omega model).
Proof.
  unfold transit_model_step, inclination_step.
  destruct (ecc >? ecclim); [apply stays_reads; [apply reads_return | auto] |].
  match goal with
  | |- stays _ _ (if ?c then _ else _) => destruct c
  end; [| apply stays_reads; [apply reads_return | auto]].
  apply stays_with_entry; [auto |].
  intros e s o s' Hset Hget Hrun.
  unfold set_lc_entry in Hrun. rewrite bind_modify in Hrun.
  match type of Hrun with
  | ?m ?s1 = _ =>
      assert (reads cfg m) as [Hs _] by reader;
      pose proof (Hs s1) as H; rewrite Hrun in H; cbn [snd] in H
  end.
  subst s'. split; [| exact Hset].
  apply (similar_set_entry _ _ e); [exact Hset | exact Hget |].
  exact (entry_sim_refl 0 e).
Qed.

Lemma stays_set_lc_GPVector (instrument : string) (kernel : gp_kernel)
      (nX_ k : nat) (x : R) :
  (k < lc_written kernel nX_)%nat ->
  stays cfg (fun s => settled cfg s /\ kernel_is instrument kernel nX_ s)
        (set_lc_GPVector instrument k x).
Proof.
  intros Hk s o s' [Hset (e & Hget & HK & HX)] Hrun.
  unfold set_lc_GPVector, lc_entry_of, set_lc_entry, modify, bind,
    get_store in Hrun.
  rewrite Hget in Hrun. cbn [of_option ret] in Hrun.
  destruct (Array.set_nth k x (GPVector e)) as [v |] eqn:Hsn;
    cbn [of_option ret raise] in Hrun; injection Hrun as <- <-.
  - destruct (set_nth_some _ _ _ _ Hsn) as [Hlen Hnth]. split; [| split].
    + apply (similar_set_entry _ _ e); [exact Hset | exact Hget |].
      repeat split; try reflexivity; cbn; [congruence |].
      intros j. rewrite Hnth. destruct (Nat.eqb_spec j k) as [-> | Hne];
        [left; rewrite HK, HX; lia | right; reflexivity].
    + exact Hset.
    + exists (with_GPVector e v). cbn. rewrite dict_get_set_same.
      repeat split; assumption.
  - split; [apply similar_refl; exact Hset |].
    split; [exact Hset |]. exists e. repeat split; assumption.
Qed.

Ltac stay_marshal_step :=
  apply stays_bind;
  [ apply stays_reads; [solve [reader] | intros ? [? _]; assumption]
  | intros ?;
    apply stays_bind;
    [ apply stays_set_lc_GPVector; cbn; lia | intros ? ] ].

Lemma stays_marshal_lc_GPVector (instrument : string) :
  stays cfg (settled cfg) (marshal_lc_GPVector instrument).
Proof.
  unfold marshal_lc_GPVector. apply stays_with_entry; [auto |].
  intros e s o s' Hset Hget Hrun.
  assert (kernel_is instrument (GPType e) (nX e) s) as Hker
      by (exists e; split; [exact Hget | split; reflexivity]).
  destruct (GPType e);
    match type of Hrun with
    | ?m s = _ =>
        match type of Hker with
        | kernel_is _ ?K _ _ =>
            assert (stays cfg
                          (fun s => settled cfg s
                                    /\ kernel_is instrument K (nX e) s)
                          m) as Hb
        end
    end.
  - do 2 stay_marshal_step.
    apply stays_for_each_in; [intros ? [? _]; assumption |].
    intros i acc Hin. apply in_seq in Hin.
    apply stays_bind;
      [ apply stays_reads; [solve [reader] | intros ? [? _]; assumption]
      | intros ?; apply stays_set_lc_GPVector; cbn; lia ].
  - destruct (Hb _ _ _ (conj Hset Hker) Hrun) as [Hsim [Hset' _]].
    split; assumption.
  - do 4 stay_marshal_step.
    apply stays_bind;
      [ apply stays_reads; [solve [reader] | intros ? [? _]; assumption]
      | intros ?; apply stays_set_lc_GPVector; cbn; lia ].
  - destruct (Hb _ _ _ (conj Hset Hker) Hrun) as [Hsim [Hset' _]].
    split; assumption.
  - do 4 stay_marshal_step.
    apply stays_bind;
      [ apply stays_reads; [solve [reader] | intros ? [? _]; assumption]
      | intros ?; apply stays_set_lc_GPVector; cbn; lia ].
  - destruct (Hb _ _ _ (conj Hset Hker) Hrun) as [Hsim [Hset' _]].
    split; assumption.
Qed.

(** The steps that the rules cover. *)
Ltac stay :=
  repeat first
    [ progress intros
    | apply stays_reads; [solve [reader] | solve [auto]]
    | apply stays_set_limb_darkening
    | apply stays_transit_model_step
    | apply stays_marshal_lc_GPVector
    | apply stays_entry_bind; [solve [auto] |]
    | apply stays_bind
    | apply stays_for_each_in; [solve [auto] |]
    | apply stays_for_range_bound; [solve [auto] |]
    | match goal with
      | |- stays _ _ (if ?b then _ else _) => destruct b
      | |- stays _ _ (let '(_, _) := ?x in _) => destruct x
      end ].

Lemma stays_photometric_section (loc : locals) :
  stays cfg (settled cfg) (photometric_section cfg orc loc).
Proof. unfold photometric_section, transit_planet. stay. Qed.

Lemma stays_lc_instrument_likelihood (loc : locals) (instrument : string)
      (ll : R) :
  stays cfg (settled cfg) (lc_instrument_likelihood cfg orc loc instrument ll).
Proof. unfold lc_instrument_likelihood. stay. Qed.

Lemma dict_set_present (P : string -> Prop) (d : dict R) (key : string)
      (v : R) :
  NoDup (map fst d) -> Dict.mem d key = true -> P key ->
  dict_agree P d (Dict.set d key v).
Proof.
  intros Hnd Hmem HP. split; [exact Hnd |]. clear Hnd. unfold Dict.mem in Hmem.
  induction d as [| [k' v'] d IH]; [discriminate |].
  cbn [Dict.set Dict.get] in *.
  destruct (String.eqb_spec k' key) as [-> | Hne].
  - constructor; [split; [reflexivity | left; exact HP] |].
    clear. induction d as [| e d IH]; constructor; [| exact IH].
    split; [reflexivity | right; reflexivity].
  - constructor; [split; [reflexivity | right; reflexivity] |].
    exact (IH Hmem).
Qed.

Lemma dict_mem_set {V} (d : dict V) (key key' : string) (v : V) :
  Dict.mem d key' = true -> Dict.mem (Dict.set d key v) key' = true.
Proof.
  unfold Dict.mem. intros H.
  destruct (String.eqb_spec key key') as [<- | Hne].
  - rewrite dict_get_set_same. reflexivity.
  - rewrite dict_get_set_other by (apply String.eqb_neq; exact Hne). exact H.
Qed.

Lemma stays_set_radvel (key : string) (v : R) :
  pending_planet 0 (List.length (numbering_rv cfg)) key ->
  stays cfg (settled cfg) (set_radvel key v).
Proof.
  intros Hkey s o s' Hset Hrun. unfold set_radvel, modify in Hrun.
  injection Hrun as <- <-. pose proof Hset as [Hnd Hall]. split.
  - destruct (similar_refl s Hset) as [H1 H2 H3 H4 H5 H6 H7 H8].
    constructor; cbn; try assumption.
    apply dict_set_present; [exact Hnd | exact (Hall _ Hkey) | exact Hkey].
  - split; cbn.
    + apply dict_set_nodup. exact Hnd.
    + intros key' Hk'. apply dict_mem_set. exact (Hall _ Hk').
Qed.

Lemma stays_rv_planet (n i : nat) (u : unit) :
  (n < List.length (numbering_rv cfg))%nat ->
  stays cfg (settled cfg) (rv_planet cfg n i u).
Proof.
  intros Hn. unfold rv_planet.
  assert (forall key, In key (planet_keys n) ->
                      pending_planet 0 (List.length (numbering_rv cfg)) key)
    as Hkeys.
  { intros key Hin. exists n. split; [lia | exact Hin]. }
  cbn [planet_keys In] in Hkeys.
  do 4 (apply stays_bind;
        [apply stays_reads; [solve [reader] | solve [auto]] | intros ?]).
  destruct a2 as [ecc omega].
  destruct (ecc >? 1); [apply stays_reads; [apply reads_return | auto] |].
  repeat first [ apply stays_bind | progress intros ];
    apply stays_set_radvel; apply Hkeys; auto 10.
Qed.

Lemma stays_rv_section : stays cfg (settled cfg) (rv_section cfg orc).
Proof.
  unfold rv_section. destruct (rvfilename cfg);
    [| apply stays_reads; [apply reads_ret | auto]].
  apply stays_bind; [apply stays_reads; [solve [reader] | auto] |].
  intros _. apply stays_bind.
  - apply stays_for_range_bound; [auto |].
    intros n i acc Hn. apply stays_rv_planet. lia.
  - intros _. apply stays_get_store. intros s o s' Hset Hrun.
    match type of Hrun with
    | ?m s = _ =>
        assert (reads cfg m) as [Hs _] by reader;
        pose proof (Hs s) as H; rewrite Hrun in H; cbn [snd] in H
    end.
    subst s'. split; [apply similar_refl; exact Hset | exact Hset].
Qed.

(** What a scatter changes. *)
Lemma scatter_changes (idx : list nat) :
  forall (vals v r : array),
    Array.scatter idx vals v = Some r ->
    agree_except (fun j => In j idx) v r.
Proof.
  induction idx as [| k idx IH]; intros vals v r H.
  - destruct vals; cbn in H; [| discriminate]. injection H as <-.
    apply agree_except_refl.
  - destruct vals as [| x vals]; cbn [Array.scatter] in H; [discriminate |].
    destruct (Array.set_nth k x v) as [v' |] eqn:Hset; [| discriminate].
    destruct (set_nth_some _ _ _ _ Hset) as [Hlen Hnth].
    apply (agree_except_trans _ _ v').
    + split; [congruence |]. intros j. rewrite Hnth.
      destruct (Nat.eqb_spec j k) as [-> | Hne];
        [left; left; reflexivity | right; reflexivity].
    + apply (agree_except_weaken (fun j => In j idx));
        [intros j Hj; right; exact Hj | exact (IH _ _ _ H)].
Qed.

Lemma stays_rv_instrument_likelihood (rvmodel : option array)
      (instrument : string) (ll : R) :
  In instrument (inames_rv cfg) ->
  stays cfg (settled cfg)
        (rv_instrument_likelihood cfg rvmodel instrument ll).
Proof.
  intros Hin. unfold rv_instrument_likelihood.
  destruct (rveparamfile cfg); cbn [negb];
    [| apply stays_reads; [solve [reader] | auto]].
  destruct (Dict.get (instrument_indexes_rv cfg) instrument) as [idx |]
    eqn:Hidx; cbn [of_option];
    [| intros s o s' Hset Hrun; injection Hrun as <- <-;
       split; [apply similar_refl; exact Hset | exact Hset]].
  assert (forall j, In j idx -> pending_points cfg (inames_rv cfg) j)
    as Hpend.
  { intros j Hj. exists instrument, idx. repeat split; assumption. }
  intros s o s' Hset Hrun. rewrite bind_ret in Hrun. revert s o s' Hset Hrun.
  match goal with
  | |- forall s o s', _ -> ?m s = _ -> _ =>
      change (stays cfg (settled cfg) m)
  end.
  do 5 (apply stays_bind;
        [apply stays_reads; [solve [reader] | solve [auto]] | intros ?]).
  apply stays_get_store. intros s o s' Hset Hrun.
  match type of Hrun with
  | bind (of_option ?sc) _ _ = _ => destruct sc as [r |] eqn:Hsc
  end; cbn [of_option] in Hrun;
    [| injection Hrun as <- <-;
       split; [apply similar_refl; exact Hset | exact Hset]].
  rewrite bind_ret, bind_modify in Hrun. cbn beta in Hrun.
  assert (similar cfg s (with_rvresiduals s r)) as Hstep.
  { destruct (similar_refl s Hset) as [H1 H2 H3 H4 H5 H6 H7 H8].
    constructor; cbn; try assumption.
    apply (agree_except_weaken _ _ _ _ Hpend).
    exact (scatter_changes _ _ _ _ Hsc). }
  assert (settled cfg (with_rvresiduals s r)) as Hset1 by exact Hset.
  match type of Hrun with
  | ?m ?s1 = _ =>
      assert (stays cfg (settled cfg) m) as Hrest
  end.
  { do 2 (apply stays_bind;
          [apply stays_reads; [solve [reader] | solve [auto]] | intros ?]).
    apply stays_get_store. intros t o' t' Hsett Hrun'.
    match type of Hrun' with
    | bind (of_option ?sc) _ _ = _ => destruct sc as [r' |] eqn:Hsc'
    end; cbn [of_option] in Hrun';
      [| injection Hrun' as <- <-;
         split; [apply similar_refl; exact Hsett | exact Hsett]].
    rewrite bind_ret, bind_modify in Hrun'. cbn beta in Hrun'.
    injection Hrun' as <- <-. split; [| exact Hsett].
    destruct (similar_refl t Hsett) as [H1 H2 H3 H4 H5 H6 H7 H8].
    constructor; cbn; try assumption.
    apply (agree_except_weaken _ _ _ _ Hpend).
    exact (scatter_changes _ _ _ _ Hsc'). }
  destruct (Hrest _ _ _ Hset1 Hrun) as [Hsim Hset'].
  split; [exact (similar_trans _ _ _ Hstep Hsim) | exact Hset'].
Qed.

Lemma stays_set_rv_GPVector (kernel : gp_kernel) (k : nat) (x : R) :
  (k < rv_written kernel)%nat ->
  stays cfg
        (fun s => settled cfg s /\ rv_GPType (rv_dictionary s) = kernel)
        (set_rv_GPVector k x).
Proof.
  intros Hk. unfold set_rv_GPVector. apply stays_get_store.
  intros s o s' [Hset HK] Hrun.
  destruct (Array.set_nth k x (rv_GPVector (rv_dictionary s))) as [v |]
    eqn:Hsn; cbn [of_option] in Hrun.
  - rewrite bind_ret in Hrun. unfold modify in Hrun. injection Hrun as <- <-.
    destruct (set_nth_some _ _ _ _ Hsn) as [Hlen Hnth].
    split; [| split; [exact Hset | exact HK]].
    destruct (similar_refl s Hset) as [H1 H2 H3 H4 H5 H6 H7 H8].
    constructor; cbn; try assumption; try reflexivity.
    split; [congruence |]. intros j. rewrite Hnth.
    destruct (Nat.eqb_spec j k) as [-> | Hne];
      [left; rewrite HK; lia | right; reflexivity].
  - injection Hrun as <- <-.
    split; [apply similar_refl; exact Hset | split; assumption].
Qed.

Ltac stay_rv_marshal_step :=
  apply stays_bind;
  [ apply stays_reads; [solve [reader] | intros ? [? _]; assumption]
  | intros ?;
    first
      [ apply stays_bind;
        [ apply stays_set_rv_GPVector; cbn; lia | intros ? ]
      | apply stays_set_rv_GPVector; cbn; lia ] ].

Lemma stays_marshal_rv_GPVector :
  stays cfg (settled cfg) marshal_rv_GPVector.
Proof.
  unfold marshal_rv_GPVector. apply stays_get_store.
  intros s o s' Hset Hrun.
  destruct (rv_GPType (rv_dictionary s)) eqn:HK.
  - injection Hrun as <- <-.
    split; [apply similar_refl; exact Hset | exact Hset].
  - match type of Hrun with
    | ?m s = _ =>
        assert (stays cfg
                      (fun s => settled cfg s
                                /\ rv_GPType (rv_dictionary s)
                                   = ExpSineSquaredSEKernel)
                      m) as Hb by (do 4 stay_rv_marshal_step)
    end.
    destruct (Hb _ _ _ (conj Hset HK) Hrun) as [Hsim [Hset' _]].
    split; assumption.
  - match type of Hrun with
    | ?m s = _ =>
        assert (stays cfg
                      (fun s => settled cfg s
                                /\ rv_GPType (rv_dictionary s)
                                   = CeleriteQPKernel)
                      m) as Hb by (do 4 stay_rv_marshal_step)
    end.
    destruct (Hb _ _ _ (conj Hset HK) Hrun) as [Hsim [Hset' _]].
    split; assumption.
Qed.

Lemma stays_rv_gp_term (ll : R) :
  stays cfg (settled cfg) (rv_gp_term cfg orc ll).
Proof.
  unfold rv_gp_term. destruct (rveparamfile cfg);
    [| apply stays_reads; [apply reads_ret | auto]].
  apply stays_bind; [apply stays_marshal_rv_GPVector | intros _].
  apply stays_get_store. intros s o s' Hset Hrun.
  match type of Hrun with
  | ?m s = _ =>
      assert (reads cfg m) as [Hs _] by reader;
      pose proof (Hs s) as H; rewrite Hrun in H; cbn [snd] in H
  end.
  subst s'. split; [apply similar_refl; exact Hset | exact Hset].
Qed.

Lemma stays_loglike_body (cube : list R) :
  stays cfg (settled cfg) (loglike_body cfg orc cube).
Proof.
  unfold loglike_body, photometric_part, rv_part.
  apply stays_bind.
  - apply stays_bind; [apply stays_assign_cvalues | intros _].
    apply stays_bind; [apply stays_photometric_section | intros loc].
    apply stays_bind.
    + apply stays_for_each_in; [auto |]. intros x acc _.
      apply stays_lc_instrument_likelihood.
    + intros ll1. apply stays_reads; [solve [reader] | auto].
  - intros ll2.
    apply stays_bind; [apply stays_rv_section | intros rvmodel].
    apply stays_bind; [apply stays_reads; [solve [reader] | auto] |].
    intros rvmodel'. apply stays_bind.
    + apply stays_for_each_in; [auto |]. intros x acc Hin.
      apply stays_rv_instrument_likelihood. exact Hin.
    + intros ll3.
      apply stays_bind; [apply stays_rv_gp_term | intros ll4].
      apply stays_reads; [apply reads_return | auto].
Qed.

Lemma loglike_stays (cube : list R) (s : store) :
  settled cfg s ->
  similar cfg s (snd (loglike cfg orc cube s))
  /\ settled cfg (snd (loglike cfg orc cube s)).
Proof.
  intros Hset. unfold loglike.
  destruct (loglike_body cfg orc cube s) as [o s'] eqn:Hrun.
  destruct (stays_loglike_body cube _ _ _ Hset Hrun) as [Hsim Hset'].
  destruct o; cbn [snd]; split; assumption.
Qed.

Lemma after_evaluations_stays (cubes : list (list R)) :
  forall s,
    settled cfg s ->
    similar cfg s (after_evaluations cfg orc cubes s)
    /\ settled cfg (after_evaluations cfg orc cubes s).
Proof.
  unfold after_evaluations.
  induction cubes as [| cube cubes IH]; intros s Hset; cbn [fold_left].
  - split; [apply similar_refl; exact Hset | exact Hset].
  - destruct (loglike_stays cube s Hset) as [H1 Hset1].
    destruct (IH _ Hset1) as [H2 Hset2].
    split; [exact (similar_trans _ _ _ H1 H2) | exact Hset2].
Qed.

End History.

(** X22. The value of [loglike] depends on the store only through its
    setup.  Two stores with the same parameters in [priors], the same
    static entries in [lc_dictionary] and [rv_dictionary], and the same
    contents wherever an evaluation reads before it writes, give the same
    value (or both an exception) for every cube, whatever sample, transit
    attributes, GP vectors, radvel values and residuals each of them
    holds; and the stores they leave are again so related. *)
Theorem loglike_same_setup_same_value (cfg : config) (orc : oracles)
        (cube : list R) (s1 s2 : store) :
  similar cfg s1 s2 ->
  fst (loglike cfg orc cube s1) = fst (loglike cfg orc cube s2)
  /\ similar cfg (snd (loglike cfg orc cube s1))
             (snd (loglike cfg orc cube s2)).
Proof. apply loglike_related. Qed.

Lemma loglike_same_setup_same_value_witness :
  fst (loglike Sample.transit_config Sample.flat_oracles [3; 0.1]
               Sample.transit_store)
  = fst (loglike Sample.transit_config Sample.flat_oracles [3; 0.1]
                 More.stale_store).
Proof.
  assert (similar Sample.transit_config Sample.transit_store
                  More.stale_store) as Hsim.
  { constructor.
    - unfold same_schema. cbn.
      repeat (apply Forall2_cons;
              [ cbn; repeat split; intros H; discriminate H |]).
      apply Forall2_nil.
    - intros i. unfold Sample.transit_store, More.stale_store.
      cbn [lc_dictionary Dict.get].
      destruct ("TESS" =? i)%string; cbn [opt_rel]; [| exact I].
      repeat split. intros j. right. reflexivity.
    - reflexivity.
    - reflexivity.
    - apply agree_except_refl.
    - split; constructor.
    - apply agree_except_refl.
    - apply agree_except_refl. }
  exact (proj1 (loglike_same_setup_same_value
                  Sample.transit_config Sample.flat_oracles [3; 0.1]
                  Sample.transit_store More.stale_store Hsim)).
Defined.

(** X23. Evaluations are reproducible.  From a store in which radvel
    holds a value for every key of every planet, the value of [loglike]
    on a cube (or its exception) is the same after any sequence of
    earlier evaluations, rejected or not, as before them. *)
Theorem loglike_independent_of_history (cfg : config) (orc : oracles)
        (cubes : list (list R)) (cube : list R) (s : store) :
  settled cfg s ->
  fst (loglike cfg orc cube (after_evaluations cfg orc cubes s))
  = fst (loglike cfg orc cube s).
Proof.
  intros Hset. apply similar_sym_value.
  exact (proj1 (after_evaluations_stays cfg orc cubes s Hset)).
Qed.

Lemma loglike_independent_of_history_witness :
  fst (loglike Sample.rv_config Sample.flat_oracles [3; 0.1; 5; 0.2]
               (after_evaluations Sample.rv_config Sample.flat_oracles
                                  [[3; 0.1; 5; 1.5]; [4; 0.3; 2; 0.1]]
                                  More.rv_ready_store))
  = fst (loglike Sample.rv_config Sample.flat_oracles [3; 0.1; 5; 0.2]
                 More.rv_ready_store).
Proof.
  apply (loglike_independent_of_history
           Sample.rv_config Sample.flat_oracles
           [[3; 0.1; 5; 1.5]; [4; 0.3; 2; 0.1]] [3; 0.1; 5; 0.2]
           More.rv_ready_store).
  split.
  - cbn. repeat constructor; cbn; intuition discriminate.
  - intros key (n & Hn & Hin). cbn in Hn.
    destruct n as [| [| n]]; [| | lia]; cbn in Hin;
      repeat (destruct Hin as [<- | Hin]; [reflexivity |]);
      contradiction.
Defined.
